(** * BerryPay payment processor: charges, sweeps and persisted snapshots

    A shallow embedding of the charge processor (processor.ts, the class
    [PaymentProcessor]) and of the part of the wallet it relies on
    (wallet.ts: [deriveAccount], [getBalance], [getPendingBlocks], [send]
    and [receivePending] of [BerryPayWallet]), followed by the properties
    of the charge life cycle, the sweep, the webhook, deletion, the
    persisted snapshot and the allocation of sub-accounts, and then by
    those of the queries, the expiry check, the clean-up, export and
    import, the debounced save, [start()] and [stop()], the recovery scan
    and the registry of addresses.

    Conventions of the embedding.
    - Raw amounts are decimal strings in the source, read with [BigInt(..)]
      and written back with [toString()].  They are kept here as the
      integers they denote ([Z]); [BigInt] and [toString] are the identity.
    - Account indices are JavaScript numbers used as integers; they are
      kept as [Z] (exact below 2^53).
    - A [Date] is a time value in milliseconds or the Invalid Date.
    - [Map<string, Charge>] is an insertion-ordered association list, as
      [Array.from(map.values())] observes the order; the address index is
      never iterated and is a [gmap].
    - The charge objects are shared between the [charges] map and the
      locals of the methods.  Every method obtains its charge from the map
      and the map keeps it while the method runs, so a mutation of the
      object is an in-place update of the entry it was read from.
    - An [async] method runs until its first [await]; the pieces between
      two awaits are atomic.  The answers of the ledger node, of the
      webhook endpoint and of the clock are inputs of the operations.
    - The listeners of the emitted events do not throw, and the "error"
      event has a listener. *)

From Stdlib Require Import ZArith Lia.
From stdpp Require Import base option list strings pretty sorting gmap.

Open Scope Z_scope.

(** ** Data model *)

Inductive ChargeStatus := pending | partial | completed | expired | swept.

Global Instance ChargeStatus_eq_dec : EqDecision ChargeStatus.
Proof. solve_decision. Defined.

(** [Date]: a time value (milliseconds since the epoch) or the Invalid Date. *)
Inductive Date := DateMs (t : Z) | InvalidDate.

(** [new Date(v)] on a number applies TimeClip: beyond 8.64e15 ms the date
    is invalid. *)
Definition maxTime : Z := 8640000000000000.

Definition newDate (v : Z) : Date :=
  if Z.abs v <=? maxTime then DateMs v else InvalidDate.

(** [a < b] on dates compares the time values; a comparison with NaN is
    false. *)
Definition date_lt (a b : Date) : bool :=
  match a, b with
  | DateMs x, DateMs y => x <? y
  | _, _ => false
  end.

(** JSON data carried through unchanged ([metadata]). *)
Unset Elimination Schemes.
Inductive Json :=
| JsNull
| JsBool (b : bool)
| JsNum (n : Z)
| JsStr (s : string)
| JsArr (l : list Json)
| JsObj (l : list (string * Json)).
Set Elimination Schemes.

Record PaymentTransaction := {
  tx_hash : string;
  tx_from : string;
  tx_amountRaw : Z;
  tx_amountNano : string;
  tx_timestamp : Date;
}.

Record Charge := {
  id : string;
  address : string;
  accountIndex : Z;
  amountRaw : Z;
  amountNano : string;
  receivedRaw : Z;
  receivedNano : string;
  status : ChargeStatus;
  transactions : list PaymentTransaction;
  createdAt : Date;
  expiresAt : Date;
  completedAt : option Date;
  sweptAt : option Date;
  sweepTxHash : option string;
  webhookUrl : option string;
  webhookSent : option bool;
  metadata : option Json;
}.

(** Assignments to the fields of a charge object. *)
Definition set_status (st : ChargeStatus) (c : Charge) : Charge :=
  {| id := id c; address := address c; accountIndex := accountIndex c;
     amountRaw := amountRaw c; amountNano := amountNano c;
     receivedRaw := receivedRaw c; receivedNano := receivedNano c;
     status := st; transactions := transactions c;
     createdAt := createdAt c; expiresAt := expiresAt c;
     completedAt := completedAt c; sweptAt := sweptAt c;
     sweepTxHash := sweepTxHash c; webhookUrl := webhookUrl c;
     webhookSent := webhookSent c; metadata := metadata c |}.

Definition set_completedAt (d : Date) (c : Charge) : Charge :=
  {| id := id c; address := address c; accountIndex := accountIndex c;
     amountRaw := amountRaw c; amountNano := amountNano c;
     receivedRaw := receivedRaw c; receivedNano := receivedNano c;
     status := status c; transactions := transactions c;
     createdAt := createdAt c; expiresAt := expiresAt c;
     completedAt := Some d; sweptAt := sweptAt c;
     sweepTxHash := sweepTxHash c; webhookUrl := webhookUrl c;
     webhookSent := webhookSent c; metadata := metadata c |}.

Definition set_swept (d : Date) (h : string) (c : Charge) : Charge :=
  {| id := id c; address := address c; accountIndex := accountIndex c;
     amountRaw := amountRaw c; amountNano := amountNano c;
     receivedRaw := receivedRaw c; receivedNano := receivedNano c;
     status := swept; transactions := transactions c;
     createdAt := createdAt c; expiresAt := expiresAt c;
     completedAt := completedAt c; sweptAt := Some d;
     sweepTxHash := Some h; webhookUrl := webhookUrl c;
     webhookSent := webhookSent c; metadata := metadata c |}.

Definition set_webhookSent (b : bool) (c : Charge) : Charge :=
  {| id := id c; address := address c; accountIndex := accountIndex c;
     amountRaw := amountRaw c; amountNano := amountNano c;
     receivedRaw := receivedRaw c; receivedNano := receivedNano c;
     status := status c; transactions := transactions c;
     createdAt := createdAt c; expiresAt := expiresAt c;
     completedAt := completedAt c; sweptAt := sweptAt c;
     sweepTxHash := sweepTxHash c; webhookUrl := webhookUrl c;
     webhookSent := Some b; metadata := metadata c |}.

(** [charge.transactions.push(tx)] followed by the two assignments to
    [receivedRaw] and [receivedNano]. *)
Definition push_payment (tx : PaymentTransaction) (newReceived : Z)
    (newNano : string) (c : Charge) : Charge :=
  {| id := id c; address := address c; accountIndex := accountIndex c;
     amountRaw := amountRaw c; amountNano := amountNano c;
     receivedRaw := newReceived; receivedNano := newNano;
     status := status c; transactions := transactions c ++ [tx];
     createdAt := createdAt c; expiresAt := expiresAt c;
     completedAt := completedAt c; sweptAt := sweptAt c;
     sweepTxHash := sweepTxHash c; webhookUrl := webhookUrl c;
     webhookSent := webhookSent c; metadata := metadata c |}.

(** JavaScript truthiness of the optional fields tested by the code. *)
Definition truthy_string (s : string) : bool :=
  match s with EmptyString => false | String _ _ => true end.

Definition truthy_ostring (o : option string) : bool :=
  match o with Some s => truthy_string s | None => false end.

Definition truthy_obool (o : option bool) : bool :=
  match o with Some b => b | None => false end.

(** ** [Map<string, V>] with its insertion order *)

Abbreviation JsMap V := (list (string * V)).

Section JsMap.
Context {V : Type}.

Fixpoint jm_get (k : string) (m : JsMap V) : option V :=
  match m with
  | [] => None
  | (k', v) :: m' => if decide (k' = k) then Some v else jm_get k m'
  end.

(** [map.set(k, v)]: an existing key keeps its position. *)
Fixpoint jm_set (k : string) (v : V) (m : JsMap V) : JsMap V :=
  match m with
  | [] => [(k, v)]
  | (k', v') :: m' =>
      if decide (k' = k) then (k, v) :: m' else (k', v') :: jm_set k v m'
  end.

Fixpoint jm_delete (k : string) (m : JsMap V) : JsMap V :=
  match m with
  | [] => []
  | (k', v') :: m' =>
      if decide (k' = k) then jm_delete k m' else (k', v') :: jm_delete k m'
  end.

Definition jm_keys (m : JsMap V) : list string := m.*1.
Definition jm_values (m : JsMap V) : list V := m.*2.

End JsMap.

(** ** The ledger client (wallet.ts)

    The key derivation, the unit conversion and the node are outside the
    repository.  [nanoAccounts i] stands for
    [nanoWallet.accounts(seed, i, i)[0]] at the seed of the wallet, and
    [rawToNano], [nanoToRaw] for [tools.convert] between RAW and NANO. *)

Record Account := {
  privateKey : string;
  publicKey : string;
  acc_address : string;
}.

Class Ledger := {
  nanoAccounts : Z → Account;
  rawToNano : Z → string;
  nanoToRaw : string → Z;
}.

(** Answer of a call that may throw. *)
Inductive rpc (A : Type) :=
| Ok (a : A)
| Throw (msg : string).
Arguments Ok {A} a.
Arguments Throw {A} msg.

Section Wallet.
Context `{Ledger}.

(** [BerryPayWallet.deriveAccount(index)], on the cache [accounts]. *)
Definition deriveAccount (index : Z) (accounts : gmap Z Account)
    : string * gmap Z Account :=
  match accounts !! index with
  | Some a => (acc_address a, accounts)
  | None =>
      let account := nanoAccounts index in
      (acc_address account,
       <[index := {| privateKey := privateKey account;
                     publicKey := publicKey account;
                     acc_address := acc_address account |}]> accounts)
  end.

(** [getAddress(index)] is [deriveAccount(index)]. *)
Definition getAddress (index : Z) (accounts : gmap Z Account) :=
  deriveAccount index accounts.

(** The address of a sub-account, whatever the cache holds (see
    [deriveAccount_address]). *)
Definition deriveAddress (index : Z) : string := acc_address (nanoAccounts index).

(** Every cached entry is the derived account of its index. *)
Definition cache_coherent (accounts : gmap Z Account) : Prop :=
  ∀ i a, accounts !! i = Some a → a = nanoAccounts i.

(** [wallet.send(to, amountRaw, index)]: [info] is the answer of
    [getAccountInfo] (the balance of the opened account, if any) and
    [process] the outcome of building the block, generating the work and
    submitting it (the text of the second error is abridged). *)
Definition send (info : option Z) (amountRaw : Z) (process : rpc string)
    : rpc string :=
  match info with
  | None => Throw "Account not opened. Receive some Nano first."
  | Some balance =>
      if balance <? amountRaw then Throw "Insufficient balance." else process
  end.

End Wallet.

(** ** The persisted snapshot

    [JSON.stringify] writes a [Date] through [toJSON]: the ISO text of a
    valid time value, [null] for the Invalid Date; a property that is
    [undefined] is left out.  The ISO text is kept as the time value it
    denotes: [toISOString] and the [Date] constructor on that text are
    inverse of each other on valid time values. *)

Inductive JsonDate := JNull | JIso (t : Z).

Definition Date_toJSON (d : Date) : JsonDate :=
  match d with DateMs t => JIso t | InvalidDate => JNull end.

(** [new Date(v)] for a parsed value: [null] converts to the number 0. *)
Definition Date_of (j : JsonDate) : Date :=
  match j with JIso t => DateMs t | JNull => DateMs 0 end.

(** [v ? new Date(v) : undefined]: an absent property and [null] are falsy,
    an ISO text is a non-empty string. *)
Definition Date_of_opt (j : option JsonDate) : option Date :=
  match j with
  | Some (JIso t) => Some (DateMs t)
  | Some JNull => None
  | None => None
  end.

Record JTransaction := {
  j_hash : string;
  j_from : string;
  j_amountRaw : Z;
  j_amountNano : string;
  j_timestamp : JsonDate;
}.

Record JCharge := {
  jc_id : string;
  jc_address : string;
  jc_accountIndex : Z;
  jc_amountRaw : Z;
  jc_amountNano : string;
  jc_receivedRaw : Z;
  jc_receivedNano : string;
  jc_status : ChargeStatus;
  jc_transactions : list JTransaction;
  jc_createdAt : JsonDate;
  jc_expiresAt : JsonDate;
  jc_completedAt : option JsonDate;
  jc_sweptAt : option JsonDate;
  jc_sweepTxHash : option string;
  jc_webhookUrl : option string;
  jc_webhookSent : option bool;
  jc_metadata : option Json;
}.

(** The in-memory [PersistedState] and the content of the file. *)
Record PersistedState := {
  ps_nextAccountIndex : Z;
  ps_charges : list Charge;
  ps_updatedAt : Z;
}.

Record PersistedJson := {
  pj_nextAccountIndex : Z;
  pj_charges : list JCharge;
  pj_updatedAt : Z;
}.

Definition stringify_tx (t : PaymentTransaction) : JTransaction :=
  {| j_hash := tx_hash t; j_from := tx_from t; j_amountRaw := tx_amountRaw t;
     j_amountNano := tx_amountNano t;
     j_timestamp := Date_toJSON (tx_timestamp t) |}.

Definition stringify_charge (c : Charge) : JCharge :=
  {| jc_id := id c; jc_address := address c;
     jc_accountIndex := accountIndex c;
     jc_amountRaw := amountRaw c; jc_amountNano := amountNano c;
     jc_receivedRaw := receivedRaw c; jc_receivedNano := receivedNano c;
     jc_status := status c;
     jc_transactions := stringify_tx <$> transactions c;
     jc_createdAt := Date_toJSON (createdAt c);
     jc_expiresAt := Date_toJSON (expiresAt c);
     jc_completedAt := Date_toJSON <$> completedAt c;
     jc_sweptAt := Date_toJSON <$> sweptAt c;
     jc_sweepTxHash := sweepTxHash c; jc_webhookUrl := webhookUrl c;
     jc_webhookSent := webhookSent c; jc_metadata := metadata c |}.

(** [JSON.stringify(state, null, 2)], read back by [JSON.parse]. *)
Definition JSON_stringify (state : PersistedState) : PersistedJson :=
  {| pj_nextAccountIndex := ps_nextAccountIndex state;
     pj_charges := stringify_charge <$> ps_charges state;
     pj_updatedAt := ps_updatedAt state |}.

(** The two [map] callbacks of [loadPersistedState]. *)
Definition revive_tx (t : JTransaction) : PaymentTransaction :=
  {| tx_hash := j_hash t; tx_from := j_from t; tx_amountRaw := j_amountRaw t;
     tx_amountNano := j_amountNano t;
     tx_timestamp := Date_of (j_timestamp t) |}.

Definition revive_charge (c : JCharge) : Charge :=
  {| id := jc_id c; address := jc_address c;
     accountIndex := jc_accountIndex c;
     amountRaw := jc_amountRaw c; amountNano := jc_amountNano c;
     receivedRaw := jc_receivedRaw c; receivedNano := jc_receivedNano c;
     status := jc_status c;
     transactions := revive_tx <$> jc_transactions c;
     createdAt := Date_of (jc_createdAt c);
     expiresAt := Date_of (jc_expiresAt c);
     completedAt := Date_of_opt (jc_completedAt c);
     sweptAt := Date_of_opt (jc_sweptAt c);
     sweepTxHash := jc_sweepTxHash c; webhookUrl := jc_webhookUrl c;
     webhookSent := jc_webhookSent c; metadata := jc_metadata c |}.

(** [loadPersistedState(filePath)]: [file] is the parsed content of the
    file, [None] when the file is missing or cannot be read or parsed. *)
Definition loadPersistedState (file : option PersistedJson)
    : option PersistedState :=
  match file with
  | Some data =>
      Some {| ps_nextAccountIndex := pj_nextAccountIndex data;
              ps_charges := revive_charge <$> pj_charges data;
              ps_updatedAt := pj_updatedAt data |}
  | None => None
  end.

(** [savePersistedState(filePath, state)]: the new content of the file (the
    write is taken to succeed; a failed write is caught and leaves the file
    as it was). *)
Definition savePersistedState (state : PersistedState) : option PersistedJson :=
  Some (JSON_stringify state).

(** ** The processor (processor.ts) *)

Record PaymentEvent := {
  pe_to : string;
  pe_from : string;
  pe_hash : string;
  pe_amount : Z;
  pe_amountNano : string;
  pe_timestamp : Date;
}.

Record PendingBlock := {
  pb_hash : string;
  pb_amount : Z;
  pb_source : string;
}.

Record CreateChargeOptions := {
  opt_amountNano : string;
  opt_timeoutMs : option Z;
  opt_metadata : option Json;
  opt_webhookUrl : option string;
}.

Record ProcessorConfig := {
  cfg_mainAccountIndex : option Z;
  cfg_startingIndex : option Z;
  cfg_autoSweep : option bool;
}.

Definition DEFAULT_TIMEOUT_MS : Z := 30 * 60 * 1000.

(** The body of the webhook request. *)
Record WebhookPayload := {
  wp_id : string;
  wp_address : string;
  wp_amountNano : string;
  wp_amountRaw : Z;
  wp_receivedNano : string;
  wp_receivedRaw : Z;
  wp_status : ChargeStatus;
  wp_sweepTxHash : string;
  wp_sweptAmountNano : string;
  wp_sweptAmountRaw : Z;
  wp_completedAt : option Z;
  wp_sweptAt : option Z;
  wp_metadata : option Json;
  wp_timestamp : Z;
}.

(** What the processor does to the outside, in order: the events it emits
    (with the charge as it is when the event is emitted), the transfers it
    obtains from the wallet and the webhook requests it issues. *)
Inductive Effect :=
| state_loaded (chargeCount : nat)
| charge_created (c : Charge)
| charge_payment (c : Charge) (tx : PaymentTransaction)
| charge_completed (c : Charge)
| charge_partial (c : Charge)
| charge_swept (c : Charge) (hash : string) (amount : Z)
| charge_expired (c : Charge)
| charge_deleted (c : Charge)
| recovery_found (chargeId : string) (pendingCount : nat)
| webhook_sent (chargeId url : string)
| webhook_failed (chargeId url : string) (httpStatus : Z)
| webhook_error (chargeId url msg : string)
| error_event (msg : string)
| wallet_sent (toAddress : string) (amount : Z) (fromIndex : Z) (hash : string)
| http_post (url : string) (payload : WebhookPayload).

(** The fields of [PaymentProcessor], the accounts watched by the monitor,
    the content of the file at [persistPath] and the effects so far. *)
Record Processor := {
  charges : JsMap Charge;
  addressToChargeId : gmap string string;
  nextAccountIndex : Z;
  mainAccountIndex : Z;
  autoSweep : bool;
  monitor : gset string;
  saveDebounceTimer : bool;
  disk : option PersistedJson;
  trace : list Effect;
}.

Definition set_charges (m : JsMap Charge) (s : Processor) : Processor :=
  {| charges := m; addressToChargeId := addressToChargeId s;
     nextAccountIndex := nextAccountIndex s;
     mainAccountIndex := mainAccountIndex s; autoSweep := autoSweep s;
     monitor := monitor s; saveDebounceTimer := saveDebounceTimer s;
     disk := disk s; trace := trace s |}.

Definition set_index (ix : gmap string string) (s : Processor) : Processor :=
  {| charges := charges s; addressToChargeId := ix;
     nextAccountIndex := nextAccountIndex s;
     mainAccountIndex := mainAccountIndex s; autoSweep := autoSweep s;
     monitor := monitor s; saveDebounceTimer := saveDebounceTimer s;
     disk := disk s; trace := trace s |}.

Definition set_next (n : Z) (s : Processor) : Processor :=
  {| charges := charges s; addressToChargeId := addressToChargeId s;
     nextAccountIndex := n;
     mainAccountIndex := mainAccountIndex s; autoSweep := autoSweep s;
     monitor := monitor s; saveDebounceTimer := saveDebounceTimer s;
     disk := disk s; trace := trace s |}.

Definition set_monitor (a : gset string) (s : Processor) : Processor :=
  {| charges := charges s; addressToChargeId := addressToChargeId s;
     nextAccountIndex := nextAccountIndex s;
     mainAccountIndex := mainAccountIndex s; autoSweep := autoSweep s;
     monitor := a; saveDebounceTimer := saveDebounceTimer s;
     disk := disk s; trace := trace s |}.

Definition set_timer (b : bool) (s : Processor) : Processor :=
  {| charges := charges s; addressToChargeId := addressToChargeId s;
     nextAccountIndex := nextAccountIndex s;
     mainAccountIndex := mainAccountIndex s; autoSweep := autoSweep s;
     monitor := monitor s; saveDebounceTimer := b;
     disk := disk s; trace := trace s |}.

Definition set_disk (d : option PersistedJson) (s : Processor) : Processor :=
  {| charges := charges s; addressToChargeId := addressToChargeId s;
     nextAccountIndex := nextAccountIndex s;
     mainAccountIndex := mainAccountIndex s; autoSweep := autoSweep s;
     monitor := monitor s; saveDebounceTimer := saveDebounceTimer s;
     disk := d; trace := trace s |}.

(** [this.emit(..)], and the record of an outside call. *)
Definition emit (e : Effect) (s : Processor) : Processor :=
  {| charges := charges s; addressToChargeId := addressToChargeId s;
     nextAccountIndex := nextAccountIndex s;
     mainAccountIndex := mainAccountIndex s; autoSweep := autoSweep s;
     monitor := monitor s; saveDebounceTimer := saveDebounceTimer s;
     disk := disk s; trace := trace s ++ [e] |}.

(** Modelled from the spec: the Event Monitor (monitor.ts is not among the
    sources).  [addAccount] and [removeAccount] add an address to and remove
    it from the set of watched addresses. *)
Definition addAccount (a : string) (accounts : gset string) : gset string :=
  {[a]} ∪ accounts.

Definition removeAccount (a : string) (accounts : gset string) : gset string :=
  accounts ∖ {[a]}.

(** [this.addressToChargeId.delete(a); this.monitor.removeAccount(a)] *)
Definition unregister (a : string) (s : Processor) : Processor :=
  set_monitor (removeAccount a (monitor s))
    (set_index (delete a (addressToChargeId s)) s).

(** The state handed to [savePersistedState] by both save paths. *)
Definition current_state (now : Z) (s : Processor) : PersistedState :=
  {| ps_nextAccountIndex := nextAccountIndex s;
     ps_charges := jm_values (charges s);
     ps_updatedAt := now |}.

(** [persistState()]: (re)arms the 500 ms timer. *)
Definition persistState (s : Processor) : Processor := set_timer true s.

(** The callback of the timer, run at time [now]. *)
Definition saveTimer_fires (now : Z) (s : Processor) : Processor :=
  if saveDebounceTimer s
  then set_timer false (set_disk (savePersistedState (current_state now s)) s)
  else s.

(** [persistStateNow()] *)
Definition persistStateNow (now : Z) (s : Processor) : Processor :=
  set_disk (savePersistedState (current_state now s)) (set_timer false s).

(** The constructor: [file] is the content of [persistPath]. *)
Definition register_loaded (s : Processor) (charge : Charge) : Processor :=
  set_index (<[address charge := id charge]> (addressToChargeId s))
    (set_charges (jm_set (id charge) charge (charges s)) s).

Definition new_processor (config : ProcessorConfig) (file : option PersistedJson)
    : Processor :=
  let s := {| charges := []; addressToChargeId := ∅;
              nextAccountIndex := default 1000 (cfg_startingIndex config);
              mainAccountIndex := default 0 (cfg_mainAccountIndex config);
              autoSweep := default true (cfg_autoSweep config);
              monitor := ∅; saveDebounceTimer := false;
              disk := file; trace := [] |} in
  match loadPersistedState file with
  | Some persisted =>
      emit (state_loaded (length (ps_charges persisted)))
        (foldl register_loaded
           (set_next (ps_nextAccountIndex persisted) s) (ps_charges persisted))
  | None => s
  end.

(** [importCharges(charges)] *)
Definition import_one (s : Processor) (charge : Charge) : Processor :=
  let s1 := register_loaded s charge in
  if bool_decide (status charge = pending) || bool_decide (status charge = partial)
  then set_monitor (addAccount (address charge) (monitor s1)) s1
  else s1.

Definition importCharges (l : list Charge) (s : Processor) : Processor :=
  foldl import_one s l.

Definition getCharge (k : string) (s : Processor) : option Charge :=
  jm_get k (charges s).

(** [getChargeByAddress], with the key under which the charge is stored. *)
Definition lookupByAddress (a : string) (s : Processor) : option (string * Charge) :=
  match addressToChargeId s !! a with
  | Some i =>
      if truthy_string i then (λ c, (i, c)) <$> jm_get i (charges s) else None
  | None => None
  end.

Definition getChargeByAddress (a : string) (s : Processor) : option Charge :=
  snd <$> lookupByAddress a s.

(** [listCharges(status?)]: a status, when given, is a non-empty string. *)
Definition listCharges (st : option ChargeStatus) (s : Processor) : list Charge :=
  match st with
  | Some st => filter (λ c, status c = st) (jm_values (charges s))
  | None => jm_values (charges s)
  end.

Definition is_active (c : Charge) : bool :=
  bool_decide (status c = pending) || bool_decide (status c = partial).

Definition listActiveCharges (s : Processor) : list Charge :=
  filter (λ c, is_active c = true) (listCharges None s).

(** Answers of the outside world during one [sweepCharge]. *)
Inductive FetchResult :=
| Response (httpStatus : Z)
| FetchError (msg : string).

(** [response.ok] *)
Definition response_ok (httpStatus : Z) : bool :=
  (200 <=? httpStatus) && (httpStatus <=? 299).

Record SweepEnv := {
  sw_receivePending : rpc unit;   (* wallet.receivePending(index) *)
  sw_balance : Z;                 (* wallet.getBalance(index).balance *)
  sw_info : option Z;             (* getAccountInfo inside wallet.send *)
  sw_process : rpc string;        (* hash of the processed send block *)
  sw_now : Z;                     (* clock when the send has returned *)
  sw_fetch : FetchResult;         (* outcome of the webhook request *)
  sw_later : Z;                   (* clock when the request has returned *)
}.

(** One pending block met by the recovery scan: the block, the outcome of
    [wallet.receive] on it and the clock after it. *)
Record RecoveryItem := {
  ri_block : PendingBlock;
  ri_receive : rpc unit;
  ri_now : Z;
}.

Record RecoveryEnv := {
  rc_pending : list RecoveryItem;   (* wallet.getPendingBlocks(index) *)
  rc_now : Z;
  rc_sweep : SweepEnv;
}.

Record StatusResult := {
  sr_charge : Charge;
  sr_isPaid : bool;
  sr_remainingRaw : Z;
  sr_remainingNano : string;
}.

(** [d.toISOString()] throws a RangeError on the Invalid Date. *)
Definition toISOString (d : Date) : rpc Z :=
  match d with
  | DateMs t => Ok t
  | InvalidDate => Throw "Invalid time value"
  end.

(** [d?.toISOString()] *)
Definition opt_toISOString (o : option Date) : rpc (option Z) :=
  match o with
  | None => Ok None
  | Some d =>
      match toISOString d with
      | Ok t => Ok (Some t)
      | Throw m => Throw m
      end
  end.

Section Operations.
Context `{Ledger}.

(** [generateChargeId()]: [rnd] is the hexadecimal text of the twelve random
    bytes. *)
Definition generateChargeId (rnd : string) : string := "chg_" +:+ rnd.

(** [createCharge(options)]; [now] and [now'] are the two readings of the
    clock. *)
Definition createCharge (rnd : string) (now now' : Z)
    (options : CreateChargeOptions) (s : Processor) : Charge * Processor :=
  let i := generateChargeId rnd in
  let index := nextAccountIndex s in
  let s1 := set_next (nextAccountIndex s + 1) s in
  let a := deriveAddress index in
  let raw := nanoToRaw (opt_amountNano options) in
  let timeoutMs := default DEFAULT_TIMEOUT_MS (opt_timeoutMs options) in
  let charge :=
    {| id := i; address := a; accountIndex := index;
       amountRaw := raw; amountNano := opt_amountNano options;
       receivedRaw := 0; receivedNano := "0";
       status := pending; transactions := [];
       createdAt := DateMs now; expiresAt := newDate (now' + timeoutMs);
       completedAt := None; sweptAt := None; sweepTxHash := None;
       webhookUrl := opt_webhookUrl options; webhookSent := None;
       metadata := opt_metadata options |} in
  let s2 := set_charges (jm_set i charge (charges s1)) s1 in
  let s3 := set_index (<[a := i]> (addressToChargeId s2)) s2 in
  let s4 := set_monitor (addAccount a (monitor s3)) s3 in
  let s5 := persistState s4 in
  (charge, emit (charge_created charge) s5).

(** [callWebhook(charge, sweepHash, amountRaw)]; [k] is the key of the
    charge object in the map. *)
Definition webhook_payload (c : Charge) (sweepHash : string) (amount : Z)
    (completed_at swept_at : option Z) (now : Z) : WebhookPayload :=
  {| wp_id := id c; wp_address := address c;
     wp_amountNano := amountNano c; wp_amountRaw := amountRaw c;
     wp_receivedNano := receivedNano c; wp_receivedRaw := receivedRaw c;
     wp_status := status c; wp_sweepTxHash := sweepHash;
     wp_sweptAmountNano := rawToNano amount; wp_sweptAmountRaw := amount;
     wp_completedAt := completed_at; wp_sweptAt := swept_at;
     wp_metadata := metadata c; wp_timestamp := now |}.

Definition callWebhook (env : SweepEnv) (k : string) (c : Charge)
    (sweepHash : string) (amount : Z) (s : Processor) : rpc unit * Processor :=
  match webhookUrl c with
  | None => (Ok (), s)
  | Some url =>
      if negb (truthy_string url) then (Ok (), s)
      else
        match opt_toISOString (completedAt c) with
        | Throw m => (Throw m, s)
        | Ok completed_at =>
            match opt_toISOString (sweptAt c) with
            | Throw m => (Throw m, s)
            | Ok swept_at =>
                let payload :=
                  webhook_payload c sweepHash amount completed_at swept_at
                    (sw_now env) in
                let s1 := emit (http_post url payload) s in
                match sw_fetch env with
                | Response st =>
                    if response_ok st then
                      let c1 := set_webhookSent true c in
                      let s2 := set_charges (jm_set k c1 (charges s1)) s1 in
                      let s3 := persistStateNow (sw_later env) s2 in
                      (Ok (), emit (webhook_sent (id c1) url) s3)
                    else (Ok (), emit (webhook_failed (id c) url st) s1)
                | FetchError m => (Ok (), emit (webhook_error (id c) url m) s1)
                end
            end
        end
  end.

(** [sweepCharge(chargeId)].  The result is [Ok None] for [null] ("nothing
    to sweep"), [Ok (Some (hash, amount))] after a sweep, [Throw] when the
    promise is rejected. *)
Definition sweepCharge (env : SweepEnv) (chargeId : string) (s : Processor)
    : rpc (option (string * Z)) * Processor :=
  match jm_get chargeId (charges s) with
  | None => (Throw "Charge not found", s)
  | Some c =>
      if bool_decide (status c = swept) then (Ok None, s)
      else
        match sw_receivePending env with
        | Throw m => (Throw m, emit (error_event m) s)
        | Ok _ =>
            let balance := sw_balance env in
            if balance =? 0 then (Ok None, s)
            else
              let mainAddress := deriveAddress (mainAccountIndex s) in
              match send (sw_info env) balance (sw_process env) with
              | Throw m => (Throw m, emit (error_event m) s)
              | Ok hash =>
                  let s1 :=
                    emit (wallet_sent mainAddress balance (accountIndex c) hash) s in
                  let c1 := set_swept (DateMs (sw_now env)) hash c in
                  let s2 := set_charges (jm_set chargeId c1 (charges s1)) s1 in
                  let s3 := unregister (address c1) s2 in
                  let s4 := persistStateNow (sw_now env) s3 in
                  let s5 := emit (charge_swept c1 hash balance) s4 in
                  if truthy_ostring (webhookUrl c1)
                     && negb (truthy_obool (webhookSent c1))
                  then
                    match callWebhook env chargeId c1 hash balance s5 with
                    | (Throw m, s6) => (Throw m, emit (error_event m) s6)
                    | (Ok _, s6) => (Ok (Some (hash, balance)), s6)
                    end
                  else (Ok (Some (hash, balance)), s5)
              end
        end
  end.

(** [handlePayment(payment)] up to its [await]: the charge to sweep, if
    any, comes with the new state. *)
Definition handlePayment_sync (now : Z) (payment : PaymentEvent) (s : Processor)
    : Processor * option string :=
  match lookupByAddress (pe_to payment) s with
  | None => (s, None)
  | Some (k, c) =>
      match status c with
      | completed | expired | swept => (s, None)
      | pending | partial =>
          let tx := {| tx_hash := pe_hash payment; tx_from := pe_from payment;
                       tx_amountRaw := pe_amount payment;
                       tx_amountNano := pe_amountNano payment;
                       tx_timestamp := pe_timestamp payment |} in
          let previousReceived := receivedRaw c in
          let newReceived := previousReceived + pe_amount payment in
          let c1 := push_payment tx newReceived (rawToNano newReceived) c in
          let s1 := emit (charge_payment c1 tx)
                      (set_charges (jm_set k c1 (charges s)) s) in
          let requiredAmount := amountRaw c1 in
          if requiredAmount <=? newReceived then
            let c2 := set_completedAt (DateMs now) (set_status completed c1) in
            let s2 := persistStateNow now
                        (set_charges (jm_set k c2 (charges s1)) s1) in
            (emit (charge_completed c2) s2,
             if autoSweep s then Some (id c2) else None)
          else
            let c2 := set_status partial c1 in
            let s2 := persistState (set_charges (jm_set k c2 (charges s1)) s1) in
            (emit (charge_partial c2) s2, None)
      end
  end.

(** [handlePayment(payment)] with the awaited sweep. *)
Definition handlePayment (env : SweepEnv) (now : Z) (payment : PaymentEvent)
    (s : Processor) : Processor :=
  match handlePayment_sync now payment s with
  | (s1, Some i) => (sweepCharge env i s1).2
  | (s1, None) => s1
  end.

(** [checkChargeStatus(chargeId)], given the pending blocks and the balance
    the wallet reports. *)
Definition checkChargeStatus (pend : list PendingBlock) (balance : Z)
    (chargeId : string) (s : Processor) : rpc StatusResult :=
  match jm_get chargeId (charges s) with
  | None => Throw "Charge not found"
  | Some c =>
      let totalReceived := balance + foldl (λ sum p, sum + pb_amount p) 0 pend in
      let required := amountRaw c in
      let remaining :=
        if totalReceived <? required then required - totalReceived else 0 in
      Ok {| sr_charge := c; sr_isPaid := required <=? totalReceived;
            sr_remainingRaw := remaining;
            sr_remainingNano := rawToNano remaining |}
  end.

(** [checkExpiredCharges()] at time [now].  The loop over
    [this.charges.values()] assigns the status of the charges that are due;
    the sweeps it starts are not awaited: their charge ids are returned. *)
Definition is_due (now : Z) (c : Charge) : bool :=
  is_active c && date_lt (expiresAt c) (DateMs now).

Fixpoint expire_loop (now : Z) (entries : list (string * Charge)) (s : Processor)
    : list (string * Charge) * Processor * list string * bool :=
  match entries with
  | [] => ([], s, [], false)
  | (k, c) :: rest =>
      if is_due now c then
        let c1 := set_status expired c in
        let s1 := emit (charge_expired c1) s in
        if (0 <? receivedRaw c1) && autoSweep s then
          let '(rest1, s2, spawned, _) := expire_loop now rest s1 in
          ((k, c1) :: rest1, s2, id c1 :: spawned, true)
        else
          let '(rest1, s2, spawned, _) :=
            expire_loop now rest (unregister (address c1) s1) in
          ((k, c1) :: rest1, s2, spawned, true)
      else
        let '(rest1, s2, spawned, changed) := expire_loop now rest s in
        ((k, c) :: rest1, s2, spawned, changed)
  end.

Definition checkExpiredCharges (now : Z) (s : Processor)
    : Processor * list string :=
  let '(entries, s1, spawned, stateChanged) := expire_loop now (charges s) s in
  let s2 := set_charges entries s1 in
  (if stateChanged then persistState s2 else s2, spawned).

(** [deleteCharge(chargeId)] *)
Definition deletable (c : Charge) : bool :=
  bool_decide (status c = swept)
  || (bool_decide (status c = expired) && (receivedRaw c =? 0)).

Definition deleteCharge (chargeId : string) (s : Processor)
    : rpc bool * Processor :=
  match jm_get chargeId (charges s) with
  | None => (Ok false, s)
  | Some c =>
      if negb (deletable c)
      then (Throw "Cannot delete charge with pending funds. Sweep first.", s)
      else
        let s1 := set_index (delete (address c) (addressToChargeId s)) s in
        let s2 := set_charges (jm_delete chargeId (charges s1)) s1 in
        let s3 := set_monitor (removeAccount (address c) (monitor s2)) s2 in
        (Ok true, emit (charge_deleted c) (persistState s3))
  end.

(** [cleanupSweptCharges()] *)
Definition cleanupSweptCharges (s : Processor) : nat * Processor :=
  let kept := filter (λ kc, status kc.2 ≠ swept) (charges s) in
  let count := (length (charges s) - length kept)%nat in
  (count, if bool_decide (count ≠ 0%nat) then persistState (set_charges kept s)
          else s).

(** The recovery scan [checkMissedPayments()].  [recover_pending] is the
    loop over the pending blocks of one charge, [recover_charge] the body
    of the loop over the active charges up to the awaited sweep. *)
Fixpoint recover_pending (k : string) (c : Charge) (pend : list RecoveryItem)
    (s : Processor) : Charge * Processor :=
  match pend with
  | [] => (c, s)
  | item :: rest =>
      match ri_receive item with
      | Ok _ =>
          let p := ri_block item in
          let tx := {| tx_hash := pb_hash p; tx_from := pb_source p;
                       tx_amountRaw := pb_amount p;
                       tx_amountNano := rawToNano (pb_amount p);
                       tx_timestamp := DateMs (ri_now item) |} in
          let newReceived := receivedRaw c + pb_amount p in
          let c1 := push_payment tx newReceived (rawToNano newReceived) c in
          recover_pending k c1 rest
            (emit (charge_payment c1 tx)
               (set_charges (jm_set k c1 (charges s)) s))
      | Throw m => recover_pending k c rest (emit (error_event m) s)
      end
  end.

Definition recover_charge (env : RecoveryEnv) (k : string) (c : Charge)
    (s : Processor) : Processor * option string :=
  match rc_pending env with
  | [] => (s, None)
  | _ :: _ =>
      let s0 := emit (recovery_found (id c) (length (rc_pending env))) s in
      let '(c1, s1) := recover_pending k c (rc_pending env) s0 in
      if amountRaw c1 <=? receivedRaw c1 then
        let c2 := set_completedAt (DateMs (rc_now env)) (set_status completed c1) in
        let s2 := persistStateNow (rc_now env)
                    (set_charges (jm_set k c2 (charges s1)) s1) in
        (emit (charge_completed c2) s2,
         if autoSweep s then Some (id c2) else None)
      else if 0 <? receivedRaw c1 then
        (persistState
           (set_charges (jm_set k (set_status partial c1) (charges s1)) s1),
         None)
      else (s1, None)
  end.

(** One turn of the loop over the active charges: the charge object listed
    at the start is the one stored under [k]; a rejected sweep is caught
    and reported. *)
Definition recover_turn (envs : string → RecoveryEnv) (s : Processor)
    (k : string) : Processor :=
  match jm_get k (charges s) with
  | None => s
  | Some c =>
      match recover_charge (envs k) k c s with
      | (s1, Some i) =>
          match sweepCharge (rc_sweep (envs k)) i s1 with
          | (Throw m, s2) => emit (error_event m) s2
          | (Ok _, s2) => s2
          end
      | (s1, None) => s1
      end
  end.

Definition active_keys (s : Processor) : list string :=
  (filter (λ kc, is_active kc.2 = true) (charges s)).*1.

Definition checkMissedPayments (envs : string → RecoveryEnv) (s : Processor)
    : Processor :=
  foldl (recover_turn envs) s (active_keys s).

End Operations.

(** ** The webhook requests of a trace *)

Definition is_post (e : Effect) : bool :=
  match e with http_post _ _ => true | _ => false end.

Definition n_posts (t : list Effect) : nat :=
  length (filter (λ e, is_post e = true) t).
Global Arguments n_posts : simpl never.

(** The webhook request is acknowledged: a response with [response.ok]. *)
Definition delivered (f : FetchResult) : bool :=
  match f with
  | Response st => response_ok st
  | FetchError _ => false
  end.

(** ** The operations as transitions

    [step]: the atomic pieces of the four operations that assign the
    status of a charge, namely the application of a payment event
    ([handlePayment] up to its await), [sweepCharge], the expiry check, and
    the recovery of one active charge, and the report of a rejected sweep
    by the handlers that catch it.  [handlePayment], an expiry pass with
    the sweeps it starts and [checkMissedPayments] are sequences of these
    pieces (see [handlePayment_steps], [expiry_pass_steps] and
    [checkMissedPayments_steps]). *)
Inductive step `{Ledger} : Processor → Processor → Prop :=
| step_payment now payment s :
    step s (handlePayment_sync now payment s).1
| step_sweep env chargeId s :
    step s (sweepCharge env chargeId s).2
| step_expiry now s :
    step s (checkExpiredCharges now s).1
| step_recover env k c s :
    getCharge k s = Some c → is_active c = true →
    step s (recover_charge env k c s).1
| step_report msg s :
    step s (emit (error_event msg) s).

(** [transition]: the pieces above, the creation and the removal of
    charges, and the debounced save. *)
Inductive transition `{Ledger} : Processor → Processor → Prop :=
| tr_step s s' : step s s' → transition s s'
| tr_create rnd now now' options s :
    transition s (createCharge rnd now now' options s).2
| tr_delete chargeId s :
    transition s (deleteCharge chargeId s).2
| tr_cleanup s :
    transition s (cleanupSweptCharges s).2
| tr_timer now s :
    transition s (saveTimer_fires now s).

(** [live]: the states of one processor object constructed without a
    file.  [reachable]: the states met when, in addition, a new processor
    may be constructed on the file the previous one has left. *)
Inductive live `{Ledger} : Processor → Prop :=
| live_fresh config : live (new_processor config None)
| live_next s s' : live s → transition s s' → live s'.

Inductive reachable `{Ledger} : Processor → Prop :=
| reach_fresh config : reachable (new_processor config None)
| reach_next s s' : reachable s → transition s s' → reachable s'
| reach_restart config s : reachable s → reachable (new_processor config (disk s)).

(** An expiry pass with the sweeps it starts: each started sweep runs once
    the loop is over, and its rejection is reported by the [catch]
    handler. *)
Definition sweep_reported `{Ledger} (envs : string → SweepEnv) (s : Processor)
    (chargeId : string) : Processor :=
  match sweepCharge (envs chargeId) chargeId s with
  | (Throw m, s1) => emit (error_event m) s1
  | (Ok _, s1) => s1
  end.

Definition expiry_pass `{Ledger} (envs : string → SweepEnv) (now : Z)
    (s : Processor) : Processor :=
  let '(s1, spawned) := checkExpiredCharges now s in
  foldl (sweep_reported envs) s1 spawned.

(** ** Properties of the stored charges *)

(** A property of the stored charges that also holds of the charges the
    file would give back. *)
Definition charges_inv (P : string → Charge → Prop) (s : Processor) : Prop :=
  Forall (λ kc, P kc.1 kc.2) (charges s)
  ∧ match loadPersistedState (disk s) with
    | Some persisted => Forall (λ c, P (id c) c) (ps_charges persisted)
    | None => True
    end.

(** The received amount is the sum of the recorded transactions. *)
Definition sumZ (l : list Z) : Z := foldr Z.add 0 l.

Definition tx_total (c : Charge) : Z := sumZ (tx_amountRaw <$> transactions c).

Definition balanced (c : Charge) : Prop := receivedRaw c = tx_total c.

Definition store_balanced (s : Processor) : Prop :=
  charges_inv (λ _ c, balanced c) s.

(** The keys of the charge map are the ids of the charges, each once. *)
Definition keyed_by_id (s : Processor) : Prop :=
  charges_inv (λ k c, k = id c) s.

Definition wf_store (s : Processor) : Prop :=
  NoDup (jm_keys (charges s)) ∧ Forall (λ kc, kc.1 = id kc.2) (charges s).

(** The transaction recorded for a payment event. *)
Definition tx_of_event (payment : PaymentEvent) : PaymentTransaction :=
  {| tx_hash := pe_hash payment; tx_from := pe_from payment;
     tx_amountRaw := pe_amount payment;
     tx_amountNano := pe_amountNano payment;
     tx_timestamp := pe_timestamp payment |}.

(** The transaction recorded for a recovered pending block. *)
Definition tx_of_item `{Ledger} (item : RecoveryItem) : PaymentTransaction :=
  {| tx_hash := pb_hash (ri_block item); tx_from := pb_source (ri_block item);
     tx_amountRaw := pb_amount (ri_block item);
     tx_amountNano := rawToNano (pb_amount (ri_block item));
     tx_timestamp := DateMs (ri_now item) |}.

(** The pending blocks of a recovery whose [wallet.receive] succeeded. *)
Definition received_ok (item : RecoveryItem) : bool :=
  match ri_receive item with Ok _ => true | Throw _ => false end.

Definition received_items (pend : list RecoveryItem) : list RecoveryItem :=
  filter (λ item, received_ok item = true) pend.

(** ** The status graph

    [spec_edge]: the transitions of the life cycle as the specification
    draws them.  [code_edge]: those, and the sweep of a charge that is
    still pending or partial.  [forward]: reachability in either graph. *)
Definition spec_edge (a b : ChargeStatus) : bool :=
  match a, b with
  | pending, partial | pending, completed | partial, completed
  | pending, expired | partial, expired
  | completed, swept | expired, swept => true
  | _, _ => false
  end.

Definition code_edge (a b : ChargeStatus) : bool :=
  spec_edge a b
  || match a, b with
     | pending, swept | partial, swept => true
     | _, _ => false
     end.

Definition forward (a b : ChargeStatus) : bool :=
  match a, b with
  | pending, _ => true
  | partial, (partial | completed | expired | swept) => true
  | completed, (completed | swept) => true
  | expired, (expired | swept) => true
  | swept, swept => true
  | _, _ => false
  end.

(** The status of every stored charge stays or moves along an edge. *)
Definition moves (edge : ChargeStatus → ChargeStatus → bool)
    (m m' : JsMap Charge) : Prop :=
  ∀ k c, jm_get k m = Some c →
    ∃ c', jm_get k m' = Some c'
      ∧ (status c' = status c ∨ edge (status c) (status c') = true).

(** ** How one state comes from another

    [index_shrinks]: no address is added to the address index.
    [origin]: every charge stored afterwards was stored before under the
    same key with the same address and sub-account, and if it is swept
    afterwards it was swept before or its address is out of the index. *)
Definition index_shrinks (s s' : Processor) : Prop :=
  ∀ a, addressToChargeId s !! a = None → addressToChargeId s' !! a = None.

Definition origin (s s' : Processor) : Prop :=
  ∀ k c', getCharge k s' = Some c' →
    ∃ c, getCharge k s = Some c
      ∧ address c' = address c
      ∧ accountIndex c' = accountIndex c
      ∧ (status c' = swept →
         status c = swept ∨ addressToChargeId s' !! address c' = None).

(** Every stored charge sits at the address derived for its sub-account,
    and its sub-account is below the next one to allocate. *)
Definition allocated `{Ledger} (s : Processor) : Prop :=
  ∀ k c, getCharge k s = Some c →
    address c = deriveAddress (accountIndex c)
    ∧ accountIndex c < nextAccountIndex s.

(** No address of a swept charge is in the address index. *)
Definition swept_unregistered (s : Processor) : Prop :=
  ∀ k c, getCharge k s = Some c → status c = swept →
    addressToChargeId s !! address c = None.

(** ** Dates that the file can hold *)

Definition is_valid (d : Date) : bool :=
  match d with DateMs _ => true | InvalidDate => false end.

Definition is_valid_opt (o : option Date) : bool :=
  match o with Some d => is_valid d | None => true end.

(** Every time stamp of the charge is a valid date. *)
Definition valid_dates (c : Charge) : bool :=
  is_valid (createdAt c) && is_valid (expiresAt c)
  && is_valid_opt (completedAt c) && is_valid_opt (sweptAt c)
  && forallb (λ t, is_valid (tx_timestamp t)) (transactions c).

(** ** Charges created in sequence *)




(** ** A concrete ledger and concrete runs, for the examples

    The wallet of the examples derives the address "nano_" followed by the
    index; one unit of the smallest amount of the examples is 10^6 raw. *)

Definition demoAccount (i : Z) : Account :=
  {| privateKey := "sk_" +:+ pretty i; publicKey := "pk_" +:+ pretty i;
     acc_address := "nano_" +:+ pretty i |}.

Definition demoLedger : Ledger :=
  {| nanoAccounts := demoAccount; rawToNano := λ raw, pretty raw;
     nanoToRaw := λ _, 1000000 |}.

Definition demoConfig : ProcessorConfig :=
  {| cfg_mainAccountIndex := None; cfg_startingIndex := None;
     cfg_autoSweep := None |}.

Definition demoOptions : CreateChargeOptions :=
  {| opt_amountNano := "0.000000000000000000000001";
     opt_timeoutMs := Some 60000; opt_metadata := None;
     opt_webhookUrl := Some "https://shop.example/hook" |}.

Definition demoPayment (amount : Z) : PaymentEvent :=
  {| pe_to := "nano_1000"; pe_from := "nano_payer"; pe_hash := "B10C";
     pe_amount := amount; pe_amountNano := pretty amount;
     pe_timestamp := DateMs 2000 |}.

Definition demoSweep (balance : Z) (fetch : FetchResult) : SweepEnv :=
  {| sw_receivePending := Ok (); sw_balance := balance;
     sw_info := Some balance; sw_process := Ok "5EEB";
     sw_now := 3000; sw_fetch := fetch; sw_later := 3100 |}.

(** A fresh processor, then one charge of 1000000 raw at "nano_1000". *)
Definition demo_fresh : Processor := new_processor demoConfig None.

Definition demo_created : Processor :=
  (createCharge (H := demoLedger) "01" 1000 1000 demoOptions demo_fresh).2.

(** The charge of the examples, as created and as it stands in a later
    state. *)
Definition demo_charge : Charge :=
  (createCharge (H := demoLedger) "01" 1000 1000 demoOptions demo_fresh).1.

Definition demo_charge_in (s : Processor) : Charge :=
  default demo_charge (getCharge "chg_01" s).

(** The charge paid in part, and paid in full without the sweep. *)
Definition demo_partial : Processor :=
  (handlePayment_sync (H := demoLedger) 2000 (demoPayment 400000) demo_created).1.

Definition demo_completed : Processor :=
  (handlePayment_sync (H := demoLedger) 2000 (demoPayment 1000000) demo_created).1.

(** The charge paid in full and swept, the webhook being acknowledged. *)
Definition demo_swept : Processor :=
  handlePayment (H := demoLedger) (demoSweep 1000000 (Response 200)) 2000
    (demoPayment 1000000) demo_created.

(** The charge still pending, its payment event missed: the funds are on
    the sub-account and the charge is swept by hand. *)
Definition demo_manual_sweep : Processor :=
  (sweepCharge (H := demoLedger) (demoSweep 1000000 (Response 200))
     "chg_01" demo_created).2.

(** A charge created with a time-out beyond the range of dates (the
    command line passes on any number of minutes): its deadline is the
    Invalid Date. *)
Definition demoOptions_far : CreateChargeOptions :=
  {| opt_amountNano := "0.000000000000000000000001";
     opt_timeoutMs := Some (10 ^ 16);
     opt_metadata := None; opt_webhookUrl := None |}.

Definition demo_far : Processor :=
  (createCharge (H := demoLedger) "02" 1000 1000 demoOptions_far demo_fresh).2.



(** A recovery that finds one pending block of 5 raw and receives it. *)
Definition demoRecovery : RecoveryEnv :=
  {| rc_pending :=
       [ {| ri_block := {| pb_hash := "B10D"; pb_amount := 5;
                           pb_source := "nano_payer" |};
            ri_receive := Ok (); ri_now := 4000 |} ];
     rc_now := 4000;
     rc_sweep := demoSweep 5 (Response 200) |}.


(** ** More of the processor *)

(** [exportCharges()] *)
Definition exportCharges (s : Processor) : list Charge := jm_values (charges s).

(** [getMainAddress()] *)
Definition getMainAddress `{Ledger} (s : Processor) : string :=
  deriveAddress (mainAccountIndex s).

(** The events [start()] and [stop()] emit. *)
Inductive ServiceEvent :=
| started (resumedCharges : nat)
| stopped.

(** The processor with the fields [isRunning] and [expiryCheckInterval]
    (set or null), the events above, and whether the monitor has been
    started (Modelled from the spec: the Event Monitor, whose [start()] and
    [stop()] attach it to and detach it from the node). *)
Record Service := {
  isRunning : bool;
  expiryCheckInterval : bool;
  monitorStarted : bool;
  announced : list ServiceEvent;
  processor : Processor;
}.

(** The first loop of [start()]: [this.monitor.addAccount(charge.address)]
    for every active charge. *)
Definition resubscribe (s : Processor) : Processor :=
  foldl (λ s c, set_monitor (addAccount (address c) (monitor s)) s) s
    (listActiveCharges s).

(** [start()]; [monitor_start] is the outcome of [this.monitor.start()]. *)
Definition start `{Ledger} (envs : string → RecoveryEnv) (monitor_start : rpc unit)
    (sv : Service) : rpc unit * Service :=
  if isRunning sv then (Ok (), sv)
  else
    let activeCharges := listActiveCharges (processor sv) in
    let s1 := resubscribe (processor sv) in
    let s2 := checkMissedPayments envs s1 in
    match monitor_start with
    | Throw m =>
        (Throw m,
         {| isRunning := true; expiryCheckInterval := expiryCheckInterval sv;
            monitorStarted := monitorStarted sv; announced := announced sv;
            processor := s2 |})
    | Ok _ =>
        (Ok (),
         {| isRunning := true; expiryCheckInterval := true;
            monitorStarted := true;
            announced := announced sv ++ [started (length activeCharges)];
            processor := s2 |})
    end.

(** [stop()] *)
Definition stop (sv : Service) : Service :=
  {| isRunning := false; expiryCheckInterval := false;
     monitorStarted := false; announced := announced sv ++ [stopped];
     processor := processor sv |}.

(** A processor just constructed. *)
Definition new_service (config : ProcessorConfig) (file : option PersistedJson)
    : Service :=
  {| isRunning := false; expiryCheckInterval := false;
     monitorStarted := false; announced := [];
     processor := new_processor config file |}.

(** ** More of the wallet (wallet.ts) *)

(** The answer of the node to [account_balance]. *)
Record BalanceAnswer := {
  ba_balance : Z;
  ba_pending : Z;
  ba_receivable : option Z;
}.

(** [getBalance(index)]: the pair [(balance, pending)]; a failed call is
    caught. *)
Definition getBalance (answer : rpc BalanceAnswer) : Z * Z :=
  match answer with
  | Ok result =>
      (ba_balance result, default (ba_pending result) (ba_receivable result))
  | Throw _ => (0, 0)
  end.

(** The [blocks] field of the answer to [pending]: missing, empty or a
    string, or an object whose values are an amount (old format) or an
    amount with the source. *)
Inductive PendingInfo :=
| AmountOnly (amount : Z)
| AmountSource (amount : Z) (source : string).

Inductive BlocksField :=
| NoBlocks
| Blocks (entries : list (string * PendingInfo)).

(** [getPendingBlocks(index)] *)
Definition getPendingBlocks (answer : rpc BlocksField) : list PendingBlock :=
  match answer with
  | Ok (Blocks entries) =>
      (λ e : string * PendingInfo,
         match e.2 with
         | AmountOnly amount =>
             {| pb_hash := e.1; pb_amount := amount; pb_source := "" |}
         | AmountSource amount source =>
             {| pb_hash := e.1; pb_amount := amount; pb_source := source |}
         end) <$> entries
  | Ok NoBlocks => []
  | Throw _ => []
  end.

Record ReceiveResult := {
  rr_hash : string;
  rr_amount : Z;
}.

(** The loop of [receivePending(index)] over the pending blocks, each with
    the outcome of [this.receive] on it (the hash of the receive block):
    the results, and how many blocks were received before the loop ended. *)
Fixpoint receive_loop (pending : list (PendingBlock * rpc string))
    : rpc (list ReceiveResult) * nat :=
  match pending with
  | [] => (Ok [], 0%nat)
  | (pendingBlock, outcome) :: rest =>
      match outcome with
      | Ok hash =>
          let '(r, n) := receive_loop rest in
          (match r with
           | Ok results =>
               Ok ({| rr_hash := hash; rr_amount := pb_amount pendingBlock |}
                   :: results)
           | Throw m => Throw m
           end, S n)
      | Throw m =>
          (Throw ("Failed to receive " +:+ pb_hash pendingBlock +:+ ": " +:+ m),
           0%nat)
      end
  end.

Definition receivePending (pending : list (PendingBlock * rpc string))
    : rpc (list ReceiveResult) :=
  (receive_loop pending).1.


(** ** What one expiry check does

    [expire_one]: the charge after the check.  [sweep_started]: the check
    starts the sweep of the charge.  [dropped]: the check takes the
    address of the charge out of the address index and of the monitor. *)
Definition expire_one (now : Z) (c : Charge) : Charge :=
  if is_due now c then set_status expired c else c.

Definition sweep_started (now : Z) (auto : bool) (c : Charge) : bool :=
  is_due now c && ((0 <? receivedRaw c) && auto).

Definition dropped (now : Z) (auto : bool) (c : Charge) : bool :=
  is_due now c && negb ((0 <? receivedRaw c) && auto).


(** ** What [sweepCharge] obtains from the wallet

    [sweepCharge] awaits [wallet.receivePending(index)], whose value it
    drops, and reads [balance] off [wallet.getBalance(index)]. *)
Definition void {A} (r : rpc A) : rpc unit :=
  match r with Ok _ => Ok () | Throw m => Throw m end.

(** The blocks [receivePending] works on: those of [getPendingBlocks], each
    with the outcome of its [receive]. *)
Definition pending_receipts (blocks : rpc BlocksField) (outcomes : list (rpc string))
    : list (PendingBlock * rpc string) :=
  zip (getPendingBlocks blocks) outcomes.

Definition received (o : PendingBlock * rpc string) : bool :=
  match o.2 with Ok _ => true | Throw _ => false end.


(** ** A restart

    [reload c]: the charge the constructor obtains from the file for a
    charge [c] that was saved. *)
Definition reload (c : Charge) : Charge := revive_charge (stringify_charge c).


(** ** The registry of a running processor

    [subaccounts_distinct]: no two stored charges share a sub-account.
    [registry_ok]: every key of the charge map is a non-empty string, and
    every active charge is registered under its key in the address index
    and watched by the monitor. *)
Definition subaccounts_distinct (s : Processor) : Prop :=
  ∀ k1 k2 c1 c2, getCharge k1 s = Some c1 → getCharge k2 s = Some c2 →
    accountIndex c1 = accountIndex c2 → k1 = k2.



(** A second charge created while the first is paid in part. *)
Definition demo_two : Processor :=
  (createCharge (H := demoLedger) "02" 2500 2500 demoOptions demo_partial).2.

(** * Properties *)

Lemma Forall_filter_keep {A} (Q R : A → Prop) `{∀ x, Decision (R x)} (l : list A) :
  Forall Q l → Forall Q (filter R l).
Proof.
  rewrite !Forall_forall. intros Hl x Hx.
  apply list_elem_of_filter in Hx as [_ Hx]. by apply Hl.
Qed.

Lemma NoDup_filter_keys {V} (Q : string * V → Prop) `{∀ x, Decision (Q x)}
    (m : list (string * V)) :
  NoDup m.*1 → NoDup (filter Q m).*1.
Proof.
  induction m as [|[k v] m IH]; [done|].
  rewrite fmap_cons, NoDup_cons. intros [Hk Hnd].
  destruct (decide (Q (k, v))).
  - rewrite filter_cons_True by done. rewrite fmap_cons. apply NoDup_cons.
    split; [|by apply IH]. intros Hin. apply Hk.
    apply list_elem_of_fmap in Hin as ([k1 v1] & -> & Hin).
    apply list_elem_of_filter in Hin as [_ Hin].
    apply list_elem_of_fmap. by exists (k1, v1).
  - rewrite filter_cons_False by done. by apply IH.
Qed.

(** ** Facts on the insertion-ordered map *)

Section JsMapFacts.
Context {V : Type}.
Implicit Types (m : list (string * V)) (k : string) (v : V).

Lemma jm_get_set_eq k v m : jm_get k (jm_set k v m) = Some v.
Proof.
  induction m as [|[k' v'] m IH]; simpl.
  - by rewrite decide_True.
  - destruct (decide (k' = k)) as [->|Hne]; simpl.
    + by rewrite decide_True.
    + by rewrite decide_False.
Qed.

Lemma jm_get_set_ne k k' v m : k ≠ k' → jm_get k' (jm_set k v m) = jm_get k' m.
Proof.
  intros Hne. induction m as [|[k0 v0] m IH]; simpl.
  - by rewrite decide_False.
  - destruct (decide (k0 = k)) as [->|Hne0]; simpl.
    + by rewrite !decide_False.
    + by rewrite IH.
Qed.

Lemma jm_get_set k k' v m :
  jm_get k' (jm_set k v m) = if decide (k = k') then Some v else jm_get k' m.
Proof.
  destruct (decide (k = k')) as [->|Hne].
  - apply jm_get_set_eq.
  - by apply jm_get_set_ne.
Qed.

Lemma jm_get_delete_eq k m : jm_get k (jm_delete k m) = None.
Proof.
  induction m as [|[k' v'] m IH]; simpl; [done|].
  destruct (decide (k' = k)) as [->|Hne]; simpl; [done|].
  by rewrite decide_False.
Qed.

Lemma jm_get_delete_ne k k' m : k ≠ k' → jm_get k' (jm_delete k m) = jm_get k' m.
Proof.
  intros Hne. induction m as [|[k0 v0] m IH]; simpl; [done|].
  destruct (decide (k0 = k)) as [->|Hne0]; simpl.
  - by rewrite decide_False.
  - by rewrite IH.
Qed.

Lemma jm_get_Some_elem k v m : jm_get k m = Some v → (k, v) ∈ m.
Proof.
  induction m as [|[k' v'] m IH]; simpl; [done|].
  destruct (decide (k' = k)) as [->|Hne].
  - intros [= ->]. apply list_elem_of_here.
  - intros H. apply list_elem_of_further. by apply IH.
Qed.

Lemma jm_get_None_keys k m : jm_get k m = None ↔ k ∉ jm_keys m.
Proof.
  unfold jm_keys. induction m as [|[k' v'] m IH]; simpl.
  - split; [intros _; apply not_elem_of_nil | done].
  - rewrite not_elem_of_cons. destruct (decide (k' = k)) as [->|Hne].
    + split; [done | intros [? _]; done].
    + rewrite IH. split; [intros H; split; [congruence | done] | by intros [_ H]].
Qed.

Lemma jm_elem_get k v m : NoDup (jm_keys m) → (k, v) ∈ m → jm_get k m = Some v.
Proof.
  unfold jm_keys. induction m as [|[k' v'] m IH]; simpl.
  - intros _ H. by apply elem_of_nil in H.
  - rewrite NoDup_cons. intros [Hk Hnd] Hin.
    apply elem_of_cons in Hin as [[= -> ->]|Hin].
    + by rewrite decide_True.
    + destruct (decide (k' = k)) as [->|Hne]; [|by apply IH].
      exfalso. apply Hk. apply list_elem_of_fmap. by exists (k, v).
Qed.

(** Setting a key that is present changes no key. *)
Lemma jm_keys_set_present k v m :
  is_Some (jm_get k m) → jm_keys (jm_set k v m) = jm_keys m.
Proof.
  unfold jm_keys. induction m as [|[k' v'] m IH]; simpl.
  - intros [? ?]; done.
  - destruct (decide (k' = k)) as [->|Hne]; simpl; [done|].
    intros H. f_equal. by apply IH.
Qed.

Lemma jm_set_absent k v m : jm_get k m = None → jm_set k v m = m ++ [(k, v)].
Proof.
  induction m as [|[k' v'] m IH]; simpl; [done|].
  destruct (decide (k' = k)) as [->|Hne]; [done|].
  intros H. by rewrite IH.
Qed.
Lemma jm_set_set k v1 v2 m : jm_set k v2 (jm_set k v1 m) = jm_set k v2 m.
Proof.
  induction m as [|[k' v'] m IH]; simpl.
  - by rewrite decide_True.
  - destruct (decide (k' = k)) as [->|Hne]; simpl.
    + by rewrite decide_True.
    + rewrite decide_False by done. by rewrite IH.
Qed.

Lemma jm_get_Some_set k v m : jm_get k m = Some v → jm_set k v m = m.
Proof.
  induction m as [|[k' v'] m IH]; simpl; [done|].
  destruct (decide (k' = k)) as [->|Hne].
  - by intros [= ->].
  - intros H. by rewrite IH.
Qed.

Lemma jm_set_Forall (Q : string * V → Prop) k v m :
  Forall Q m → Q (k, v) → Forall Q (jm_set k v m).
Proof.
  intros Hm Hv. induction Hm as [|[k' v'] m Hkv Hm IH]; simpl.
  - by constructor.
  - destruct (decide (k' = k)); by constructor.
Qed.

Lemma jm_delete_Forall (Q : string * V → Prop) k m :
  Forall Q m → Forall Q (jm_delete k m).
Proof.
  intros Hm. induction Hm as [|[k' v'] m Hkv Hm IH]; simpl; [done|].
  destruct (decide (k' = k)); [done | by constructor].
Qed.

Lemma jm_get_Forall (Q : string * V → Prop) k v m :
  Forall Q m → jm_get k m = Some v → Q (k, v).
Proof.
  intros Hm Hget. apply jm_get_Some_elem in Hget.
  by apply (proj1 (Forall_forall Q m) Hm).
Qed.

Lemma jm_keys_set k v m :
  jm_keys (jm_set k v m) =
  if decide (k ∈ jm_keys m) then jm_keys m else jm_keys m ++ [k].
Proof.
  unfold jm_keys. induction m as [|[k' v'] m IH].
  - cbn. destruct (decide (k ∈ [])) as [Hin|]; [inversion Hin | done].
  - cbn [jm_set]. rewrite fmap_cons. cbn [fst]. destruct (decide (k' = k)) as [->|Hne].
    + rewrite fmap_cons. cbn [fst]. rewrite decide_True; [done | apply list_elem_of_here].
    + rewrite fmap_cons, IH. cbn [fst].  destruct (decide (k ∈ m.*1)) as [Hin|Hin].
      * rewrite decide_True; [done | by apply list_elem_of_further].
      * rewrite decide_False; [done|].
        rewrite elem_of_cons. intros [?|?]; congruence.
Qed.

Lemma jm_set_NoDup k v m : NoDup (jm_keys m) → NoDup (jm_keys (jm_set k v m)).
Proof.
  intros Hnd. rewrite jm_keys_set. destruct (decide (k ∈ jm_keys m)); [done|].
  apply NoDup_app. split_and!; [done | | apply NoDup_singleton].
  intros x Hx Hx'. apply list_elem_of_singleton in Hx'. by subst.
Qed.

Lemma jm_keys_delete k m : jm_keys (jm_delete k m) = filter (λ x, x ≠ k) (jm_keys m).
Proof.
  unfold jm_keys. induction m as [|[k' v'] m IH]; [done|].
  cbn [jm_delete]. rewrite fmap_cons. cbn [fst].
  destruct (decide (k' = k)) as [->|Hne].
  - rewrite filter_cons_False; [done | by intros ?].
  - rewrite filter_cons_True by done. by rewrite fmap_cons, IH.
Qed.

Lemma jm_delete_NoDup k m : NoDup (jm_keys m) → NoDup (jm_keys (jm_delete k m)).
Proof. intros Hnd. rewrite jm_keys_delete. by apply NoDup_filter. Qed.

End JsMapFacts.

(** ** Counting webhook requests *)

Lemma n_posts_snoc t e :
  n_posts (t ++ [e]) = (n_posts t + if is_post e then 1 else 0)%nat.
Proof.
  unfold n_posts. rewrite filter_app, length_app. f_equal.
  destruct (is_post e) eqn:He.
  - by rewrite filter_cons_True.
  - rewrite filter_cons_False; [done | congruence].
Qed.

(** ** Deletion *)

Lemma deletable_iff c :
  deletable c = true ↔
  status c = swept ∨ (status c = expired ∧ receivedRaw c = 0).
Proof.
  unfold deletable.
  rewrite orb_true_iff, andb_true_iff, !bool_decide_eq_true, Z.eqb_eq.
  done.
Qed.

(** C10. [deleteCharge] on an id that is not in the store returns [false]
    without raising and changes nothing: the charge map, the address index,
    the file and the pending save are as before.  On the same id
    [sweepCharge] and [checkChargeStatus] are rejected with "Charge not
    found". *)
Theorem deleteCharge_unknown `{Ledger} (chargeId : string) (s : Processor)
    (env : SweepEnv) (pend : list PendingBlock) (balance : Z) :
  getCharge chargeId s = None →
  deleteCharge chargeId s = (Ok false, s)
  ∧ sweepCharge env chargeId s = (Throw "Charge not found", s)
  ∧ checkChargeStatus pend balance chargeId s = Throw "Charge not found".
Proof.
  unfold getCharge, deleteCharge, sweepCharge, checkChargeStatus.
  intros ->. done.
Qed.

Lemma deleteCharge_unknown_witness :
  deleteCharge "chg_99" demo_created = (Ok false, demo_created)
  ∧ sweepCharge (H := demoLedger) (demoSweep 5 (Response 200)) "chg_99" demo_created
    = (Throw "Charge not found", demo_created)
  ∧ checkChargeStatus (H := demoLedger) [] 0 "chg_99" demo_created
    = Throw "Charge not found".
Proof.
  apply (deleteCharge_unknown (H := demoLedger)). reflexivity.
Defined.

(** C7. [deleteCharge] on a stored charge succeeds exactly when the charge
    is swept, or expired with nothing received: then the record and the
    registration of its address are removed and the other charges stay.
    In every other case it throws and the processor is left as it was. *)
Theorem deleteCharge_guard (chargeId : string) (c : Charge) (s : Processor) :
  getCharge chargeId s = Some c →
  (status c = swept ∨ (status c = expired ∧ receivedRaw c = 0) →
     ∃ s', deleteCharge chargeId s = (Ok true, s')
       ∧ getCharge chargeId s' = None
       ∧ addressToChargeId s' !! address c = None
       ∧ (address c ∉ monitor s')
       ∧ ∀ k, k ≠ chargeId → getCharge k s' = getCharge k s)
  ∧ (¬ (status c = swept ∨ (status c = expired ∧ receivedRaw c = 0)) →
     deleteCharge chargeId s
     = (Throw "Cannot delete charge with pending funds. Sweep first.", s)).
Proof.
  unfold getCharge, deleteCharge. intros ->. split.
  - intros Hd. apply deletable_iff in Hd. rewrite Hd. simpl.
    eexists. split; [reflexivity|]. simpl. split_and!.
    + apply jm_get_delete_eq.
    + apply lookup_delete_eq.
    + unfold removeAccount. rewrite elem_of_difference, elem_of_singleton. tauto.
    + intros k Hk. by apply jm_get_delete_ne.
  - intros Hd. rewrite <- deletable_iff in Hd.
    apply not_true_is_false in Hd. by rewrite Hd.
Qed.

Lemma deleteCharge_guard_witness :
  (∃ s', deleteCharge "chg_01" demo_swept = (Ok true, s')
     ∧ getCharge "chg_01" s' = None)
  ∧ deleteCharge "chg_01" demo_partial
    = (Throw "Cannot delete charge with pending funds. Sweep first.", demo_partial).
Proof.
  split.
  - destruct (deleteCharge_guard "chg_01" (demo_charge_in demo_swept) demo_swept)
      as [Hok _]; [vm_compute; reflexivity|].
    destruct Hok as (s' & Hs' & Hgone & _); [left; vm_compute; reflexivity|].
    exists s'. by split.
  - destruct (deleteCharge_guard "chg_01" (demo_charge_in demo_partial) demo_partial)
      as [_ Hno]; [vm_compute; reflexivity|].
    apply Hno. vm_compute. intros [?|[? _]]; discriminate.
Defined.

(** ** Sweeping *)

Lemma eqb_0_false (z : Z) : z ≠ 0 → (z =? 0) = false.
Proof. intros. by apply Z.eqb_neq. Qed.

Lemma not_swept_decide (c : Charge) :
  status c ≠ swept → bool_decide (status c = swept) = false.
Proof. intros. by apply bool_decide_eq_false. Qed.

Lemma unregister_index a s :
  addressToChargeId (unregister a s) !! a = None.
Proof. unfold unregister. simpl. apply lookup_delete_eq. Qed.

Lemma unregister_monitor a s : a ∉ monitor (unregister a s).
Proof.
  unfold unregister, removeAccount. simpl.
  rewrite elem_of_difference, elem_of_singleton. tauto.
Qed.

(** C5. [sweepCharge] is rejected with "Charge not found" on an id that is
    not in the store; on a charge that is already swept, and on a charge
    whose balance after the reconciliation of the pending funds is zero,
    it returns "nothing to sweep" and the processor, the record of the
    charge included, is as before. *)
Theorem sweepCharge_nothing `{Ledger} (env : SweepEnv) (chargeId : string)
    (s : Processor) :
  (getCharge chargeId s = None →
     sweepCharge env chargeId s = (Throw "Charge not found", s))
  ∧ (∀ c, getCharge chargeId s = Some c → status c = swept →
     sweepCharge env chargeId s = (Ok None, s))
  ∧ (∀ c, getCharge chargeId s = Some c → status c ≠ swept →
     sw_receivePending env = Ok () → sw_balance env = 0 →
     sweepCharge env chargeId s = (Ok None, s)).
Proof.
  unfold getCharge, sweepCharge. split_and!.
  - by intros ->.
  - intros c -> Hst. by rewrite bool_decide_eq_true_2.
  - intros c -> Hst -> ->. by rewrite not_swept_decide.
Qed.

Lemma sweepCharge_nothing_witness :
  sweepCharge (H := demoLedger) (demoSweep 0 (Response 200)) "chg_77" demo_completed
    = (Throw "Charge not found", demo_completed)
  ∧ sweepCharge (H := demoLedger) (demoSweep 7 (Response 200)) "chg_01" demo_swept
    = (Ok None, demo_swept)
  ∧ sweepCharge (H := demoLedger) (demoSweep 0 (Response 200)) "chg_01" demo_completed
    = (Ok None, demo_completed).
Proof.
  split_and!.
  - apply (sweepCharge_nothing (H := demoLedger)). reflexivity.
  - destruct (sweepCharge_nothing (H := demoLedger)
                (demoSweep 7 (Response 200)) "chg_01" demo_swept) as (_ & Hs & _).
    apply (Hs (demo_charge_in demo_swept)); vm_compute; reflexivity.
  - destruct (sweepCharge_nothing (H := demoLedger)
                (demoSweep 0 (Response 200)) "chg_01" demo_completed) as (_ & _ & Hz).
    apply (Hz (demo_charge_in demo_completed));
      [vm_compute; reflexivity | vm_compute; discriminate | reflexivity..].
Defined.

(** What the file holds after a save: the save was the last write and the
    charge [c] is stored.  The file exists and lists the stored charges in
    map order, the entry of [c] among them, and a load of the file gives
    back the next sub-account index and the charge read from that entry. *)
Lemma saved_file (t : Z) (s : Processor) (k : string) (c : Charge) :
  disk s = savePersistedState (current_state t s) →
  getCharge k s = Some c →
  (∃ file, disk s = Some file
     ∧ pj_nextAccountIndex file = nextAccountIndex s
     ∧ pj_updatedAt file = t
     ∧ pj_charges file = stringify_charge <$> jm_values (charges s)
     ∧ stringify_charge c ∈ pj_charges file)
  ∧ (∃ persisted, loadPersistedState (disk s) = Some persisted
     ∧ ps_nextAccountIndex persisted = nextAccountIndex s
     ∧ reload c ∈ ps_charges persisted).
Proof.
  intros Hd Hget.
  assert (c ∈ jm_values (charges s)) as Hin.
  { unfold jm_values. apply list_elem_of_fmap. exists (k, c).
    split; [done|]. by apply jm_get_Some_elem. }
  rewrite Hd. split.
  - eexists. split; [reflexivity|]. cbn [JSON_stringify current_state
      pj_nextAccountIndex pj_updatedAt pj_charges ps_nextAccountIndex
      ps_updatedAt ps_charges].
    split_and!; try done. by apply list_elem_of_fmap_2.
  - eexists. split; [reflexivity|]. cbn [JSON_stringify current_state
      pj_nextAccountIndex pj_charges ps_nextAccountIndex ps_charges].
    split; [done|]. unfold reload.
    by apply list_elem_of_fmap_2, list_elem_of_fmap_2.
Qed.

(** The outcome of a sweep that goes through, the file being given by the
    save that wrote it. *)
Lemma sweepCharge_outcome `{Ledger} (env : SweepEnv) (chargeId : string)
    (c : Charge) (s s' : Processor) (r : option (string * Z)) :
  getCharge chargeId s = Some c →
  status c ≠ swept →
  sw_balance env ≠ 0 →
  sweepCharge env chargeId s = (Ok r, s') →
  ∃ hash c',
    r = Some (hash, sw_balance env)
    ∧ (∃ rest, trace s' =
         trace s ++ wallet_sent (deriveAddress (mainAccountIndex s))
                      (sw_balance env) (accountIndex c) hash :: rest)
    ∧ getCharge chargeId s' = Some c'
    ∧ status c' = swept
    ∧ sweptAt c' = Some (DateMs (sw_now env))
    ∧ sweepTxHash c' = Some hash
    ∧ addressToChargeId s' !! address c = None
    ∧ (address c ∉ monitor s')
    ∧ saveDebounceTimer s' = false
    ∧ (∃ t, disk s' = savePersistedState (current_state t s'))
    ∧ n_posts (trace s') =
        (n_posts (trace s)
         + if truthy_ostring (webhookUrl c) && negb (truthy_obool (webhookSent c))
           then 1 else 0)%nat.
Proof.
  unfold getCharge, sweepCharge. intros -> Hst Hbal.
  rewrite (not_swept_decide _ Hst), (eqb_0_false _ Hbal).
  destruct (sw_receivePending env) as [[]|]; [|discriminate].
  destruct (send _ _ _) as [hash|]; [|discriminate].
  cbn [webhookUrl webhookSent set_swept].
  destruct (truthy_ostring (webhookUrl c)) eqn:Hurl; cbn [andb].
  2:{ intros [= <- <-]. exists hash, (set_swept (DateMs (sw_now env)) hash c).
      cbn. rewrite jm_get_set_eq. split_and!; try done.
      - eexists. by rewrite <- app_assoc.
      - apply lookup_delete_eq.
      - unfold removeAccount. rewrite elem_of_difference, elem_of_singleton. tauto.
      - by eexists.
      - rewrite !n_posts_snoc. cbn. lia. }
  destruct (truthy_obool (webhookSent c)) eqn:Hsent; cbn [negb].
  { intros [= <- <-]. exists hash, (set_swept (DateMs (sw_now env)) hash c).
    cbn. rewrite jm_get_set_eq. split_and!; try done.
    - eexists. by rewrite <- app_assoc.
    - apply lookup_delete_eq.
    - unfold removeAccount. rewrite elem_of_difference, elem_of_singleton. tauto.
    - by eexists.
    - rewrite !n_posts_snoc. cbn. lia. }
  unfold callWebhook. cbn [webhookUrl completedAt sweptAt set_swept].
  destruct (webhookUrl c) as [url|] eqn:Hu; [|discriminate]. cbn in Hurl.
  rewrite Hurl. cbn [negb opt_toISOString toISOString].
  destruct (opt_toISOString (completedAt c)) as [ca|]; [|discriminate].
  destruct (sw_fetch env) as [st|msg]; [destruct (response_ok st)|];
    intros [= <- <-]; eexists hash, _; cbn; rewrite ?jm_get_set_eq;
    (split_and!; [done | eexists; by rewrite <- ?app_assoc | done | done.. | | | done | by eexists | ]).
  all: try apply lookup_delete_eq.
  all: try (unfold removeAccount; rewrite elem_of_difference, elem_of_singleton; tauto).
  all: rewrite !n_posts_snoc; cbn; lia.
Qed.

(** C4. A [sweepCharge] that succeeds on a charge that is not yet swept and
    whose balance after reconciliation is not zero has sent that whole
    balance from the sub-account of the charge to the main address.
    Afterwards the charge is swept with the sweep time and the hash of the
    transfer recorded, its address is in neither the address index nor the
    monitor, and no save is left pending: the file exists and holds the
    state as it is at the end, that is the next sub-account index and one
    entry for every stored charge, in map order, the entry of the swept
    charge carrying the status [swept], the sweep time, the hash and the
    [webhookSent] flag; a load of the file gives the charge back with
    these.  A webhook request has been issued exactly when the charge has
    a non-empty webhook URL and its [webhookSent] flag was not set. *)
Theorem sweepCharge_success `{Ledger} (env : SweepEnv) (chargeId : string)
    (c : Charge) (s s' : Processor) (r : option (string * Z)) :
  getCharge chargeId s = Some c →
  status c ≠ swept →
  sw_balance env ≠ 0 →
  sweepCharge env chargeId s = (Ok r, s') →
  ∃ hash c',
    r = Some (hash, sw_balance env)
    ∧ (∃ rest, trace s' =
         trace s ++ wallet_sent (deriveAddress (mainAccountIndex s))
                      (sw_balance env) (accountIndex c) hash :: rest)
    ∧ getCharge chargeId s' = Some c'
    ∧ status c' = swept
    ∧ sweptAt c' = Some (DateMs (sw_now env))
    ∧ sweepTxHash c' = Some hash
    ∧ addressToChargeId s' !! address c = None
    ∧ (address c ∉ monitor s')
    ∧ saveDebounceTimer s' = false
    ∧ (∃ file entry,
         disk s' = Some file
         ∧ pj_nextAccountIndex file = nextAccountIndex s'
         ∧ pj_charges file = stringify_charge <$> jm_values (charges s')
         ∧ entry ∈ pj_charges file
         ∧ jc_id entry = id c'
         ∧ jc_address entry = address c'
         ∧ jc_status entry = swept
         ∧ jc_sweptAt entry = Some (JIso (sw_now env))
         ∧ jc_sweepTxHash entry = Some hash
         ∧ jc_webhookSent entry = webhookSent c')
    ∧ (∃ persisted loaded,
         loadPersistedState (disk s') = Some persisted
         ∧ ps_nextAccountIndex persisted = nextAccountIndex s'
         ∧ loaded ∈ ps_charges persisted
         ∧ id loaded = id c'
         ∧ address loaded = address c'
         ∧ status loaded = swept
         ∧ sweptAt loaded = Some (DateMs (sw_now env))
         ∧ sweepTxHash loaded = Some hash
         ∧ webhookSent loaded = webhookSent c')
    ∧ n_posts (trace s') =
        (n_posts (trace s)
         + if truthy_ostring (webhookUrl c) && negb (truthy_obool (webhookSent c))
           then 1 else 0)%nat.
Proof.
  intros Hget Hst Hbal Hsw.
  destruct (sweepCharge_outcome env chargeId c s s' r Hget Hst Hbal Hsw)
    as (hash & c' & Hr & Htr & Hget' & Hst' & Hat & Hh & Hix & Hmon & Htimer
        & [t Hd] & Hn).
  destruct (saved_file t s' chargeId c' Hd Hget')
    as [(file & Hf & Hnext & _ & Hcs & Hin) (persisted & Hl & Hpn & Hrin)].
  exists hash, c'. split_and!; try done.
  - exists file, (stringify_charge c').
    cbn [stringify_charge jc_id jc_address jc_status jc_sweptAt jc_sweepTxHash
         jc_webhookSent].
    rewrite Hst', Hat, Hh. by split_and!.
  - exists persisted, (reload c'). unfold reload.
    cbn [revive_charge stringify_charge id address status sweptAt sweepTxHash
         webhookSent jc_id jc_address jc_status jc_sweptAt jc_sweepTxHash
         jc_webhookSent].
    rewrite Hst', Hat, Hh. by split_and!.
Qed.

Lemma sweepCharge_success_witness :
  ∃ c', getCharge "chg_01"
          (sweepCharge (H := demoLedger) (demoSweep 1000000 (Response 200))
             "chg_01" demo_completed).2 = Some c'
        ∧ status c' = swept
        ∧ sweepTxHash c' = Some "5EEB"
        ∧ ∃ file entry,
            disk (sweepCharge (H := demoLedger) (demoSweep 1000000 (Response 200))
                    "chg_01" demo_completed).2 = Some file
            ∧ entry ∈ pj_charges file
            ∧ jc_status entry = swept
            ∧ jc_sweepTxHash entry = Some "5EEB".
Proof.
  destruct (sweepCharge_success (H := demoLedger)
              (demoSweep 1000000 (Response 200)) "chg_01"
              (demo_charge_in demo_completed) demo_completed
              (sweepCharge (H := demoLedger) (demoSweep 1000000 (Response 200))
                 "chg_01" demo_completed).2
              (Some ("5EEB", 1000000)))
    as (hash & c' & Hr & _ & Hget & Hst & _ & Hh & _ & _ & _
        & (file & entry & Hf & _ & _ & Hin & _ & _ & Hes & _ & Heh & _) & _).
  - vm_compute. reflexivity.
  - vm_compute. discriminate.
  - vm_compute. discriminate.
  - vm_compute. reflexivity.
  - exists c'. injection Hr as <-. split_and!; try done.
    by exists file, entry.
Defined.

(** ** The webhook *)

(** A sweep of a charge whose [webhookSent] flag is set issues no request,
    whatever the ledger answers. *)
Lemma sweepCharge_sent_no_post `{Ledger} (env : SweepEnv) (chargeId : string)
    (c : Charge) (s : Processor) :
  getCharge chargeId s = Some c →
  webhookSent c = Some true →
  n_posts (trace (sweepCharge env chargeId s).2) = n_posts (trace s).
Proof.
  unfold getCharge, sweepCharge. intros -> Hsent.
  destruct (bool_decide (status c = swept)); [done|].
  destruct (sw_receivePending env) as [[]|]; cbn; [|by rewrite n_posts_snoc, Nat.add_0_r].
  destruct (sw_balance env =? 0); [done|].
  destruct (send _ _ _) as [hash|]; cbn; [|by rewrite n_posts_snoc, Nat.add_0_r].
  rewrite Hsent. cbn. rewrite andb_false_r. cbn.
  rewrite !n_posts_snoc. cbn. lia.
Qed.

(** The outcome of a sweep that reaches the webhook, the file being given
    by the save that wrote it. *)
Lemma webhook_outcome `{Ledger} (env : SweepEnv) (chargeId : string)
    (c : Charge) (s : Processor) (hash : string) :
  getCharge chargeId s = Some c →
  status c ≠ swept →
  sw_receivePending env = Ok () →
  sw_balance env ≠ 0 →
  send (sw_info env) (sw_balance env) (sw_process env) = Ok hash →
  truthy_ostring (webhookUrl c) = true →
  truthy_obool (webhookSent c) = false →
  completedAt c ≠ Some InvalidDate →
  (∃ c' s',
     sweepCharge env chargeId s = (Ok (Some (hash, sw_balance env)), s')
     ∧ n_posts (trace s') = S (n_posts (trace s))
     ∧ getCharge chargeId s' = Some c'
     ∧ status c' = swept
     ∧ webhookSent c' =
         (if delivered (sw_fetch env) then Some true else webhookSent c)
     ∧ (delivered (sw_fetch env) = true →
        disk s' = savePersistedState (current_state (sw_later env) s')
        ∧ saveDebounceTimer s' = false))
  ∧ (∀ env2 s2 c2,
       getCharge chargeId s2 = Some c2 → webhookSent c2 = Some true →
       n_posts (trace (sweepCharge env2 chargeId s2).2) = n_posts (trace s2)).
Proof.
  intros Hget Hst Hrp Hbal Hsend Hurl Hsent Hca. split.
  2:{ intros env2 s2 c2. apply sweepCharge_sent_no_post. }
  unfold getCharge in Hget. unfold sweepCharge.
  rewrite Hget, (not_swept_decide _ Hst), Hrp, (eqb_0_false _ Hbal), Hsend.
  cbn [webhookUrl webhookSent set_swept]. rewrite Hurl, Hsent. cbn [andb negb].
  unfold callWebhook. cbn [webhookUrl completedAt sweptAt set_swept].
  destruct (webhookUrl c) as [url|] eqn:Hu; [|discriminate]. cbn in Hurl.
  rewrite Hurl. cbn [negb opt_toISOString toISOString].
  assert (∃ ca, opt_toISOString (completedAt c) = Ok ca) as [ca ->].
  { destruct (completedAt c) as [[t|]|]; cbn; eauto. done. }
  unfold getCharge.
  destruct (sw_fetch env) as [st|msg]; cbn [delivered];
    [destruct (response_ok st)|];
    eexists _, _; (split; [reflexivity|]); cbn; rewrite ?jm_get_set_eq;
    rewrite !n_posts_snoc; cbn; (split; [lia|]); done.
Qed.

(** C6. When a sweep reaches the webhook of a charge (non-empty URL, flag
    not set), exactly one request is issued.  Whatever its outcome, the
    sweep returns its result and is not rejected, and the charge is swept.
    A response that is not [ok] or a transport failure leaves the
    [webhookSent] flag as it was; an acknowledged request sets it, and the
    flag is saved at once: the file, written when the request has
    returned, holds the state at the end, the entry of the charge carrying
    the status [swept] and the flag, a load of the file gives the charge
    back with the flag set, and no save is left pending.  Once the flag of
    a charge is set, no sweep of that charge issues a request. *)
Theorem webhook_single_attempt `{Ledger} (env : SweepEnv) (chargeId : string)
    (c : Charge) (s : Processor) (hash : string) :
  getCharge chargeId s = Some c →
  status c ≠ swept →
  sw_receivePending env = Ok () →
  sw_balance env ≠ 0 →
  send (sw_info env) (sw_balance env) (sw_process env) = Ok hash →
  truthy_ostring (webhookUrl c) = true →
  truthy_obool (webhookSent c) = false →
  completedAt c ≠ Some InvalidDate →
  (∃ c' s',
     sweepCharge env chargeId s = (Ok (Some (hash, sw_balance env)), s')
     ∧ n_posts (trace s') = S (n_posts (trace s))
     ∧ getCharge chargeId s' = Some c'
     ∧ status c' = swept
     ∧ webhookSent c' =
         (if delivered (sw_fetch env) then Some true else webhookSent c)
     ∧ (delivered (sw_fetch env) = true →
        (∃ file entry,
           disk s' = Some file
           ∧ pj_updatedAt file = sw_later env
           ∧ pj_nextAccountIndex file = nextAccountIndex s'
           ∧ pj_charges file = stringify_charge <$> jm_values (charges s')
           ∧ entry ∈ pj_charges file
           ∧ jc_id entry = id c'
           ∧ jc_status entry = swept
           ∧ jc_sweepTxHash entry = sweepTxHash c'
           ∧ jc_webhookSent entry = Some true)
        ∧ (∃ persisted loaded,
             loadPersistedState (disk s') = Some persisted
             ∧ loaded ∈ ps_charges persisted
             ∧ id loaded = id c'
             ∧ status loaded = swept
             ∧ webhookSent loaded = Some true)
        ∧ saveDebounceTimer s' = false))
  ∧ (∀ env2 s2 c2,
       getCharge chargeId s2 = Some c2 → webhookSent c2 = Some true →
       n_posts (trace (sweepCharge env2 chargeId s2).2) = n_posts (trace s2)).
Proof.
  intros Hget Hst Hrp Hbal Hsend Hurl Hsent Hca.
  destruct (webhook_outcome env chargeId c s hash Hget Hst Hrp Hbal Hsend Hurl
              Hsent Hca)
    as [(c' & s' & Hsw & Hn & Hget' & Hst' & Hws & Hdel) Hno].
  split; [|exact Hno]. exists c', s'. split_and!; try done.
  intros Hdl. destruct (Hdel Hdl) as [Hd Ht]. rewrite Hdl in Hws.
  destruct (saved_file (sw_later env) s' chargeId c' Hd Hget')
    as [(file & Hf & Hnext & Hup & Hcs & Hin) (persisted & Hl & _ & Hrin)].
  split_and!; [| |done].
  - exists file, (stringify_charge c').
    cbn [stringify_charge jc_id jc_status jc_sweepTxHash jc_webhookSent].
    rewrite Hst', Hws. by split_and!.
  - exists persisted, (reload c'). unfold reload.
    cbn [revive_charge stringify_charge id status webhookSent jc_id jc_status
         jc_webhookSent].
    rewrite Hst', Hws. by split_and!.
Qed.

Lemma webhook_single_attempt_witness :
  (∃ c' s',
     sweepCharge (H := demoLedger) (demoSweep 1000000 (Response 503))
       "chg_01" demo_completed = (Ok (Some ("5EEB", 1000000)), s')
     ∧ n_posts (trace s') = S (n_posts (trace demo_completed))
     ∧ getCharge "chg_01" s' = Some c'
     ∧ webhookSent c' = None)
  ∧ (∃ c' s',
     sweepCharge (H := demoLedger) (demoSweep 1000000 (Response 200))
       "chg_01" demo_completed = (Ok (Some ("5EEB", 1000000)), s')
     ∧ getCharge "chg_01" s' = Some c'
     ∧ webhookSent c' = Some true
     ∧ ∃ file entry,
         disk s' = Some file
         ∧ entry ∈ pj_charges file
         ∧ jc_status entry = swept
         ∧ jc_webhookSent entry = Some true).
Proof.
  split.
  - destruct (webhook_single_attempt (H := demoLedger)
                (demoSweep 1000000 (Response 503)) "chg_01"
                (demo_charge_in demo_completed) demo_completed "5EEB")
      as [(c' & s' & Hr & Hn & Hg & _ & Hw & _) _];
      try (vm_compute; first [reflexivity | discriminate]).
    exists c', s'. by split_and!.
  - destruct (webhook_single_attempt (H := demoLedger)
                (demoSweep 1000000 (Response 200)) "chg_01"
                (demo_charge_in demo_completed) demo_completed "5EEB")
      as [(c' & s' & Hr & Hn & Hg & _ & Hw & Hfile) _];
      try (vm_compute; first [reflexivity | discriminate]).
    destruct (Hfile eq_refl)
      as ((file & entry & Hf & _ & _ & _ & Hin & _ & Hes & _ & Hew) & _).
    exists c', s'. split_and!; try done. by exists file, entry.
Defined.

(** ** Properties of the charges kept by every transition

    A property [P] of a stored charge (and of its key) that every
    assignment of the code keeps, that holds of a charge as created, and
    that survives the way through the file, holds in every reachable
    state. *)

Section LocalInvariant.
Context `{Ledger} (P : string → Charge → Prop).
Hypothesis P_status : ∀ k st c, P k c → P k (set_status st c).
Hypothesis P_completedAt : ∀ k t c, P k c → P k (set_completedAt (DateMs t) c).
Hypothesis P_swept : ∀ k t h c, P k c → P k (set_swept (DateMs t) h c).
Hypothesis P_webhookSent : ∀ k b c, P k c → P k (set_webhookSent b c).
Hypothesis P_payment : ∀ k tx n c,
  P k c → P k (push_payment tx (receivedRaw c + tx_amountRaw tx) n c).
Hypothesis P_created : ∀ c,
  receivedRaw c = 0 → transactions c = [] → status c = pending →
  completedAt c = None → sweptAt c = None → P (id c) c.
Hypothesis P_revive : ∀ k c, P k c → P (id c) (revive_charge (stringify_charge c)).

Local Abbreviation entries_ok := (Forall (λ kc : string * Charge, P kc.1 kc.2)).
Local Abbreviation inv := (charges_inv P).

Lemma inv_same s s' :
  charges s' = charges s → disk s' = disk s → inv s → inv s'.
Proof. unfold charges_inv. by intros -> ->. Qed.

Lemma inv_set_charges m s : entries_ok m → inv s → inv (set_charges m s).
Proof. unfold charges_inv. intros Hm [_ Hd]. by split. Qed.

Lemma inv_get k c s : inv s → jm_get k (charges s) = Some c → P k c.
Proof.
  intros [Hm _] Hget.
  apply (jm_get_Forall (λ kc, P kc.1 kc.2) k c _ Hm Hget).
Qed.

Lemma inv_update k c s : inv s → P k c → inv (set_charges (jm_set k c (charges s)) s).
Proof.
  intros Hs Hc. apply inv_set_charges; [|done].
  destruct Hs as [Hm _]. by apply jm_set_Forall.
Qed.

Lemma inv_emit e s : inv s → inv (emit e s).
Proof. by apply inv_same. Qed.

Lemma inv_persistState s : inv s → inv (persistState s).
Proof. by apply inv_same. Qed.

Lemma inv_unregister a s : inv s → inv (unregister a s).
Proof. by apply inv_same. Qed.

Lemma inv_persistStateNow now s : inv s → inv (persistStateNow now s).
Proof.
  unfold charges_inv. intros [Hm _]. split; [done|]. cbn.
  unfold jm_values. rewrite <- !list_fmap_compose. apply Forall_fmap.
  eapply Forall_impl; [exact Hm|]. intros [k c] Hkc. cbn in *. eauto.
Qed.

Lemma inv_saveTimer_fires now s : inv s → inv (saveTimer_fires now s).
Proof.
  unfold saveTimer_fires. destruct (saveDebounceTimer s); [|done].
  intros Hs. apply (inv_same (persistStateNow now s)); [done..|].
  by apply inv_persistStateNow.
Qed.

Lemma inv_callWebhook env k c hash amount s :
  inv s → P k c → inv (callWebhook env k c hash amount s).2.
Proof.
  intros Hs Hc. unfold callWebhook.
  repeat case_match; cbn [snd]; try done.
  apply (inv_same (persistStateNow (sw_later env)
           (set_charges (jm_set k (set_webhookSent true c) (charges s)) s)));
    [done..|].
  apply inv_persistStateNow, inv_update; auto.
Qed.

Lemma inv_sweepCharge env chargeId s :
  inv s → inv (sweepCharge env chargeId s).2.
Proof.
  intros Hs. unfold sweepCharge.
  destruct (jm_get chargeId (charges s)) as [c|] eqn:Hget; [|done].
  pose proof (inv_get _ _ _ Hs Hget) as Hc.
  destruct (bool_decide (status c = swept)); [done|].
  destruct (sw_receivePending env); [|by apply (inv_same s)].
  destruct (sw_balance env =? 0); [done|].
  destruct (send _ _ _) as [hash|]; [|by apply (inv_same s)].
  set (c1 := set_swept (DateMs (sw_now env)) hash c).
  set (s5 := emit _ (persistStateNow _ _)).
  assert (inv s5) as Hs5.
  { apply (inv_same (persistStateNow (sw_now env)
             (set_charges (jm_set chargeId c1 (charges s)) s))); [done..|].
    apply inv_persistStateNow, inv_update; [done|]. by apply P_swept. }
  destruct (_ && _); [|done].
  pose proof (inv_callWebhook env chargeId c1 hash (sw_balance env) s5 Hs5
                (P_swept _ _ _ _ Hc)) as Hw.
  destruct (callWebhook _ _ _ _ _ _) as [[u|m] s6]; cbn [snd] in *; [done|].
  by apply (inv_same s6).
Qed.

Lemma lookupByAddress_get a k c s :
  lookupByAddress a s = Some (k, c) → jm_get k (charges s) = Some c.
Proof.
  unfold lookupByAddress. destruct (addressToChargeId s !! a) as [i|]; [|done].
  destruct (truthy_string i); [|done].
  destruct (jm_get i (charges s)) as [c0|] eqn:Hget; [|done].
  by intros [= <- <-].
Qed.

Lemma inv_handlePayment_sync now payment s :
  inv s → inv (handlePayment_sync now payment s).1.
Proof.
  intros Hs. unfold handlePayment_sync.
  destruct (lookupByAddress (pe_to payment) s) as [[k c]|] eqn:Hl; [|done].
  pose proof (inv_get _ _ _ Hs (lookupByAddress_get _ _ _ _ Hl)) as Hc.
  set (tx := {| tx_hash := pe_hash payment |}).
  assert (P k (push_payment tx (receivedRaw c + pe_amount payment)
                 (rawToNano (receivedRaw c + pe_amount payment)) c)) as Hc1
    by apply (P_payment k tx _ c Hc).
  destruct (status c); try done; cbn [push_payment amountRaw];
    destruct (_ <=? _); cbn [fst].
  all: first
    [ apply inv_emit, inv_persistStateNow, inv_update;
        [by apply inv_emit, inv_update | by apply P_completedAt, P_status]
    | apply inv_emit, inv_persistState, inv_update;
        [by apply inv_emit, inv_update | by apply P_status] ].
Qed.

Lemma inv_expire_loop now entries s :
  entries_ok entries →
  entries_ok (expire_loop now entries s).1.1.1
  ∧ charges (expire_loop now entries s).1.1.2 = charges s
  ∧ disk (expire_loop now entries s).1.1.2 = disk s.
Proof.
  intros Hm. revert s. induction Hm as [|[k c] m Hkc Hm IH]; intros s; [done|].
  cbn [expire_loop]. destruct (is_due now c).
  - destruct (_ && _).
    + specialize (IH (emit (charge_expired (set_status expired c)) s)).
      destruct (expire_loop now m _) as [[[m' s'] sp] ch]. cbn in *.
      destruct IH as (? & ? & ?). split_and!; [|done..].
      constructor; [by apply P_status | done].
    + specialize (IH (unregister (address (set_status expired c))
                        (emit (charge_expired (set_status expired c)) s))).
      destruct (expire_loop now m _) as [[[m' s'] sp] ch]. cbn in *.
      destruct IH as (? & ? & ?). split_and!; [|done..].
      constructor; [by apply P_status | done].
  - specialize (IH s).
    destruct (expire_loop now m _) as [[[m' s'] sp] ch]. cbn in *.
    destruct IH as (? & ? & ?). split_and!; [|done..].
    by constructor.
Qed.

Lemma inv_checkExpiredCharges now s :
  inv s → inv (checkExpiredCharges now s).1.
Proof.
  intros Hs. unfold checkExpiredCharges.
  destruct (inv_expire_loop now (charges s) s (proj1 Hs)) as (Hm & Hc & Hd).
  destruct (expire_loop now (charges s) s) as [[[m' s'] sp] ch]. cbn in *.
  assert (inv (set_charges m' s')) as Hs'.
  { split; [done|]. cbn. rewrite Hd. apply Hs. }
  destruct ch; [|done]. by apply (inv_same (set_charges m' s')).
Qed.

Lemma inv_recover_pending k c pend s :
  inv s → P k c →
  inv (recover_pending k c pend s).2 ∧ P k (recover_pending k c pend s).1.
Proof.
  revert c s. induction pend as [|item rest IH]; intros c s Hs Hc; [done|].
  cbn [recover_pending]. destruct (ri_receive item).
  - apply IH.
    + eapply (inv_same (set_charges (jm_set k _ (charges s)) s)); [done..|].
      apply inv_update; [done|].
      by apply (P_payment k {| tx_hash := pb_hash (ri_block item);
                               tx_amountRaw := pb_amount (ri_block item) |}).
    + by apply (P_payment k {| tx_hash := pb_hash (ri_block item);
                               tx_amountRaw := pb_amount (ri_block item) |}).
  - apply IH; [|done]. by apply (inv_same s).
Qed.

Lemma inv_recover_charge env k c s :
  inv s → P k c → inv (recover_charge env k c s).1.
Proof.
  intros Hs Hc. unfold recover_charge.
  destruct (rc_pending env) as [|item rest] eqn:Hp; [done|].
  destruct (inv_recover_pending k c (item :: rest)
              (emit (recovery_found (id c) (length (item :: rest))) s))
    as [Hs1 Hc1]; [by apply (inv_same s) | done |].
  destruct (recover_pending _ _ _ _) as [c1 s1]. cbn [fst snd] in *.
  destruct (_ <=? _); [|destruct (_ <? _)]; cbn [fst].
  - eapply (inv_same (persistStateNow (rc_now env)
              (set_charges (jm_set k _ (charges s1)) s1))); [done..|].
    apply inv_persistStateNow, inv_update; [done|].
    by apply P_completedAt, P_status.
  - eapply (inv_same (set_charges (jm_set k _ (charges s1)) s1)); [done..|].
    apply inv_update; [done|]. by apply P_status.
  - done.
Qed.

Lemma inv_step s s' : step s s' → inv s → inv s'.
Proof.
  intros [now payment s0|env k s0|now s0|env k c s0 Hget Hact|msg s0] Hs.
  - by apply inv_handlePayment_sync.
  - by apply inv_sweepCharge.
  - by apply inv_checkExpiredCharges.
  - apply inv_recover_charge; [done|]. by apply (inv_get k c s0).
  - by apply inv_emit.
Qed.

Lemma inv_createCharge rnd now now' options s :
  inv s → inv (createCharge rnd now now' options s).2.
Proof.
  intros Hs. unfold createCharge. cbn [snd].
  eapply (inv_same (set_charges (jm_set _ _ (charges s)) s)); [done..|].
  apply inv_update; [done|].
  by apply (P_created {| id := generateChargeId rnd; receivedRaw := 0;
                         transactions := []; status := pending;
                         completedAt := None; sweptAt := None |}).
Qed.

Lemma inv_deleteCharge chargeId s : inv s → inv (deleteCharge chargeId s).2.
Proof.
  intros Hs. unfold deleteCharge.
  destruct (jm_get chargeId (charges s)) as [c|]; [|done].
  destruct (negb (deletable c)); [done|]. cbn [snd].
  eapply (inv_same (set_charges (jm_delete chargeId (charges s)) s)); [done..|].
  apply inv_set_charges; [|done]. apply jm_delete_Forall, Hs.
Qed.

Lemma inv_cleanupSweptCharges s : inv s → inv (cleanupSweptCharges s).2.
Proof.
  intros Hs. unfold cleanupSweptCharges. cbn [snd].
  destruct (bool_decide _); [|done].
  eapply (inv_same (set_charges (filter _ (charges s)) s)); [done..|].
  apply inv_set_charges; [|done]. apply Forall_filter_keep, Hs.
Qed.

Lemma entries_ok_register (l : list Charge) s :
  Forall (λ c, P (id c) c) l → entries_ok (charges s) →
  entries_ok (charges (foldl register_loaded s l)).
Proof.
  intros Hl. revert s. induction Hl as [|c l Hc Hl IH]; intros s Hs; [done|].
  cbn [foldl]. apply IH. cbn. by apply jm_set_Forall.
Qed.

Lemma disk_register (l : list Charge) s :
  disk (foldl register_loaded s l) = disk s.
Proof. revert s. induction l as [|c l IH]; intros s; [done|]. cbn. by rewrite IH. Qed.

Lemma inv_new_processor config s : inv s → inv (new_processor config (disk s)).
Proof.
  intros [_ Hd]. unfold new_processor.
  destruct (loadPersistedState (disk s)) as [persisted|] eqn:Hload.
  - split.
    + cbn. apply entries_ok_register; [done | constructor].
    + cbn. rewrite disk_register. cbn. by rewrite Hload.
  - split; [constructor|]. cbn. by rewrite Hload.
Qed.

Lemma inv_transition s s' : transition s s' → inv s → inv s'.
Proof.
  intros [s0 s1 Hstep|rnd now now' options s0|k s0|s0|now s0] Hs.
  - by apply (inv_step s0).
  - by apply inv_createCharge.
  - by apply inv_deleteCharge.
  - by apply inv_cleanupSweptCharges.
  - by apply inv_saveTimer_fires.
Qed.

Lemma inv_reachable s : reachable s → inv s.
Proof.
  induction 1 as [config|s s' _ IH Htr|config s _ IH].
  - split; [constructor | done].
  - by apply (inv_transition s).
  - by apply inv_new_processor.
Qed.

Lemma live_reachable s : live s → reachable s.
Proof.
  induction 1 as [config|s s' _ IH Htr]; [apply reach_fresh|].
  by apply (reach_next s).
Qed.

End LocalInvariant.

(** The completion time of a stored charge, when there is one, is a valid
    date in every reachable state: the webhook payload can always be
    built. *)
Lemma reachable_completedAt_valid `{Ledger} s k c :
  reachable s → getCharge k s = Some c → completedAt c ≠ Some InvalidDate.
Proof.
  intros Hs Hget.
  assert (charges_inv (λ _ c, completedAt c ≠ Some InvalidDate) s) as Hinv.
  { revert Hs. apply inv_reachable; try done.
    - by intros c0 _ _ _ ->.
    - intros _ c0 _. cbn. by destruct (completedAt c0) as [[t|]|]. }
  apply (inv_get (λ _ c, completedAt c ≠ Some InvalidDate) k c s Hinv Hget).
Qed.

(** ** Received amounts and recorded transactions *)

Lemma sumZ_app (l1 l2 : list Z) : sumZ (l1 ++ l2) = sumZ l1 + sumZ l2.
Proof.
  unfold sumZ. induction l1 as [|x l1 IH]; cbn [app foldr]; [done|].
  rewrite IH. lia.
Qed.

Lemma tx_total_push tx n r c :
  tx_total (push_payment tx r n c) = tx_total c + tx_amountRaw tx.
Proof.
  unfold tx_total. cbn [transactions push_payment].
  rewrite fmap_app, sumZ_app. cbn. lia.
Qed.

Lemma balanced_push tx n c :
  balanced c → balanced (push_payment tx (receivedRaw c + tx_amountRaw tx) n c).
Proof.
  unfold balanced. intros Hc. rewrite tx_total_push.
  cbn [receivedRaw push_payment]. by rewrite Hc.
Qed.

Lemma revive_stringify_amounts c :
  tx_amountRaw <$> transactions (revive_charge (stringify_charge c))
  = tx_amountRaw <$> transactions c.
Proof.
  cbn [transactions revive_charge stringify_charge jc_transactions].
  rewrite <- !list_fmap_compose. by apply list_fmap_ext.
Qed.

Lemma balanced_revive c :
  balanced c → balanced (revive_charge (stringify_charge c)).
Proof.
  unfold balanced, tx_total. rewrite revive_stringify_amounts. by intros <-.
Qed.

Lemma reachable_balanced `{Ledger} s : reachable s → store_balanced s.
Proof.
  apply (inv_reachable (λ _ c, balanced c)); try done.
  - intros _ tx n c. apply balanced_push.
  - intros c Hr Ht _ _ _. unfold balanced, tx_total. by rewrite Hr, Ht.
  - intros _ c. apply balanced_revive.
Qed.

Lemma handlePayment_sync_charges `{Ledger} now payment s k c :
  lookupByAddress (pe_to payment) s = Some (k, c) →
  is_active c = true →
  ∃ c', charges (handlePayment_sync now payment s).1 = jm_set k c' (charges s)
    ∧ transactions c' = transactions c ++ [tx_of_event payment]
    ∧ receivedRaw c' = receivedRaw c + pe_amount payment
    ∧ status c' =
        (if amountRaw c <=? receivedRaw c + pe_amount payment
         then completed else partial)
    ∧ address c' = address c
    ∧ accountIndex c' = accountIndex c.
Proof.
  intros Hl Hact. unfold handlePayment_sync. rewrite Hl.
  unfold is_active in Hact.
  destruct (status c) eqn:Hst; try discriminate;
    cbn [push_payment amountRaw]; destruct (_ <=? _); cbn [fst];
    eexists; cbn; rewrite jm_set_set; done.
Qed.

Lemma recover_pending_charge `{Ledger} k c pend s :
  ∃ txs, transactions (recover_pending k c pend s).1 = transactions c ++ txs
    ∧ tx_amountRaw <$> txs = (pb_amount ∘ ri_block) <$> received_items pend
    ∧ receivedRaw (recover_pending k c pend s).1
      = receivedRaw c + sumZ (tx_amountRaw <$> txs)
    ∧ status (recover_pending k c pend s).1 = status c
    ∧ amountRaw (recover_pending k c pend s).1 = amountRaw c
    ∧ id (recover_pending k c pend s).1 = id c.
Proof.
  revert c s. induction pend as [|item rest IH]; intros c s.
  - exists []. cbn. rewrite app_nil_r. split_and!; try done. lia.
  - cbn [recover_pending]. unfold received_items.
    destruct (ri_receive item) as [u|m] eqn:Hr.
    + rewrite filter_cons_True by (unfold received_ok; by rewrite Hr).
      fold (tx_of_item item).
      set (c1 := push_payment _ _ _ c). set (s1 := emit _ _).
      destruct (IH c1 s1) as (txs & Ht & Ha & Hrec & Hst & Ham & Hid).
      exists (tx_of_item item :: txs). rewrite Ht, Hrec, Hst, Ham, Hid.
      subst c1. cbn [transactions push_payment receivedRaw status amountRaw id].
      rewrite <- app_assoc, !fmap_cons. fold (received_items rest).
      rewrite <- Ha. split_and!; try done.
      unfold sumZ. cbn [foldr tx_of_item tx_amountRaw]. lia.
    + rewrite filter_cons_False by (unfold received_ok; by rewrite Hr).
      apply IH.
Qed.

(** C2. In every state a processor reaches from a start without a file,
    the received amount of each stored charge is the sum of the amounts of
    its recorded transactions.  A payment event applied to an active charge
    appends the one transaction of the event and adds its amount to the
    received amount; a recovery appends one transaction per pending block
    it could receive and adds their amounts. *)
Theorem received_matches_transactions `{Ledger} :
  (∀ s, reachable s →
     ∀ k c, getCharge k s = Some c → receivedRaw c = tx_total c)
  ∧ (∀ now payment s k c,
       lookupByAddress (pe_to payment) s = Some (k, c) →
       is_active c = true →
       ∃ c', getCharge k (handlePayment_sync now payment s).1 = Some c'
         ∧ transactions c' = transactions c ++ [tx_of_event payment]
         ∧ receivedRaw c' = receivedRaw c + tx_amountRaw (tx_of_event payment))
  ∧ (∀ k c pend s,
       ∃ txs,
         transactions (recover_pending k c pend s).1 = transactions c ++ txs
         ∧ tx_amountRaw <$> txs = (pb_amount ∘ ri_block) <$> received_items pend
         ∧ receivedRaw (recover_pending k c pend s).1
           = receivedRaw c + sumZ (tx_amountRaw <$> txs)).
Proof.
  split_and!.
  - intros s Hs k c Hget. apply reachable_balanced in Hs.
    apply (inv_get (λ _ c, balanced c) k c s Hs Hget).
  - intros now payment s k c Hl Hact.
    destruct (handlePayment_sync_charges now payment s k c Hl Hact)
      as (c' & Hc & Ht & Hr & _).
    exists c'. unfold getCharge. rewrite Hc, jm_get_set_eq. done.
  - intros k c pend s.
    destruct (recover_pending_charge k c pend s) as (txs & Ht & Ha & Hr & _).
    by exists txs.
Qed.

Lemma demo_swept_reachable : reachable (H := demoLedger) demo_swept.
Proof.
  unfold demo_swept, handlePayment.
  assert (reachable (H := demoLedger) demo_created) as Hc.
  { eapply reach_next; [apply (reach_fresh demoConfig)|]. apply tr_create. }
  assert (reachable (H := demoLedger)
            (handlePayment_sync (H := demoLedger) 2000 (demoPayment 1000000)
               demo_created).1) as Hp.
  { eapply reach_next; [exact Hc|]. apply tr_step, step_payment. }
  destruct (handlePayment_sync _ _ _) as [s1 [i|]]; [|exact Hp].
  eapply reach_next; [exact Hp|]. apply tr_step, step_sweep.
Qed.

Lemma received_matches_transactions_witness :
  receivedRaw (demo_charge_in demo_swept) = tx_total (demo_charge_in demo_swept)
  ∧ receivedRaw (demo_charge_in demo_swept) = 1000000.
Proof.
  split; [|vm_compute; reflexivity].
  destruct (received_matches_transactions (H := demoLedger)) as (Hinv & _ & _).
  apply (Hinv demo_swept demo_swept_reachable "chg_01").
  vm_compute. reflexivity.
Defined.

(** ** The status of a charge moves forward *)

Lemma code_edge_forward a b : code_edge a b = true → forward a b = true.
Proof. by destruct a, b. Qed.

Lemma forward_refl a : forward a a = true.
Proof. by destruct a. Qed.

Lemma forward_trans a b c :
  forward a b = true → forward b c = true → forward a c = true.
Proof. by destruct a, b, c. Qed.

Lemma code_edge_to_swept a : a ≠ swept → code_edge a swept = true.
Proof. by destruct a. Qed.

Lemma moves_refl edge m : moves edge m m.
Proof. intros k c Hget. exists c. by split; [|left]. Qed.

Lemma moves_set edge k c v m :
  jm_get k m = Some c →
  status v = status c ∨ edge (status c) (status v) = true →
  moves edge m (jm_set k v m).
Proof.
  intros Hget Hv k' c' Hget'. rewrite jm_get_set.
  destruct (decide (k = k')) as [<-|Hne].
  - exists v. split; [done|]. rewrite Hget in Hget'. by injection Hget' as <-.
  - exists c'. by split; [|left].
Qed.

Lemma callWebhook_charges `{Ledger} env k c hash amount s :
  charges (callWebhook env k c hash amount s).2 = charges s
  ∨ charges (callWebhook env k c hash amount s).2
    = jm_set k (set_webhookSent true c) (charges s).
Proof.
  unfold callWebhook. repeat case_match; cbn; auto.
Qed.

Lemma sweepCharge_moves `{Ledger} env chargeId s :
  moves code_edge (charges s) (charges (sweepCharge env chargeId s).2).
Proof.
  unfold sweepCharge.
  destruct (jm_get chargeId (charges s)) as [c|] eqn:Hget; [|apply moves_refl].
  destruct (bool_decide (status c = swept)) eqn:Hst; [apply moves_refl|].
  apply bool_decide_eq_false in Hst.
  destruct (sw_receivePending env); [|apply moves_refl].
  destruct (sw_balance env =? 0); [apply moves_refl|].
  destruct (send _ _ _) as [hash|]; [|apply moves_refl].
  set (c1 := set_swept (DateMs (sw_now env)) hash c).
  assert (∀ v, status v = swept →
            moves code_edge (charges s) (jm_set chargeId v (charges s))) as Hm.
  { intros v Hv. apply (moves_set _ _ c); [done|]. right.
    rewrite Hv. by apply code_edge_to_swept. }
  destruct (_ && _); [|by apply (Hm c1)].
  set (s5 := emit _ (persistStateNow _ _)).
  destruct (callWebhook_charges env chargeId c1 hash (sw_balance env) s5) as [Hc|Hc];
    destruct (callWebhook _ _ _ _ _ _) as [[u|m] s6]; cbn [snd] in *;
    cbn [charges emit]; rewrite Hc; subst s5; cbn; rewrite ?jm_set_set;
    by apply Hm.
Qed.

Lemma handlePayment_sync_moves `{Ledger} now payment s :
  moves code_edge (charges s) (charges (handlePayment_sync now payment s).1).
Proof.
  destruct (lookupByAddress (pe_to payment) s) as [[k c]|] eqn:Hl.
  2:{ unfold handlePayment_sync. rewrite Hl. apply moves_refl. }
  destruct (is_active c) eqn:Hact.
  - destruct (handlePayment_sync_charges now payment s k c Hl Hact)
      as (c' & -> & _ & _ & Hst & _).
    apply (moves_set _ _ c); [by eapply lookupByAddress_get|].
    rewrite Hst. unfold is_active in Hact.
    destruct (status c); try discriminate; destruct (_ <=? _); auto.
  - unfold handlePayment_sync. rewrite Hl. unfold is_active in Hact.
    destruct (status c); try discriminate; apply moves_refl.
Qed.

Lemma expire_loop_get `{Ledger} now entries s k c :
  jm_get k entries = Some c →
  jm_get k (expire_loop now entries s).1.1.1
  = Some (if is_due now c then set_status expired c else c).
Proof.
  revert s. induction entries as [|[k0 c0] m IH]; intros s; [done|].
  cbn [jm_get expire_loop]. intros Hget.
  destruct (is_due now c0) eqn:Hdue0; [destruct (_ && _)|].
  - specialize (IH (emit (charge_expired (set_status expired c0)) s)).
    destruct (expire_loop now m _) as [[[m' s'] sp] ch]. cbn in *.
    destruct (decide (k0 = k)); [injection Hget as <-; by rewrite Hdue0 | auto].
  - specialize (IH (unregister (address (set_status expired c0))
                      (emit (charge_expired (set_status expired c0)) s))).
    destruct (expire_loop now m _) as [[[m' s'] sp] ch]. cbn in *.
    destruct (decide (k0 = k)); [injection Hget as <-; by rewrite Hdue0 | auto].
  - specialize (IH s).
    destruct (expire_loop now m _) as [[[m' s'] sp] ch]. cbn in *.
    destruct (decide (k0 = k)); [injection Hget as <-; by rewrite Hdue0 | auto].
Qed.

Lemma checkExpiredCharges_get `{Ledger} now s k c :
  getCharge k s = Some c →
  getCharge k (checkExpiredCharges now s).1
  = Some (if is_due now c then set_status expired c else c).
Proof.
  unfold getCharge, checkExpiredCharges. intros Hget.
  pose proof (expire_loop_get now (charges s) s k c Hget) as He.
  destruct (expire_loop now (charges s) s) as [[[m' s'] sp] ch]. cbn in *.
  by destruct ch.
Qed.

Lemma checkExpiredCharges_moves `{Ledger} now s :
  moves code_edge (charges s) (charges (checkExpiredCharges now s).1).
Proof.
  intros k c Hget. eexists. split; [by apply checkExpiredCharges_get|].
  destruct (is_due now c) eqn:Hdue; [|by left]. right.
  unfold is_due, is_active in Hdue. cbn.
  destruct (status c); try discriminate; done.
Qed.

Lemma recover_pending_charges `{Ledger} k c pend s :
  charges (recover_pending k c pend s).2
  = match received_items pend with
    | [] => charges s
    | _ :: _ => jm_set k (recover_pending k c pend s).1 (charges s)
    end.
Proof.
  revert c s. induction pend as [|item rest IH]; intros c s; [done|].
  cbn [recover_pending]. unfold received_items.
  destruct (ri_receive item) as [u|m] eqn:Hr.
  - rewrite filter_cons_True by (unfold received_ok; by rewrite Hr).
    rewrite IH. fold (received_items rest).
    destruct (received_items rest) eqn:Hrest.
    + cbn. f_equal. clear IH.
      assert (∀ c s, (recover_pending k c rest s).1 = c) as Hsame.
      { clear -Hrest. induction rest as [|i r IHr]; intros c s; [done|].
        cbn [recover_pending]. unfold received_items in Hrest.
        destruct (ri_receive i) eqn:Hi.
        - rewrite filter_cons_True in Hrest by (unfold received_ok; by rewrite Hi).
          done.
        - rewrite filter_cons_False in Hrest by (unfold received_ok; by rewrite Hi).
          by apply IHr. }
      by rewrite Hsame.
    + cbn. by rewrite jm_set_set.
  - rewrite filter_cons_False by (unfold received_ok; by rewrite Hr).
    rewrite IH. by fold (received_items rest).
Qed.

Lemma recover_charge_moves `{Ledger} env k c s :
  getCharge k s = Some c → is_active c = true →
  moves code_edge (charges s) (charges (recover_charge env k c s).1).
Proof.
  unfold getCharge. intros Hget Hact. unfold recover_charge.
  destruct (rc_pending env) as [|item rest] eqn:Hp; [apply moves_refl|].
  set (s0 := emit _ s).
  pose proof (recover_pending_charges k c (item :: rest) s0) as Hch.
  destruct (recover_pending_charge k c (item :: rest) s0)
    as (txs & _ & _ & _ & Hst & _ & _).
  destruct (recover_pending k c (item :: rest) s0) as [c1 s1]. cbn [fst snd] in *.
  assert (∀ v, status v = status c ∨ code_edge (status c) (status v) = true →
            moves code_edge (charges s) (jm_set k v (charges s1))) as Hm.
  { intros v Hv. rewrite Hch. destruct (received_items _).
    - by apply (moves_set _ _ c).
    - rewrite jm_set_set. by apply (moves_set _ _ c). }
  unfold is_active in Hact.
  destruct (_ <=? _); [|destruct (_ <? _)]; cbn.
  - apply Hm. cbn. destruct (status c); try discriminate; auto.
  - apply Hm. cbn. destruct (status c); try discriminate; auto.
  - rewrite Hch. destruct (received_items _); [apply moves_refl|].
    apply (moves_set _ _ c); auto.
Qed.

Lemma step_moves `{Ledger} s s' :
  step s s' → moves code_edge (charges s) (charges s').
Proof.
  intros [now payment s0|env k s0|now s0|env k c s0 Hget Hact|msg s0].
  - apply handlePayment_sync_moves.
  - apply sweepCharge_moves.
  - apply checkExpiredCharges_moves.
  - by apply recover_charge_moves.
  - apply moves_refl.
Qed.

Lemma steps_forward `{Ledger} s s' :
  rtc step s s' →
  ∀ k c, getCharge k s = Some c →
    ∃ c', getCharge k s' = Some c' ∧ forward (status c) (status c') = true.
Proof.
  induction 1 as [s|s s1 s' Hstep _ IH]; intros k c Hget.
  - exists c. split; [done | apply forward_refl].
  - destruct (step_moves s s1 Hstep k c Hget) as (c1 & Hget1 & Hst).
    destruct (IH k c1 Hget1) as (c' & Hget' & Hfw).
    exists c'. split; [done|]. eapply forward_trans; [|exact Hfw].
    destruct Hst as [->|He]; [apply forward_refl | by apply code_edge_forward].
Qed.

(** ** The keys of the charge map stay distinct *)

Section DistinctKeys.
Context `{Ledger}.

Local Abbreviation distinct := (λ s : Processor, NoDup (jm_keys (charges s))).

Lemma distinct_update k c s :
  distinct s → distinct (set_charges (jm_set k c (charges s)) s).
Proof. apply jm_set_NoDup. Qed.

Lemma distinct_callWebhook env k c hash amount s :
  distinct s → distinct (callWebhook env k c hash amount s).2.
Proof.
  intros Hs.
  destruct (callWebhook_charges env k c hash amount s) as [->| ->]; [done|].
  by apply jm_set_NoDup.
Qed.

Lemma distinct_sweepCharge env chargeId s :
  distinct s → distinct (sweepCharge env chargeId s).2.
Proof.
  intros Hs. unfold sweepCharge.
  destruct (jm_get chargeId (charges s)) as [c|]; [|done].
  destruct (bool_decide _); [done|].
  destruct (sw_receivePending env); [|done].
  destruct (_ =? _); [done|].
  destruct (send _ _ _) as [hash|]; [|done].
  set (c1 := set_swept _ _ _). set (s5 := emit _ (persistStateNow _ _)).
  assert (distinct s5) as H5 by (subst s5; cbn; by apply jm_set_NoDup).
  destruct (_ && _); [|done].
  pose proof (distinct_callWebhook env chargeId c1 hash (sw_balance env) s5 H5) as Hw.
  by destruct (callWebhook _ _ _ _ _ _) as [[u|m] s6].
Qed.

Lemma distinct_handlePayment_sync now payment s :
  distinct s → distinct (handlePayment_sync now payment s).1.
Proof.
  intros Hs.
  destruct (lookupByAddress (pe_to payment) s) as [[k c]|] eqn:Hl.
  2:{ unfold handlePayment_sync. by rewrite Hl. }
  destruct (is_active c) eqn:Hact.
  - destruct (handlePayment_sync_charges now payment s k c Hl Hact) as (c' & -> & _).
    by apply jm_set_NoDup.
  - unfold handlePayment_sync. rewrite Hl. unfold is_active in Hact.
    by destruct (status c).
Qed.

Lemma expire_loop_keys now entries s :
  jm_keys (expire_loop now entries s).1.1.1 = jm_keys entries.
Proof.
  unfold jm_keys. revert s. induction entries as [|[k c] m IH]; intros s; [done|].
  cbn [expire_loop]. destruct (is_due now c); [destruct (_ && _)|].
  - specialize (IH (emit (charge_expired (set_status expired c)) s)).
    destruct (expire_loop now m _) as [[[m' s'] sp] ch]. cbn [fst] in *.
    by rewrite !fmap_cons, IH.
  - specialize (IH (unregister (address (set_status expired c))
                      (emit (charge_expired (set_status expired c)) s))).
    destruct (expire_loop now m _) as [[[m' s'] sp] ch]. cbn [fst] in *.
    by rewrite !fmap_cons, IH.
  - specialize (IH s).
    destruct (expire_loop now m _) as [[[m' s'] sp] ch]. cbn [fst] in *.
    by rewrite !fmap_cons, IH.
Qed.

Lemma distinct_checkExpiredCharges now s :
  distinct s → distinct (checkExpiredCharges now s).1.
Proof.
  intros Hs. unfold checkExpiredCharges.
  pose proof (expire_loop_keys now (charges s) s) as Hk.
  destruct (expire_loop now (charges s) s) as [[[m' s'] sp] ch]. cbn [fst] in *.
  assert (NoDup (jm_keys m')) as Hm by by rewrite Hk.
  by destruct ch.
Qed.

Lemma distinct_recover_charge env k c s :
  distinct s → distinct (recover_charge env k c s).1.
Proof.
  intros Hs. unfold recover_charge.
  destruct (rc_pending env) as [|item rest]; [done|].
  set (s0 := emit _ s).
  pose proof (recover_pending_charges k c (item :: rest) s0) as Hch.
  destruct (recover_pending k c (item :: rest) s0) as [c1 s1]. cbn [fst snd] in *.
  assert (distinct s1) as H1.
  { rewrite Hch. destruct (received_items _); [done|]. by apply jm_set_NoDup. }
  destruct (_ <=? _); [|destruct (_ <? _)]; cbn; try done; by apply jm_set_NoDup.
Qed.

Lemma distinct_register (l : list Charge) s :
  distinct s → distinct (foldl register_loaded s l).
Proof.
  revert s. induction l as [|c l IH]; intros s Hs; [done|].
  cbn [foldl]. apply IH. cbn. by apply jm_set_NoDup.
Qed.

Lemma distinct_transition s s' : transition s s' → distinct s → distinct s'.
Proof.
  intros [s0 s1 Hstep|rnd now now' options s0|k s0|s0|now s0] Hs.
  - destruct Hstep as [now payment s0|env k s0|now s0|env k c s0 Hget Hact|msg s0].
    + by apply distinct_handlePayment_sync.
    + by apply distinct_sweepCharge.
    + by apply distinct_checkExpiredCharges.
    + by apply distinct_recover_charge.
    + done.
  - cbn. by apply jm_set_NoDup.
  - unfold deleteCharge. destruct (jm_get k (charges s0)) as [c|]; [|done].
    destruct (negb _); [done|]. cbn. by apply jm_delete_NoDup.
  - unfold cleanupSweptCharges. cbn [snd]. destruct (bool_decide _); [|done].
    cbn. by apply NoDup_filter_keys.
  - unfold saveTimer_fires. by destruct (saveDebounceTimer s0).
Qed.

Lemma distinct_new_processor config file : distinct (new_processor config file).
Proof.
  unfold new_processor. destruct (loadPersistedState file); cbn.
  - apply distinct_register. cbn. apply NoDup_nil_2.
  - apply NoDup_nil_2.
Qed.

End DistinctKeys.

(** In every reachable state the charge map is keyed by the ids of its
    charges, each key once. *)
Lemma reachable_wf `{Ledger} s : reachable s → wf_store s ∧ keyed_by_id s.
Proof.
  intros Hs.
  assert (keyed_by_id s) as Hk
    by (revert Hs; apply (inv_reachable (λ k c, k = id c)); done).
  split; [|done]. split; [|apply Hk]. clear Hk.
  induction Hs as [config|s s' _ IH Htr|config s _ _].
  - apply NoDup_nil_2.
  - by apply (distinct_transition s).
  - apply distinct_new_processor.
Qed.

(** ** The operations are sequences of pieces *)

Lemma foldl_steps `{Ledger} {A} (f : Processor → A → Processor) (l : list A) s :
  (∀ s a, rtc step s (f s a)) → rtc step s (foldl f s l).
Proof.
  intros Hf. revert s. induction l as [|a l IH]; intros s; [apply rtc_refl|].
  cbn. eapply rtc_trans; [apply Hf | apply IH].
Qed.

Lemma sweep_reported_steps `{Ledger} envs s chargeId :
  rtc step s (sweep_reported envs s chargeId).
Proof.
  unfold sweep_reported.
  pose proof (step_sweep (envs chargeId) chargeId s) as Hs.
  destruct (sweepCharge _ _ _) as [[r|m] s1]; cbn [snd] in Hs.
  - by apply rtc_once.
  - eapply rtc_l; [exact Hs|]. apply rtc_once, step_report.
Qed.

Lemma handlePayment_steps `{Ledger} env now payment s :
  rtc step s (handlePayment env now payment s).
Proof.
  unfold handlePayment.
  pose proof (step_payment now payment s) as Hp.
  destruct (handlePayment_sync _ _ _) as [s1 [i|]]; cbn [fst] in Hp.
  - eapply rtc_l; [exact Hp|]. apply rtc_once, step_sweep.
  - by apply rtc_once.
Qed.

Lemma expiry_pass_steps `{Ledger} envs now s :
  rtc step s (expiry_pass envs now s).
Proof.
  unfold expiry_pass.
  pose proof (step_expiry now s) as He.
  destruct (checkExpiredCharges now s) as [s1 spawned]; cbn [fst] in He.
  eapply rtc_l; [exact He|]. apply foldl_steps. intros. apply sweep_reported_steps.
Qed.

Lemma keyed_steps `{Ledger} s s' : rtc step s s' → keyed_by_id s → keyed_by_id s'.
Proof.
  induction 1 as [|s s1 s' Hstep _ IH]; [done|]. intros Hs. apply IH.
  revert Hs. apply (inv_step (λ k c, k = id c)); try done.
Qed.

Lemma callWebhook_other `{Ledger} env k k' c hash amount s :
  k ≠ k' →
  jm_get k' (charges (callWebhook env k c hash amount s).2) = jm_get k' (charges s).
Proof.
  intros Hne.
  destruct (callWebhook_charges env k c hash amount s) as [->| ->]; [done|].
  by apply jm_get_set_ne.
Qed.

Lemma sweepCharge_other `{Ledger} env chargeId k' s :
  chargeId ≠ k' →
  getCharge k' (sweepCharge env chargeId s).2 = getCharge k' s.
Proof.
  intros Hne. unfold getCharge, sweepCharge.
  destruct (jm_get chargeId (charges s)) as [c|]; [|done].
  destruct (bool_decide _); [done|].
  destruct (sw_receivePending env); [|done].
  destruct (_ =? _); [done|].
  destruct (send _ _ _) as [hash|]; [|done].
  set (c1 := set_swept _ _ _). set (s5 := emit _ (persistStateNow _ _)).
  assert (jm_get k' (charges s5) = jm_get k' (charges s)) as H5
    by (subst s5; cbn; by apply jm_get_set_ne).
  destruct (_ && _); [|done].
  pose proof (callWebhook_other env chargeId k' c1 hash (sw_balance env) s5 Hne) as Hw.
  destruct (callWebhook _ _ _ _ _ _) as [[u|m] s6]; cbn [snd] in *;
    cbn [charges emit]; by rewrite Hw.
Qed.

Lemma recover_charge_other `{Ledger} env k k' c s :
  k ≠ k' →
  getCharge k' (recover_charge env k c s).1 = getCharge k' s.
Proof.
  intros Hne. unfold getCharge, recover_charge.
  destruct (rc_pending env) as [|item rest]; [done|].
  set (s0 := emit _ s).
  pose proof (recover_pending_charges k c (item :: rest) s0) as Hch.
  destruct (recover_pending k c (item :: rest) s0) as [c1 s1]. cbn [fst snd] in *.
  assert (jm_get k' (charges s1) = jm_get k' (charges s)) as H1.
  { rewrite Hch. destruct (received_items _); [done|]. by apply jm_get_set_ne. }
  destruct (_ <=? _); [|destruct (_ <? _)]; cbn; rewrite ?jm_get_set_ne; done.
Qed.

Lemma recover_charge_target `{Ledger} env k c s i :
  (recover_charge env k c s).2 = Some i → i = id c.
Proof.
  unfold recover_charge.
  destruct (rc_pending env) as [|item rest]; [done|].
  set (s0 := emit _ s).
  destruct (recover_pending_charge k c (item :: rest) s0)
    as (txs & _ & _ & _ & _ & _ & Hid).
  destruct (recover_pending k c (item :: rest) s0) as [c1 s1]. cbn [fst snd] in *.
  destruct (_ <=? _); [|destruct (_ <? _)]; cbn; try done.
  destruct (autoSweep s); [|done]. by intros [= <-].
Qed.

Lemma recover_turn_steps `{Ledger} envs s k :
  (∀ c, getCharge k s = Some c → is_active c = true) →
  rtc step s (recover_turn envs s k).
Proof.
  intros Hact. unfold recover_turn.
  destruct (jm_get k (charges s)) as [c|] eqn:Hget; [|apply rtc_refl].
  pose proof (step_recover (envs k) k c s Hget (Hact c Hget)) as Hr.
  destruct (recover_charge _ _ _ _) as [s1 [i|]]; cbn [fst] in Hr.
  - eapply rtc_l; [exact Hr|].
    pose proof (step_sweep (rc_sweep (envs k)) i s1) as Hs.
    destruct (sweepCharge _ _ _) as [[r|m] s2]; cbn [snd] in Hs.
    + by apply rtc_once.
    + eapply rtc_l; [exact Hs|]. apply rtc_once, step_report.
  - by apply rtc_once.
Qed.

Lemma recover_turn_other `{Ledger} envs s k k' :
  keyed_by_id s → k ≠ k' →
  getCharge k' (recover_turn envs s k) = getCharge k' s.
Proof.
  intros Hkeyed Hne. unfold recover_turn.
  destruct (jm_get k (charges s)) as [c|] eqn:Hget; [|done].
  pose proof (inv_get (λ k c, k = id c) k c s Hkeyed Hget) as Hk. cbn in Hk.
  pose proof (recover_charge_other (envs k) k k' c s Hne) as Hr.
  pose proof (recover_charge_target (envs k) k c s) as Ht.
  destruct (recover_charge _ _ _ _) as [s1 [i|]]; cbn [fst snd] in *; [|done].
  rewrite (Ht i eq_refl), <- Hk.
  pose proof (sweepCharge_other (rc_sweep (envs k)) k k' s1 Hne) as Hs.
  destruct (sweepCharge _ _ _) as [[r|m] s2]; cbn [snd] in *; by rewrite <- Hr.
Qed.

(** The recovery scan is a sequence of pieces: when its turn comes, each
    charge listed at the start is still the active charge it was. *)
Lemma checkMissedPayments_steps `{Ledger} envs s :
  keyed_by_id s → NoDup (jm_keys (charges s)) →
  rtc step s (checkMissedPayments envs s).
Proof.
  intros Hkeyed Hnd. unfold checkMissedPayments.
  assert (NoDup (active_keys s)) as Hnd' by by apply NoDup_filter_keys.
  assert (∀ k, k ∈ active_keys s →
            ∀ c, getCharge k s = Some c → is_active c = true) as Hact.
  { intros k Hin c Hget. unfold active_keys in Hin.
    apply list_elem_of_fmap in Hin as ([k1 c1] & -> & Hin).
    apply list_elem_of_filter in Hin as [Hc1 Hin]. cbn in *.
    unfold getCharge in Hget. rewrite (jm_elem_get _ _ _ Hnd Hin) in Hget.
    by injection Hget as <-. }
  clear Hnd. revert Hnd' Hact. generalize (active_keys s). intros l Hnd'.
  revert s Hkeyed.
  induction Hnd' as [|k l Hk Hl IH]; intros s Hkeyed Hact; [apply rtc_refl|].
  cbn [foldl].
  assert (rtc step s (recover_turn envs s k)) as Hturn.
  { apply recover_turn_steps. apply Hact, list_elem_of_here. }
  eapply rtc_trans; [exact Hturn|]. apply IH.
  - by apply (keyed_steps s).
  - intros k' Hin c. rewrite recover_turn_other; [|done|by intros ->].
    by apply Hact, list_elem_of_further.
Qed.

(** The recovery of a charge assigns its status without reading it.  The
    scan taken alone only reaches charges that are still active
    ([checkMissedPayments_steps]); on a charge swept in the meantime the
    same piece would mark it completed again. *)
Remark recover_charge_reads_no_status :
  status (demo_charge_in demo_swept) = swept
  ∧ status (demo_charge_in
              (recover_charge (H := demoLedger) demoRecovery "chg_01"
                 (demo_charge_in demo_swept) demo_swept).1) = completed.
Proof. split; vm_compute; reflexivity. Qed.

(** C1 (as the code has it).  Take the pieces of payment application,
    expiry check, sweep and recovery in any order.  Every stored charge
    stays stored, and its status only moves forward: a swept charge stays
    swept, a completed or expired one can only become swept, a partial one
    never becomes pending again.  In one piece the status stays or moves
    along one edge of the graph of the life cycle extended by the sweep of
    a charge that is still pending or partial. *)
Theorem status_moves_forward `{Ledger} (s s' : Processor) (k : string)
    (c : Charge) :
  rtc step s s' →
  getCharge k s = Some c →
  ∃ c', getCharge k s' = Some c'
    ∧ forward (status c) (status c') = true
    ∧ (status c = swept → status c' = swept)
    ∧ (status c = completed ∨ status c = expired →
       status c' = status c ∨ status c' = swept)
    ∧ (step s s' →
       status c' = status c ∨ code_edge (status c) (status c') = true).
Proof.
  intros Hsteps Hget.
  destruct (steps_forward s s' Hsteps k c Hget) as (c' & Hget' & Hfw).
  exists c'. split_and!; try done.
  - intros Hc. rewrite Hc in Hfw. by destruct (status c').
  - intros [Hc|Hc]; rewrite Hc in *; destruct (status c'); auto; discriminate.
  - intros Hstep.
    destruct (step_moves s s' Hstep k c Hget) as (c1 & Hget1 & Hst).
    unfold getCharge in *. rewrite Hget' in Hget1. by injection Hget1 as <-.
Qed.

Lemma status_moves_forward_witness :
  ∃ c', getCharge "chg_01" demo_swept = Some c'
    ∧ forward pending (status c') = true.
Proof.
  destruct (status_moves_forward (H := demoLedger) demo_created demo_swept
              "chg_01" (demo_charge_in demo_created))
    as (c' & Hget & Hfw & _).
  - unfold demo_swept, handlePayment.
    eapply rtc_l; [apply (step_payment 2000 (demoPayment 1000000))|].
    destruct (handlePayment_sync _ _ _) as [s1 [i|]]; cbn [fst].
    + apply rtc_once, step_sweep.
    + apply rtc_refl.
  - vm_compute. reflexivity.
  - exists c'. by split.
Defined.

(** C1 as stated fails: a sweep by hand of a charge that is still pending
    (its funds are on the sub-account, the payment event was missed) moves
    its status from pending to swept in one step, which is no transition
    of the life cycle as the claim lists them. *)
Lemma status_moves_forward_counterexample :
  step (H := demoLedger) demo_created demo_manual_sweep
  ∧ status (demo_charge_in demo_created) = pending
  ∧ status (demo_charge_in demo_manual_sweep) = swept
  ∧ spec_edge pending swept = false
  ∧ ¬ (∀ (s s' : Processor), step (H := demoLedger) s s' →
         moves spec_edge (charges s) (charges s')).
Proof.
  assert (step (H := demoLedger) demo_created demo_manual_sweep) as Hstep
    by apply (step_sweep (demoSweep 1000000 (Response 200)) "chg_01" demo_created).
  split_and!; [done | vm_compute; reflexivity.. |].
  intros Hall.
  destruct (Hall demo_created demo_manual_sweep Hstep
              "chg_01" (demo_charge_in demo_created))
    as (c' & Hget & Hst).
  - vm_compute. reflexivity.
  - assert (c' = demo_charge_in demo_manual_sweep) as ->.
    { apply (inj Some). rewrite <- Hget. vm_compute. reflexivity. }
    vm_compute in Hst. destruct Hst; discriminate.
Qed.

(** ** The persisted snapshot *)

Lemma Date_of_toJSON d : is_valid d = true → Date_of (Date_toJSON d) = d.
Proof. by destruct d. Qed.

Lemma Date_of_opt_toJSON o :
  is_valid_opt o = true → Date_of_opt (Date_toJSON <$> o) = o.
Proof. by destruct o as [[t|]|]. Qed.

Lemma revive_stringify_tx t :
  is_valid (tx_timestamp t) = true → revive_tx (stringify_tx t) = t.
Proof.
  destruct t as [h f a n d]. unfold revive_tx, stringify_tx. cbn.
  intros Hd. by rewrite Date_of_toJSON.
Qed.

Lemma revive_stringify_txs l :
  forallb (λ t, is_valid (tx_timestamp t)) l = true →
  revive_tx <$> (stringify_tx <$> l) = l.
Proof.
  induction l as [|t l IH]; [done|]. cbn [forallb].
  rewrite andb_true_iff. intros [Ht Hl].
  by rewrite !fmap_cons, revive_stringify_tx, IH.
Qed.

Lemma revive_stringify_charge c :
  valid_dates c = true → revive_charge (stringify_charge c) = c.
Proof.
  unfold valid_dates. rewrite !andb_true_iff.
  intros [[[[Hc He] Hco] Hsw] Htx].
  destruct c. unfold revive_charge, stringify_charge. cbn in *.
  by rewrite !Date_of_toJSON, !Date_of_opt_toJSON, revive_stringify_txs.
Qed.

Lemma revive_stringify_charges (l : list Charge) :
  Forall (λ c, valid_dates c = true) l →
  revive_charge <$> (stringify_charge <$> l) = l.
Proof.
  induction 1 as [|c l Hc Hl IH]; [done|].
  by rewrite !fmap_cons, revive_stringify_charge, IH.
Qed.

Lemma load_save (state : PersistedState) :
  Forall (λ c, valid_dates c = true) (ps_charges state) →
  loadPersistedState (savePersistedState state) = Some state.
Proof.
  intros Hv. destruct state as [n l u]. unfold loadPersistedState, savePersistedState.
  cbn in *. by rewrite revive_stringify_charges.
Qed.

Lemma register_loaded_all (l : list Charge) s :
  NoDup (jm_keys (charges s) ++ (id <$> l)) →
  charges (foldl register_loaded s l) = charges s ++ ((λ c, (id c, c)) <$> l)
  ∧ nextAccountIndex (foldl register_loaded s l) = nextAccountIndex s.
Proof.
  revert s. induction l as [|c l IH]; intros s Hnd.
  - by rewrite app_nil_r.
  - cbn [foldl]. rewrite fmap_cons in Hnd.
    assert (jm_get (id c) (charges s) = None) as Hfresh.
    { apply jm_get_None_keys. apply NoDup_app in Hnd as (_ & Hdis & _).
      intros Hin. apply (Hdis _ Hin), list_elem_of_here. }
    destruct (IH (register_loaded s c)) as [Hc Hn].
    { cbn [charges register_loaded set_index set_charges].
      rewrite jm_keys_set, decide_False by (by apply jm_get_None_keys).
      by rewrite <- app_assoc. }
    rewrite Hc, Hn.
    cbn [charges nextAccountIndex register_loaded set_index set_charges].
    rewrite jm_set_absent by done. rewrite fmap_cons.
    by rewrite <- app_assoc.
Qed.

Lemma keyed_values (m : list (string * Charge)) :
  Forall (λ kc, kc.1 = id kc.2) m →
  (λ c, (id c, c)) <$> jm_values m = m ∧ id <$> jm_values m = jm_keys m.
Proof.
  unfold jm_values, jm_keys. induction 1 as [|[k c] m Hk Hm [IH1 IH2]]; [done|].
  cbn in Hk. subst k. by rewrite !fmap_cons, IH1, IH2.
Qed.

(** C8 (as the code has it).  When every time stamp of every charge is a
    valid date, the load of a save gives back the state that was saved:
    the same charges in the same order with all their fields, the same
    next sub-account index and the same time of the save.  A processor
    constructed on that file holds the charge map of the processor that
    saved it and allocates from the same index. *)
Theorem snapshot_roundtrip (config : ProcessorConfig) (now : Z) (s : Processor) :
  Forall (λ kc, valid_dates kc.2 = true) (charges s) →
  loadPersistedState (disk (persistStateNow now s)) = Some (current_state now s)
  ∧ (wf_store s →
     charges (new_processor config (disk (persistStateNow now s))) = charges s
     ∧ nextAccountIndex (new_processor config (disk (persistStateNow now s)))
       = nextAccountIndex s).
Proof.
  intros Hv.
  assert (loadPersistedState (disk (persistStateNow now s))
          = Some (current_state now s)) as Hload.
  { cbn [disk persistStateNow set_disk]. apply load_save. cbn.
    unfold jm_values. apply Forall_fmap. exact Hv. }
  split; [done|]. intros [Hnd Hkeyed]. unfold new_processor. rewrite Hload.
  destruct (keyed_values _ Hkeyed) as [Hvals Hids].
  cbn [ps_charges ps_nextAccountIndex current_state charges emit nextAccountIndex].
  match goal with |- context [foldl register_loaded ?s0 ?l] =>
    destruct (register_loaded_all l s0) as [Hc Hn] end.
  { cbn. by rewrite Hids. }
  rewrite Hc, Hn. cbn. by rewrite Hvals.
Qed.

Lemma snapshot_roundtrip_witness :
  loadPersistedState (disk (persistStateNow 5000 demo_swept))
  = Some (current_state 5000 demo_swept)
  ∧ charges (new_processor demoConfig (disk (persistStateNow 5000 demo_swept)))
    = charges demo_swept.
Proof.
  destruct (snapshot_roundtrip demoConfig 5000 demo_swept) as [Hload Hnew].
  - vm_compute. repeat constructor.
  - split; [exact Hload|]. apply Hnew.
    apply (reachable_wf (H := demoLedger)), demo_swept_reachable.
Defined.

(** C8 as stated fails: the Invalid Date is written as [null] and read
    back as the epoch, so the deadline of a charge created with a time-out
    beyond the range of dates is not what was saved. *)
Lemma snapshot_roundtrip_counterexample :
  expiresAt <$> listCharges None demo_far = [InvalidDate]
  ∧ expiresAt <$> listCharges None
      (new_processor demoConfig (disk (persistStateNow 2000 demo_far)))
    = [DateMs 0]
  ∧ ¬ (∀ state : PersistedState,
         loadPersistedState (savePersistedState state) = Some state).
Proof.
  split_and!; [vm_compute; reflexivity..|].
  intros Hall. specialize (Hall (current_state 2000 demo_far)).
  vm_compute in Hall. discriminate Hall.
Qed.

(** ** Sub-accounts and addresses *)

(** The cache of the wallet is transparent: [deriveAccount] returns the
    derived address and keeps the cache coherent. *)
Lemma deriveAccount_address `{Ledger} (index : Z) (accounts : gmap Z Account) :
  cache_coherent accounts →
  (deriveAccount index accounts).1 = deriveAddress index
  ∧ cache_coherent (deriveAccount index accounts).2.
Proof.
  intros Hc. unfold deriveAccount, deriveAddress.
  destruct (accounts !! index) as [a|] eqn:Ha; cbn.
  - by rewrite (Hc index a Ha).
  - split; [done|]. intros i a. rewrite lookup_insert.
    case_decide as Hi; [|by apply Hc]. subst i. intros [= <-].
    by destruct (nanoAccounts index).
Qed.







Lemma demo_deriveAddress_inj i j :
  deriveAddress (H := demoLedger) i = deriveAddress (H := demoLedger) j → i = j.
Proof.
  unfold deriveAddress. cbn. intros [= Heq]. by apply (inj pretty).
Qed.


(** ** The address index while a processor runs *)

Section LiveIndex.
Context `{Ledger}.

Lemma origin_same s s' :
  charges s' = charges s → origin s s'.
Proof.
  intros Hc k c'. unfold getCharge. rewrite Hc. intros Hget.
  exists c'. split_and!; auto.
Qed.

Lemma origin_set k c v s s' :
  getCharge k s = Some c →
  charges s' = jm_set k v (charges s) →
  address v = address c →
  accountIndex v = accountIndex c →
  (status v = swept →
   status c = swept ∨ addressToChargeId s' !! address v = None) →
  origin s s'.
Proof.
  unfold getCharge. intros Hget Hc Ha Hi Hst k' c'. unfold getCharge.
  rewrite Hc, jm_get_set. destruct (decide (k = k')) as [<-|Hne].
  - intros [= <-]. by exists c.
  - intros Hget'. exists c'. split_and!; auto.
Qed.

Lemma callWebhook_frame env k c hash amount s :
  addressToChargeId (callWebhook env k c hash amount s).2 = addressToChargeId s
  ∧ nextAccountIndex (callWebhook env k c hash amount s).2 = nextAccountIndex s.
Proof. unfold callWebhook. by repeat case_match. Qed.

Lemma sweepCharge_shape env k s :
  nextAccountIndex (sweepCharge env k s).2 = nextAccountIndex s
  ∧ ((charges (sweepCharge env k s).2 = charges s
      ∧ addressToChargeId (sweepCharge env k s).2 = addressToChargeId s)
     ∨ ∃ c v, getCharge k s = Some c
         ∧ charges (sweepCharge env k s).2 = jm_set k v (charges s)
         ∧ address v = address c
         ∧ accountIndex v = accountIndex c
         ∧ addressToChargeId (sweepCharge env k s).2
           = delete (address c) (addressToChargeId s)).
Proof.
  unfold getCharge, sweepCharge.
  destruct (jm_get k (charges s)) as [c|] eqn:Hget; [|by split; [|left]].
  destruct (bool_decide _); [by split; [|left]|].
  destruct (sw_receivePending env); [|by split; [|left]].
  destruct (_ =? _); [by split; [|left]|].
  destruct (send _ _ _) as [hash|]; [|by split; [|left]].
  set (c1 := set_swept _ _ _). set (s5 := emit _ (persistStateNow _ _)).
  destruct (_ && _).
  - destruct (callWebhook_frame env k c1 hash (sw_balance env) s5) as [Hix Hn].
    destruct (callWebhook_charges env k c1 hash (sw_balance env) s5) as [Hc|Hc];
      destruct (callWebhook _ _ _ _ _ _) as [[u|m] s6]; cbn [snd] in *;
      (split; [by rewrite ?Hn|]); right;
      cbn [charges emit addressToChargeId]; rewrite Hc, Hix; subst s5; cbn;
      rewrite ?jm_set_set; by eexists c, _.
  - split; [done|]. right. by exists c, c1.
Qed.

Lemma handlePayment_sync_frame now payment s :
  addressToChargeId (handlePayment_sync now payment s).1 = addressToChargeId s
  ∧ nextAccountIndex (handlePayment_sync now payment s).1 = nextAccountIndex s.
Proof. unfold handlePayment_sync. by repeat case_match. Qed.

Lemma expire_loop_frame now entries s :
  nextAccountIndex (expire_loop now entries s).1.1.2 = nextAccountIndex s
  ∧ index_shrinks s (expire_loop now entries s).1.1.2.
Proof.
  revert s. induction entries as [|[k c] m IH]; intros s;
    [by split; [|intros a Ha]|].
  cbn [expire_loop]. destruct (is_due now c); [destruct (_ && _)|].
  - specialize (IH (emit (charge_expired (set_status expired c)) s)).
    by destruct (expire_loop now m _) as [[[m' s'] sp] ch].
  - specialize (IH (unregister (address (set_status expired c))
                      (emit (charge_expired (set_status expired c)) s))).
    destruct (expire_loop now m _) as [[[m' s'] sp] ch]. cbn [fst snd] in *.
    destruct IH as [Hn Hix]. split; [done|]. intros a Ha. apply Hix. cbn.
    rewrite lookup_delete. by case_decide.
  - specialize (IH s).
    by destruct (expire_loop now m _) as [[[m' s'] sp] ch].
Qed.

Lemma recover_pending_frame k c pend s :
  addressToChargeId (recover_pending k c pend s).2 = addressToChargeId s
  ∧ nextAccountIndex (recover_pending k c pend s).2 = nextAccountIndex s
  ∧ address (recover_pending k c pend s).1 = address c
  ∧ accountIndex (recover_pending k c pend s).1 = accountIndex c.
Proof.
  revert c s. induction pend as [|item rest IH]; intros c s; [done|].
  cbn [recover_pending]. destruct (ri_receive item).
  - edestruct IH as (-> & -> & -> & ->). done.
  - edestruct IH as (-> & -> & -> & ->). done.
Qed.

Lemma recover_charge_shape env k c s :
  addressToChargeId (recover_charge env k c s).1 = addressToChargeId s
  ∧ nextAccountIndex (recover_charge env k c s).1 = nextAccountIndex s
  ∧ (charges (recover_charge env k c s).1 = charges s
     ∨ ∃ v, charges (recover_charge env k c s).1 = jm_set k v (charges s)
         ∧ address v = address c
         ∧ accountIndex v = accountIndex c
         ∧ (status v = swept → status c = swept)).
Proof.
  unfold recover_charge.
  destruct (rc_pending env) as [|item rest]; [by split_and!; [..|left]|].
  set (s0 := emit _ s).
  pose proof (recover_pending_charges k c (item :: rest) s0) as Hch.
  destruct (recover_pending_frame k c (item :: rest) s0) as (Hix & Hn & Ha & Hi).
  destruct (recover_pending_charge k c (item :: rest) s0)
    as (txs & _ & _ & _ & Hst & _).
  destruct (recover_pending k c (item :: rest) s0) as [c1 s1]. cbn [fst snd] in *.
  subst s0. cbn [charges addressToChargeId nextAccountIndex emit] in *.
  destruct (_ <=? _); [|destruct (_ <? _)]; cbn; rewrite ?Hix, ?Hn;
    (split_and!; try done).
  - right. exists (set_completedAt (DateMs (rc_now env)) (set_status completed c1)).
    split_and!; [|exact Ha|exact Hi|done].
    rewrite Hch. destruct (received_items _); [done | by rewrite jm_set_set].
  - right. exists (set_status partial c1).
    split_and!; [|exact Ha|exact Hi|done].
    rewrite Hch. destruct (received_items _); [done | by rewrite jm_set_set].
  - rewrite Hch. destruct (received_items _); [by left|]. right.
    exists c1. split_and!; [done..|]. by rewrite Hst.
Qed.

Lemma step_next s s' : step s s' → nextAccountIndex s' = nextAccountIndex s.
Proof.
  intros [now payment s0|env k s0|now s0|env k c s0 Hget Hact|msg s0].
  - apply handlePayment_sync_frame.
  - apply sweepCharge_shape.
  - unfold checkExpiredCharges.
    pose proof (expire_loop_frame now (charges s0) s0) as [Hn _].
    destruct (expire_loop now (charges s0) s0) as [[[m' s2] sp] ch].
    by destruct ch.
  - apply recover_charge_shape.
  - done.
Qed.

Lemma step_index s s' : step s s' → index_shrinks s s'.
Proof.
  intros [now payment s0|env k s0|now s0|env k c s0 Hget Hact|msg s0] a Ha.
  - by rewrite (proj1 (handlePayment_sync_frame now payment s0)).
  - destruct (sweepCharge_shape env k s0) as [_ [[_ ->]|(c & v & _ & _ & _ & _ & ->)]];
      [done|]. rewrite lookup_delete. by case_decide.
  - unfold checkExpiredCharges.
    pose proof (expire_loop_frame now (charges s0) s0) as [_ Hix].
    destruct (expire_loop now (charges s0) s0) as [[[m' s2] sp] ch].
    destruct ch; by apply Hix.
  - by rewrite (proj1 (recover_charge_shape env k c s0)).
  - done.
Qed.

Lemma step_origin s s' : step s s' → origin s s'.
Proof.
  intros [now payment s0|env k s0|now s0|env k c s0 Hget Hact|msg s0].
  - destruct (lookupByAddress (pe_to payment) s0) as [[k c]|] eqn:Hl.
    2:{ apply origin_same. unfold handlePayment_sync. by rewrite Hl. }
    destruct (is_active c) eqn:Hact.
    + destruct (handlePayment_sync_charges now payment s0 k c Hl Hact)
        as (c' & Hc & _ & _ & Hst & Ha & Hi).
      apply (origin_set k c c'); [by eapply lookupByAddress_get|done..|].
      rewrite Hst. by destruct (_ <=? _).
    + apply origin_same. unfold handlePayment_sync. rewrite Hl.
      unfold is_active in Hact. by destruct (status c).
  - destruct (sweepCharge_shape env k s0)
      as [_ [[Hc _]|(c & v & Hget & Hc & Ha & Hi & Hix)]];
      [by apply origin_same|].
    apply (origin_set k c v); auto. intros _. right.
    rewrite Hix, Ha. apply lookup_delete_eq.
  - intros k c' Hget'.
    destruct (getCharge k s0) as [c|] eqn:Hget.
    + rewrite (checkExpiredCharges_get now s0 k c Hget) in Hget'.
      injection Hget' as <-. exists c. split; [done|].
      destruct (is_due now c); [by split_and! | auto].
    + exfalso. unfold getCharge, checkExpiredCharges in *.
      pose proof (expire_loop_keys now (charges s0) s0) as Hk.
      destruct (expire_loop now (charges s0) s0) as [[[m' s2] sp] ch].
      cbn [fst] in *.
      assert (jm_get k m' = None) as Hnone.
      { apply jm_get_None_keys. rewrite Hk. by apply jm_get_None_keys. }
      destruct ch; cbn in Hget'; congruence.
  - destruct (recover_charge_shape env k c s0)
      as (_ & _ & [Hc|(v & Hc & Ha & Hi & Hst)]); [by apply origin_same|].
    apply (origin_set k c v); auto.
  - by apply origin_same.
Qed.

Lemma jm_get_filter (Q : string * Charge → Prop) `{∀ x, Decision (Q x)} k c
    (m : list (string * Charge)) :
  NoDup (jm_keys m) → jm_get k (filter Q m) = Some c → jm_get k m = Some c.
Proof.
  intros Hnd Hget. apply jm_elem_get; [done|].
  apply jm_get_Some_elem in Hget. by apply list_elem_of_filter in Hget as [_ ?].
Qed.

(** While a processor runs, and as long as the wallet derives distinct
    addresses for distinct sub-accounts, the address of a swept charge is
    not in the address index. *)
Lemma live_swept_unregistered s :
  (∀ i j, deriveAddress i = deriveAddress j → i = j) →
  live s → allocated s ∧ swept_unregistered s.
Proof.
  intros Hinj Hlive.
  induction Hlive as [config|s s' Hlive [IHa IHs] Htr]; [by split|].
  pose proof (proj1 (proj1 (reachable_wf s (live_reachable s Hlive)))) as Hnd.
  destruct Htr as [s0 s1 Hstep|rnd now now' options s0|k0 s0|s0|now s0].
  - pose proof (step_next _ _ Hstep) as Hn.
    pose proof (step_index _ _ Hstep) as Hix.
    pose proof (step_origin _ _ Hstep) as Hor. split.
    + intros k c' Hget'. destruct (Hor k c' Hget') as (c & Hget & Ha & Hi & _).
      rewrite Ha, Hi, Hn. by apply (IHa k).
    + intros k c' Hget' Hst.
      destruct (Hor k c' Hget') as (c & Hget & Ha & Hi & Hsw).
      destruct (Hsw Hst) as [Hc|Hnone]; [|done].
      rewrite Ha. apply Hix. by apply (IHs k).
  - unfold allocated, swept_unregistered, getCharge, createCharge. cbn. split.
    + intros k c. rewrite jm_get_set. case_decide as Hk.
      * intros [= <-]. cbn. split; [done | lia].
      * intros Hget. destruct (IHa k c Hget). split; [done | lia].
    + intros k c. rewrite jm_get_set. case_decide as Hk.
      * by intros [= <-].
      * intros Hget Hst. destruct (IHa k c Hget) as [Ha Hlt].
        rewrite lookup_insert_ne; [by apply (IHs k)|].
        rewrite Ha. intros Heq. apply Hinj in Heq. lia.
  - unfold allocated, swept_unregistered, getCharge, deleteCharge in *.
    destruct (jm_get k0 (charges s0)) as [c0|]; [|done].
    destruct (negb _); [done|]. cbn. split.
    + intros k c. destruct (decide (k0 = k)) as [<-|Hne];
        [by rewrite jm_get_delete_eq|].
      rewrite jm_get_delete_ne by done. apply IHa.
    + intros k c. destruct (decide (k0 = k)) as [<-|Hne];
        [by rewrite jm_get_delete_eq|].
      rewrite jm_get_delete_ne by done. intros Hget Hst.
      rewrite lookup_delete. case_decide; [done|]. by apply (IHs k).
  - unfold allocated, swept_unregistered, getCharge, cleanupSweptCharges in *.
    cbn [snd]. destruct (bool_decide _); [|done]. cbn. split.
    + intros k c Hget. apply (IHa k). by eapply jm_get_filter.
    + intros k c Hget. apply (IHs k). by eapply jm_get_filter.
  - unfold saveTimer_fires. by destruct (saveDebounceTimer s0).
Qed.

End LiveIndex.

(** ** The address index after a restart *)

Lemma register_loaded_index (l : list Charge) s a :
  is_Some (addressToChargeId s !! a) ∨ (∃ c, c ∈ l ∧ address c = a) →
  is_Some (addressToChargeId (foldl register_loaded s l) !! a).
Proof.
  revert s. induction l as [|c l IH]; intros s.
  - intros [Hs|(c & Hc & _)]; [done | by apply elem_of_nil in Hc].
  - intros Hor. cbn [foldl]. apply IH.
    destruct (decide (address c = a)) as [<-|Hne].
    + left. cbn. rewrite lookup_insert_eq. by eexists.
    + destruct Hor as [Hs|(c' & Hc' & Ha)].
      * left. cbn. by rewrite lookup_insert_ne.
      * apply elem_of_cons in Hc' as [->|Hc']; [done|]. right. by exists c'.
Qed.

Lemma revive_stringify_fields c :
  id (revive_charge (stringify_charge c)) = id c
  ∧ address (revive_charge (stringify_charge c)) = address c
  ∧ status (revive_charge (stringify_charge c)) = status c.
Proof. done. Qed.

(** C3 fails on the code.  The constructor registers the address of every
    charge of the file, whatever its status: a charge that was swept, and
    whose address the sweep had removed from the address index, is in the
    index again after a restart. *)
Theorem restart_registers_swept (config : ProcessorConfig) (now : Z)
    (s : Processor) (k : string) (c : Charge) :
  wf_store s →
  getCharge k s = Some c →
  status c = swept →
  ∃ c', getCharge k (new_processor config (disk (persistStateNow now s))) = Some c'
    ∧ status c' = swept
    ∧ address c' = address c
    ∧ is_Some (addressToChargeId
                 (new_processor config (disk (persistStateNow now s)))
               !! address c').
Proof.
  intros [Hnd Hkeyed] Hget Hst. unfold getCharge in *.
  set (l := revive_charge <$> (stringify_charge <$> jm_values (charges s))).
  assert (loadPersistedState (disk (persistStateNow now s))
          = Some {| ps_nextAccountIndex := nextAccountIndex s; ps_charges := l;
                    ps_updatedAt := now |}) as Hload by done.
  unfold new_processor. rewrite Hload.
  cbn [ps_charges ps_nextAccountIndex charges addressToChargeId emit].
  set (c' := revive_charge (stringify_charge c)).
  assert (c' ∈ l) as Hin.
  { subst l c'. rewrite <- list_fmap_compose. apply list_elem_of_fmap.
    exists c. split; [done|]. unfold jm_values. apply list_elem_of_fmap.
    exists (k, c). split; [done|]. by apply jm_get_Some_elem. }
  assert (id <$> l = jm_keys (charges s)) as Hids.
  { subst l. rewrite <- !list_fmap_compose.
    rewrite <- (proj2 (keyed_values _ Hkeyed)). by apply list_fmap_ext. }
  assert (k = id c) as Hk
    by apply (jm_get_Forall (λ kc, kc.1 = id kc.2) k c _ Hkeyed Hget).
  exists c'. split_and!; [|done|done|].
  - match goal with |- context [foldl register_loaded ?s0 l] =>
      destruct (register_loaded_all l s0) as [Hc _] end.
    { cbn. by rewrite Hids. }
    rewrite Hc. cbn. apply jm_elem_get.
    + unfold jm_keys. rewrite <- list_fmap_compose. cbn.
      change (NoDup (id <$> l)). by rewrite Hids.
    + apply list_elem_of_fmap. exists c'. by rewrite Hk.
  - apply register_loaded_index. right. by exists c'.
Qed.

Lemma restart_registers_swept_witness :
  addressToChargeId demo_swept !! "nano_1000" = None
  ∧ ∃ c', getCharge "chg_01"
            (new_processor demoConfig (disk (persistStateNow 5000 demo_swept)))
          = Some c'
      ∧ status c' = swept
      ∧ address c' = "nano_1000"
      ∧ is_Some (addressToChargeId
                   (new_processor demoConfig (disk (persistStateNow 5000 demo_swept)))
                 !! address c').
Proof.
  split; [vm_compute; reflexivity|].
  destruct (restart_registers_swept demoConfig 5000 demo_swept "chg_01"
              (demo_charge_in demo_swept)) as (c' & Hget & Hst & Ha & Hix).
  - apply (reachable_wf (H := demoLedger)), demo_swept_reachable.
  - vm_compute. reflexivity.
  - vm_compute. reflexivity.
  - exists c'. by split_and!.
Defined.

(** * More properties of the processor and of the wallet *)

(** ** Queries, creation and payments *)

Lemma foldl_add_sumZ {A} (f : A → Z) (l : list A) (a : Z) :
  foldl (λ sum p, sum + f p) a l = a + sumZ (f <$> l).
Proof.
  revert a. induction l as [|x l IH]; intros a; cbn [foldl].
  - unfold sumZ. cbn. lia.
  - rewrite IH, fmap_cons. unfold sumZ. cbn [foldr]. lia.
Qed.

(** X1. [checkChargeStatus] on a stored charge returns that charge; the
    remaining amount is the required amount less the balance and the
    pending amounts, and never below zero; the charge counts as paid
    exactly when nothing remains. *)
Theorem checkChargeStatus_remaining `{Ledger} (pend : list PendingBlock)
    (balance : Z) (chargeId : string) (c : Charge) (s : Processor) :
  getCharge chargeId s = Some c →
  ∃ r, checkChargeStatus pend balance chargeId s = Ok r
    ∧ sr_charge r = c
    ∧ sr_remainingRaw r
      = Z.max 0 (amountRaw c - (balance + sumZ (pb_amount <$> pend)))
    ∧ (sr_isPaid r = true ↔ sr_remainingRaw r = 0)
    ∧ sr_remainingNano r = rawToNano (sr_remainingRaw r).
Proof.
  unfold getCharge, checkChargeStatus. intros ->. eexists. split; [done|].
  cbn. rewrite foldl_add_sumZ. split_and!; [done| | |done].
  - destruct (_ <? _) eqn:Hlt; [apply Z.ltb_lt in Hlt | apply Z.ltb_ge in Hlt]; lia.
  - rewrite Z.leb_le.
    destruct (_ <? _) eqn:Hlt; [apply Z.ltb_lt in Hlt | apply Z.ltb_ge in Hlt]; lia.
Qed.

Lemma checkChargeStatus_remaining_witness :
  ∃ r, checkChargeStatus (H := demoLedger)
         [{| pb_hash := "B10D"; pb_amount := 250000; pb_source := "nano_payer" |}]
         150000 "chg_01" demo_partial = Ok r
    ∧ sr_remainingRaw r = 600000 ∧ sr_isPaid r = false.
Proof.
  destruct (checkChargeStatus_remaining (H := demoLedger)
              [{| pb_hash := "B10D"; pb_amount := 250000; pb_source := "nano_payer" |}]
              150000 "chg_01" (demo_charge_in demo_partial) demo_partial)
    as (r & Hr & _ & Hrem & Hpaid & _); [vm_compute; reflexivity|].
  exists r. split; [done|]. split; [rewrite Hrem; vm_compute; reflexivity|].
  destruct (sr_isPaid r); [|done].
  rewrite (proj1 Hpaid eq_refl) in Hrem. vm_compute in Hrem. discriminate.
Defined.

Lemma lookupByAddress_inv a k c s :
  lookupByAddress a s = Some (k, c) →
  addressToChargeId s !! a = Some k ∧ truthy_string k = true
  ∧ jm_get k (charges s) = Some c.
Proof.
  unfold lookupByAddress. destruct (addressToChargeId s !! a) as [i|]; [|done].
  destruct (truthy_string i) eqn:Hi; [|done].
  destruct (jm_get i (charges s)) as [c0|] eqn:Hget; [|done].
  by intros [= <- <-].
Qed.

Lemma lookupByAddress_intro a k c s :
  addressToChargeId s !! a = Some k → truthy_string k = true →
  jm_get k (charges s) = Some c → lookupByAddress a s = Some (k, c).
Proof. unfold lookupByAddress. by intros -> -> ->. Qed.

(** X2. The charge [createCharge] returns is pending with nothing
    received; it is found under its id and under its address, its address
    is watched by the monitor, the other charges are found as before, the
    next sub-account has advanced by one, and the save is only scheduled:
    the file is not written. *)
Theorem createCharge_registers `{Ledger} (rnd : string) (now now' : Z)
    (options : CreateChargeOptions) (s : Processor) :
  let c := (createCharge rnd now now' options s).1 in
  let s' := (createCharge rnd now now' options s).2 in
  getCharge (id c) s' = Some c
  ∧ getChargeByAddress (address c) s' = Some c
  ∧ address c ∈ monitor s'
  ∧ status c = pending ∧ receivedRaw c = 0 ∧ transactions c = []
  ∧ accountIndex c = nextAccountIndex s
  ∧ nextAccountIndex s' = nextAccountIndex s + 1
  ∧ (∀ k, k ≠ id c → getCharge k s' = getCharge k s)
  ∧ disk s' = disk s ∧ saveDebounceTimer s' = true.
Proof.
  cbn. unfold getChargeByAddress, getCharge. split_and!; try done.
  - apply jm_get_set_eq.
  - erewrite (lookupByAddress_intro _ (generateChargeId rnd));
      [done | | reflexivity |].
    + cbn. apply lookup_insert_eq.
    + cbn. apply jm_get_set_eq.
  - unfold addAccount. rewrite elem_of_union, elem_of_singleton. by left.
  - intros k Hk. by apply jm_get_set_ne.
Qed.

(** X3. A payment event whose destination is the address of no stored
    charge, or of a charge that is completed, expired or swept, is
    ignored: the processor is left exactly as it was. *)
Theorem handlePayment_ignored `{Ledger} (env : SweepEnv) (now : Z)
    (payment : PaymentEvent) (s : Processor) :
  (getChargeByAddress (pe_to payment) s = None
   ∨ ∃ c, getChargeByAddress (pe_to payment) s = Some c ∧ is_active c = false) →
  handlePayment env now payment s = s.
Proof.
  unfold getChargeByAddress, handlePayment, handlePayment_sync.
  destruct (lookupByAddress (pe_to payment) s) as [[k c]|]; cbn.
  - intros [?|(c0 & [= <-] & Hact)]; [done|]. unfold is_active in Hact.
    by destruct (status c).
  - done.
Qed.

Lemma handlePayment_ignored_witness :
  handlePayment (H := demoLedger) (demoSweep 7 (Response 200)) 9000
    (demoPayment 7) demo_swept = demo_swept
  ∧ handlePayment (H := demoLedger) (demoSweep 7 (Response 200)) 9000
      (demoPayment 7) demo_completed = demo_completed.
Proof.
  split.
  - apply (handlePayment_ignored (H := demoLedger)). left. vm_compute. reflexivity.
  - apply (handlePayment_ignored (H := demoLedger)). right.
    exists (demo_charge_in demo_completed). split; vm_compute; reflexivity.
Defined.

(** The payment applied to an active charge, the file being given by the
    save that wrote it. *)
Lemma handlePayment_sync_saved `{Ledger} (now : Z) (payment : PaymentEvent)
    (s : Processor) (k : string) (c : Charge) :
  lookupByAddress (pe_to payment) s = Some (k, c) →
  is_active c = true →
  (∀ k', k' ≠ k →
     getCharge k' (handlePayment_sync now payment s).1 = getCharge k' s)
  ∧ addressToChargeId (handlePayment_sync now payment s).1 = addressToChargeId s
  ∧ monitor (handlePayment_sync now payment s).1 = monitor s
  ∧ ∃ c', getCharge k (handlePayment_sync now payment s).1 = Some c'
      ∧ id c' = id c
      ∧ receivedRaw c' = receivedRaw c + pe_amount payment
      ∧ if amountRaw c <=? receivedRaw c + pe_amount payment
        then status c' = completed
             ∧ completedAt c' = Some (DateMs now)
             ∧ disk (handlePayment_sync now payment s).1
               = savePersistedState
                   (current_state now (handlePayment_sync now payment s).1)
             ∧ saveDebounceTimer (handlePayment_sync now payment s).1 = false
             ∧ (handlePayment_sync now payment s).2
               = (if autoSweep s then Some (id c) else None)
        else status c' = partial
             ∧ completedAt c' = completedAt c
             ∧ disk (handlePayment_sync now payment s).1 = disk s
             ∧ saveDebounceTimer (handlePayment_sync now payment s).1 = true
             ∧ (handlePayment_sync now payment s).2 = None.
Proof.
  intros Hl Hact. unfold handlePayment_sync, getCharge. rewrite Hl.
  unfold is_active in Hact.
  destruct (status c) eqn:Hst; try discriminate;
    cbn [push_payment amountRaw]; destruct (_ <=? _); cbn;
    (split_and!; [intros k' Hk'; by rewrite !jm_get_set_ne | done | done |]);
    eexists; rewrite jm_get_set_eq; done.
Qed.

(** X4. A payment event applied to an active charge touches that charge
    only, and neither the address index nor the monitor.  When the received
    amount reaches the required amount the charge is completed at the time
    of the event handling and the file is written at once: it exists and
    holds the new state, the entry of the charge carrying the status
    [completed], the completion time and the new received amount, and a
    load of the file gives the charge back with these; no save is left
    pending, and the sweep is asked for when [autoSweep] is on.  Otherwise
    the charge is partial, the save is only scheduled and the file is as
    before. *)
Theorem handlePayment_sync_persists `{Ledger} (now : Z) (payment : PaymentEvent)
    (s : Processor) (k : string) (c : Charge) :
  lookupByAddress (pe_to payment) s = Some (k, c) →
  is_active c = true →
  let s' := (handlePayment_sync now payment s).1 in
  (∀ k', k' ≠ k → getCharge k' s' = getCharge k' s)
  ∧ addressToChargeId s' = addressToChargeId s
  ∧ monitor s' = monitor s
  ∧ ∃ c', getCharge k s' = Some c'
      ∧ if amountRaw c <=? receivedRaw c + pe_amount payment
        then status c' = completed
             ∧ completedAt c' = Some (DateMs now)
             ∧ (∃ file entry,
                  disk s' = Some file
                  ∧ pj_updatedAt file = now
                  ∧ pj_nextAccountIndex file = nextAccountIndex s'
                  ∧ pj_charges file
                    = stringify_charge <$> jm_values (charges s')
                  ∧ entry ∈ pj_charges file
                  ∧ jc_id entry = id c
                  ∧ jc_status entry = completed
                  ∧ jc_completedAt entry = Some (JIso now)
                  ∧ jc_receivedRaw entry = receivedRaw c + pe_amount payment)
             ∧ (∃ persisted loaded,
                  loadPersistedState (disk s') = Some persisted
                  ∧ loaded ∈ ps_charges persisted
                  ∧ id loaded = id c
                  ∧ status loaded = completed
                  ∧ completedAt loaded = Some (DateMs now)
                  ∧ receivedRaw loaded = receivedRaw c + pe_amount payment)
             ∧ saveDebounceTimer s' = false
             ∧ (handlePayment_sync now payment s).2
               = (if autoSweep s then Some (id c) else None)
        else status c' = partial
             ∧ completedAt c' = completedAt c
             ∧ disk s' = disk s
             ∧ saveDebounceTimer s' = true
             ∧ (handlePayment_sync now payment s).2 = None.
Proof.
  intros Hl Hact s'.
  destruct (handlePayment_sync_saved now payment s k c Hl Hact)
    as (Hother & Hix & Hmon & c' & Hget & Hid & Hrecv & Hif).
  fold s' in Hother, Hix, Hmon, Hget, Hif.
  split_and!; try done. exists c'. split; [done|].
  destruct (_ <=? _); [|done].
  destruct Hif as (Hst & Hca & Hd & Ht & Hsw).
  destruct (saved_file now s' k c' Hd Hget)
    as [(file & Hf & Hnext & Hup & Hcs & Hin) (persisted & Hl' & _ & Hrin)].
  split_and!; try done.
  - exists file, (stringify_charge c').
    cbn [stringify_charge jc_id jc_status jc_completedAt jc_receivedRaw].
    rewrite Hid, Hst, Hca, Hrecv. by split_and!.
  - exists persisted, (reload c'). unfold reload.
    cbn [revive_charge stringify_charge id status completedAt receivedRaw
         jc_id jc_status jc_completedAt jc_receivedRaw].
    rewrite Hid, Hst, Hca, Hrecv. by split_and!.
Qed.

Lemma handlePayment_sync_persists_witness :
  (∃ c', getCharge "chg_01" demo_partial = Some c'
     ∧ status c' = partial
     ∧ disk demo_partial = None
     ∧ saveDebounceTimer demo_partial = true)
  ∧ (∃ file entry,
       disk demo_completed = Some file
       ∧ entry ∈ pj_charges file
       ∧ jc_status entry = completed
       ∧ jc_receivedRaw entry = 1000000).
Proof.
  split.
  - destruct (handlePayment_sync_persists (H := demoLedger) 2000
                (demoPayment 400000) demo_created "chg_01"
                (demo_charge_in demo_created))
      as (_ & _ & _ & c' & Hget & Hrest); [vm_compute; reflexivity..|].
    exists c'. split; [exact Hget|].
    change (amountRaw (demo_charge_in demo_created)
            <=? receivedRaw (demo_charge_in demo_created)
                + pe_amount (demoPayment 400000)) with false in Hrest.
    destruct Hrest as (Hst & _ & Hd & Ht & _). by split_and!.
  - destruct (handlePayment_sync_persists (H := demoLedger) 2000
                (demoPayment 1000000) demo_created "chg_01"
                (demo_charge_in demo_created))
      as (_ & _ & _ & c' & Hget & Hrest); [vm_compute; reflexivity..|].
    change (amountRaw (demo_charge_in demo_created)
            <=? receivedRaw (demo_charge_in demo_created)
                + pe_amount (demoPayment 1000000)) with true in Hrest.
    destruct Hrest
      as (_ & _ & (file & entry & Hf & _ & _ & _ & Hin & _ & Hes & _ & Her) & _).
    exists file, entry. by split_and!.
Defined.

(** X5. Payment events are not told apart by their hash: the same event
    handled twice by a charge that stays partial is recorded twice and its
    amount is counted twice. *)
Theorem handlePayment_counts_twice `{Ledger} (now1 now2 : Z)
    (payment : PaymentEvent) (s : Processor) (k : string) (c : Charge) :
  lookupByAddress (pe_to payment) s = Some (k, c) →
  is_active c = true →
  receivedRaw c + pe_amount payment < amountRaw c →
  ∃ c2,
    getCharge k
      (handlePayment_sync now2 payment (handlePayment_sync now1 payment s).1).1
    = Some c2
    ∧ transactions c2
      = transactions c ++ [tx_of_event payment; tx_of_event payment]
    ∧ receivedRaw c2 = receivedRaw c + 2 * pe_amount payment.
Proof.
  intros Hl Hact Hlt.
  destruct (handlePayment_sync_charges now1 payment s k c Hl Hact)
    as (c1 & Hc1 & Ht1 & Hr1 & Hst1 & _).
  destruct (lookupByAddress_inv _ _ _ _ Hl) as (Hix & Htr & Hget).
  destruct (handlePayment_sync_frame now1 payment s) as [Hix1 _].
  set (s1 := (handlePayment_sync now1 payment s).1) in *.
  assert (lookupByAddress (pe_to payment) s1 = Some (k, c1)) as Hl1.
  { apply lookupByAddress_intro; [by rewrite Hix1 | done |].
    rewrite Hc1. apply jm_get_set_eq. }
  assert (is_active c1 = true) as Hact1.
  { unfold is_active. rewrite Hst1.
    by rewrite (proj2 (Z.leb_gt _ _) Hlt). }
  destruct (handlePayment_sync_charges now2 payment s1 k c1 Hl1 Hact1)
    as (c2 & Hc2 & Ht2 & Hr2 & _).
  exists c2. unfold getCharge. rewrite Hc2, jm_get_set_eq.
  split; [done|]. rewrite Ht2, Ht1, Hr2, Hr1, <- app_assoc. split; [done | lia].
Qed.

Lemma handlePayment_counts_twice_witness :
  ∃ c2,
    getCharge "chg_01"
      (handlePayment_sync (H := demoLedger) 2001 (demoPayment 400000)
         demo_partial).1 = Some c2
    ∧ receivedRaw c2 = 800000
    ∧ length (transactions c2) = 2%nat.
Proof.
  destruct (handlePayment_counts_twice (H := demoLedger) 2000 2001
              (demoPayment 400000) demo_created "chg_01"
              (demo_charge_in demo_created))
    as (c2 & Hget & Ht & Hr); [vm_compute; reflexivity..|].
  exists c2. split; [exact Hget|]. split; [exact Hr|]. by rewrite Ht.
Defined.

(** ** The expiry check *)

Lemma set_charges_same s : set_charges (charges s) s = s.
Proof. by destruct s. Qed.

Lemma expire_loop_spec now auto entries s :
  autoSweep s = auto →
  let r := expire_loop now entries s in
  let gone := address <$> filter (λ c, dropped now auto c = true) entries.*2 in
  r.1.1.1 = (λ kc, (kc.1, expire_one now kc.2)) <$> entries
  ∧ r.1.2 = id <$> filter (λ c, sweep_started now auto c = true) entries.*2
  ∧ r.2 = existsb (is_due now) entries.*2
  ∧ (∀ a, addressToChargeId r.1.1.2 !! a
          = if decide (a ∈ gone) then None else addressToChargeId s !! a)
  ∧ (∀ a, a ∈ monitor r.1.1.2 ↔ a ∈ monitor s ∧ a ∉ gone)
  ∧ charges r.1.1.2 = charges s
  ∧ disk r.1.1.2 = disk s
  ∧ saveDebounceTimer r.1.1.2 = saveDebounceTimer s
  ∧ nextAccountIndex r.1.1.2 = nextAccountIndex s
  ∧ autoSweep r.1.1.2 = auto.
Proof.
  revert s. induction entries as [|[k c] m IH]; intros s Hauto.
  { cbn. split_and!; try done. intros a.
    split; [intros ?; split; [done | apply not_elem_of_nil] | by intros []]. }
  cbn [expire_loop]. rewrite !fmap_cons. cbn [fst snd existsb].
  unfold expire_one at 1.
  destruct (is_due now c) eqn:Hdue; cbn [andb orb].
  - cbn [receivedRaw set_status]. rewrite Hauto.
    destruct ((0 <? receivedRaw c) && auto) eqn:Hsw.
    + specialize (IH (emit (charge_expired (set_status expired c)) s) Hauto).
      destruct (expire_loop now m _) as [[[m' s2] sp] ch]. cbn [fst snd] in *.
      destruct IH as (-> & -> & _ & Hix & Hmon & ? & ? & ? & ? & ?).
      rewrite (filter_cons_True (λ c, sweep_started now auto c = true))
        by (unfold sweep_started; by rewrite Hdue, Hsw).
      rewrite (filter_cons_False (λ c, dropped now auto c = true))
        by (unfold dropped; by rewrite Hdue, Hsw).
      rewrite fmap_cons. split_and!; done.
    + specialize (IH (unregister (address (set_status expired c))
                        (emit (charge_expired (set_status expired c)) s)) Hauto).
      destruct (expire_loop now m _) as [[[m' s2] sp] ch]. cbn [fst snd] in *.
      destruct IH as (-> & -> & _ & Hix & Hmon & ? & ? & ? & ? & ?).
      rewrite (filter_cons_False (λ c, sweep_started now auto c = true))
        by (unfold sweep_started; by rewrite Hdue, Hsw).
      rewrite (filter_cons_True (λ c, dropped now auto c = true))
        by (unfold dropped; by rewrite Hdue, Hsw).
      rewrite fmap_cons. split_and!; try done.
      * intros a. rewrite Hix. cbn. rewrite lookup_delete.
        destruct (decide (a ∈ _ :: _)) as [Hin|Hnin];
          apply elem_of_cons in Hin || apply not_elem_of_cons in Hnin.
        -- case_decide; [done|]. destruct Hin as [->|]; [|done].
           by rewrite decide_True.
        -- destruct Hnin as [Hne Hnin]. rewrite decide_False by done.
           by rewrite decide_False.
      * intros a. rewrite Hmon. cbn. unfold removeAccount.
        rewrite elem_of_difference, elem_of_singleton, not_elem_of_cons. tauto.
  - specialize (IH s Hauto).
    destruct (expire_loop now m _) as [[[m' s2] sp] ch]. cbn [fst snd] in *.
    destruct IH as (-> & -> & -> & Hix & Hmon & ? & ? & ? & ? & ?).
    rewrite (filter_cons_False (λ c, sweep_started now auto c = true))
      by (unfold sweep_started; by rewrite Hdue).
    rewrite (filter_cons_False (λ c, dropped now auto c = true))
      by (unfold dropped; by rewrite Hdue).
    split_and!; done.
Qed.

Lemma checkExpiredCharges_charges now s :
  charges (checkExpiredCharges now s).1
  = (λ kc, (kc.1, expire_one now kc.2)) <$> charges s.
Proof.
  unfold checkExpiredCharges.
  pose proof (expire_loop_spec now (autoSweep s) (charges s) s eq_refl) as Hl.
  destruct (expire_loop now (charges s) s) as [[[m' s2] sp] ch].
  cbn [fst snd] in *. destruct Hl as (-> & _). by destruct ch.
Qed.

(** X6. One expiry check at time [now]: every active charge whose deadline
    is before [now] becomes expired and nothing else of any charge changes
    (keys and order are kept); the sweeps started are those of the due
    charges that have received something, in map order, and only when
    [autoSweep] is on; the addresses of the other due charges leave the
    address index and the monitor, all other entries stay; the file is not
    written, and a save is scheduled exactly when some charge was due. *)
Theorem checkExpiredCharges_effect (now : Z) (s : Processor) :
  let s' := (checkExpiredCharges now s).1 in
  let gone :=
    address <$> filter (λ c, dropped now (autoSweep s) c = true)
                  (jm_values (charges s)) in
  charges s' = (λ kc, (kc.1, expire_one now kc.2)) <$> charges s
  ∧ (checkExpiredCharges now s).2
    = id <$> filter (λ c, sweep_started now (autoSweep s) c = true)
               (jm_values (charges s))
  ∧ (∀ a, addressToChargeId s' !! a
          = if decide (a ∈ gone) then None else addressToChargeId s !! a)
  ∧ (∀ a, a ∈ monitor s' ↔ a ∈ monitor s ∧ a ∉ gone)
  ∧ disk s' = disk s
  ∧ saveDebounceTimer s'
    = (if existsb (is_due now) (jm_values (charges s)) then true
       else saveDebounceTimer s)
  ∧ nextAccountIndex s' = nextAccountIndex s.
Proof.
  unfold checkExpiredCharges, jm_values.
  pose proof (expire_loop_spec now (autoSweep s) (charges s) s eq_refl) as Hl.
  destruct (expire_loop now (charges s) s) as [[[m' s2] sp] ch].
  cbn [fst snd] in *.
  destruct Hl as (-> & -> & -> & Hix & Hmon & _ & Hd & Ht & Hn & _).
  destruct (existsb _ _); cbn; split_and!; done.
Qed.

Lemma expire_loop_none now entries s :
  Forall (λ kc, is_due now kc.2 = false) entries →
  expire_loop now entries s = (entries, s, [], false).
Proof.
  induction 1 as [|[k c] m Hc _ IH]; [done|].
  cbn [expire_loop]. cbn in Hc. by rewrite Hc, IH.
Qed.

Lemma expire_one_not_due now c : is_due now (expire_one now c) = false.
Proof.
  unfold expire_one. destruct (is_due now c) eqn:Hdue; [|done].
  unfold is_due, is_active. cbn. done.
Qed.

(** X7. The expiry check is idempotent at a given time: a second check at
    the same [now] starts no sweep and leaves the processor exactly as the
    first check left it. *)
Theorem checkExpiredCharges_idempotent (now : Z) (s : Processor) :
  checkExpiredCharges now (checkExpiredCharges now s).1
  = ((checkExpiredCharges now s).1, []).
Proof.
  pose proof (checkExpiredCharges_charges now s) as Hch.
  set (s' := (checkExpiredCharges now s).1) in *.
  unfold checkExpiredCharges at 1.
  rewrite expire_loop_none.
  - by rewrite set_charges_same.
  - rewrite Hch. apply Forall_fmap, Forall_forall. intros [k c] _. cbn.
    apply expire_one_not_due.
Qed.

(** X8. A charge whose deadline is the Invalid Date is never due, so no
    expiry check at any time changes it; a charge that is not active is
    left alone as well. *)
Theorem checkExpiredCharges_keeps (now : Z) (s : Processor) (k : string)
    (c : Charge) :
  getCharge k s = Some c →
  expiresAt c = InvalidDate ∨ is_active c = false →
  getCharge k (checkExpiredCharges now s).1 = Some c.
Proof.
  intros Hget Hc. unfold getCharge in *. rewrite checkExpiredCharges_charges.
  assert (expire_one now c = c) as He.
  { unfold expire_one, is_due. destruct Hc as [-> | ->]; [|done].
    by rewrite andb_false_r. }
  induction (charges s) as [|[k0 c0] m IH]; [done|].
  rewrite fmap_cons. cbn [jm_get fst snd] in *.
  case_decide; [injection Hget as ->; by rewrite He | auto].
Qed.

Lemma checkExpiredCharges_keeps_witness :
  getCharge "chg_02" (checkExpiredCharges 9000000000000000 demo_far).1
  = getCharge "chg_02" demo_far.
Proof.
  rewrite (checkExpiredCharges_keeps 9000000000000000 demo_far "chg_02"
             (default demo_charge (getCharge "chg_02" demo_far)));
    [vm_compute; reflexivity | vm_compute; reflexivity |].
  left. vm_compute. reflexivity.
Defined.

(** ** Clean-up, export and import *)

Lemma jm_get_filter_keep {V} (Q : string * V → Prop) `{∀ x, Decision (Q x)} k v
    (m : list (string * V)) :
  jm_get k m = Some v → Q (k, v) → jm_get k (filter Q m) = Some v.
Proof.
  intros Hget HQ. induction m as [|[k0 v0] m IH]; [done|].
  cbn [jm_get] in Hget. destruct (decide (k0 = k)) as [->|Hne].
  - injection Hget as ->. rewrite filter_cons_True by done.
    cbn [jm_get]. by rewrite decide_True.
  - destruct (decide (Q (k0, v0))).
    + rewrite filter_cons_True by done. cbn [jm_get].
      rewrite decide_False by done. auto.
    + rewrite filter_cons_False by done. auto.
Qed.

Lemma filter_all {A} (Q : A → Prop) `{∀ x, Decision (Q x)} (l : list A) :
  Forall Q l → filter Q l = l.
Proof.
  induction 1 as [|x l Hx _ IH]; [done|]. by rewrite filter_cons_True, IH.
Qed.

Lemma swept_count (m : list (string * Charge)) :
  (length (filter (λ c, status c = swept) m.*2)
   + length (filter (λ kc : string * Charge, status kc.2 ≠ swept) m))%nat
  = length m.
Proof.
  induction m as [|[k c] m IH]; [done|]. rewrite fmap_cons. cbn [snd length].
  destruct (decide (status c = swept)) as [Hs|Hs].
  - rewrite (filter_cons_True (λ c, status c = swept)) by done.
    rewrite (filter_cons_False (λ kc : string * Charge, status kc.2 ≠ swept))
      by (cbn; tauto).
    cbn [length]. lia.
  - rewrite (filter_cons_False (λ c, status c = swept)) by done.
    rewrite (filter_cons_True (λ kc : string * Charge, status kc.2 ≠ swept))
      by done.
    cbn [length]. lia.
Qed.

Lemma cleanupSweptCharges_charges s :
  charges (cleanupSweptCharges s).2
  = filter (λ kc, status kc.2 ≠ swept) (charges s).
Proof.
  unfold cleanupSweptCharges. cbn [snd]. case_bool_decide as Hn; [done|].
  symmetry. apply filter_all.
  pose proof (swept_count (charges s)) as Hc.
  assert (filter (λ c, status c = swept) (charges s).*2 = []) as Hnil
    by (apply length_zero_iff_nil; lia).
  apply Forall_forall. intros [k c] Hin Hst. cbn in Hst.
  assert (c ∈ filter (λ c, status c = swept) (charges s).*2) as Hc'.
  { apply list_elem_of_filter. split; [done|].
    apply list_elem_of_fmap. by exists (k, c). }
  rewrite Hnil in Hc'. by apply elem_of_nil in Hc'.
Qed.

(** X9. [cleanupSweptCharges] returns the number of swept charges and
    removes exactly those from the map: no swept charge is left, every
    other charge is kept in its place and found under its id.  The address
    index, the monitor and the file are not touched, a save is scheduled
    when something was removed, and a second clean-up removes nothing. *)
Theorem cleanupSweptCharges_effect (s : Processor) :
  let n := (cleanupSweptCharges s).1 in
  let s' := (cleanupSweptCharges s).2 in
  n = length (listCharges (Some swept) s)
  ∧ listCharges (Some swept) s' = []
  ∧ listCharges None s' = filter (λ c, status c ≠ swept) (listCharges None s)
  ∧ (∀ k c, getCharge k s = Some c → status c ≠ swept →
            getCharge k s' = Some c)
  ∧ addressToChargeId s' = addressToChargeId s
  ∧ monitor s' = monitor s
  ∧ disk s' = disk s
  ∧ saveDebounceTimer s'
    = (if decide (n = 0%nat) then saveDebounceTimer s else true)
  ∧ cleanupSweptCharges s' = (0%nat, s').
Proof.
  cbn zeta. pose proof (cleanupSweptCharges_charges s) as Hch.
  pose proof (swept_count (charges s)) as Hcount.
  assert (Forall (λ kc : string * Charge, status kc.2 ≠ swept)
            (charges (cleanupSweptCharges s).2)) as Hall.
  { rewrite Hch. apply Forall_forall. intros kc Hin.
    by apply list_elem_of_filter in Hin as [? _]. }
  split_and!.
  - unfold cleanupSweptCharges, listCharges, jm_values. cbn [fst]. lia.
  - unfold listCharges, jm_values. apply length_zero_iff_nil.
    pose proof (swept_count (charges (cleanupSweptCharges s).2)) as Hc2.
    rewrite (filter_all _ _ Hall) in Hc2. lia.
  - unfold listCharges, jm_values. rewrite Hch. clear.
    induction (charges s) as [|[k c] m IH]; [done|]. rewrite fmap_cons. cbn [snd].
    destruct (decide (status c ≠ swept)).
    + rewrite (filter_cons_True (λ kc : string * Charge, status kc.2 ≠ swept))
        by done.
      rewrite (filter_cons_True (λ c, status c ≠ swept)) by done.
      by rewrite fmap_cons, IH.
    + rewrite (filter_cons_False (λ kc : string * Charge, status kc.2 ≠ swept))
        by done.
      by rewrite (filter_cons_False (λ c, status c ≠ swept)) by done.
  - intros k c Hget Hst. unfold getCharge in *. rewrite Hch.
    by apply jm_get_filter_keep.
  - unfold cleanupSweptCharges. cbn [snd]. by case_bool_decide.
  - unfold cleanupSweptCharges. cbn [snd]. by case_bool_decide.
  - unfold cleanupSweptCharges. cbn [snd]. by case_bool_decide.
  - unfold cleanupSweptCharges. cbn [fst snd].
    case_bool_decide as Hn; case_decide; done.
  - unfold cleanupSweptCharges at 1. rewrite (filter_all _ _ Hall).
    rewrite Nat.sub_diag. by rewrite bool_decide_false by (intros Hne; by apply Hne).
Qed.

Lemma import_like (l : list Charge) (s t : Processor) :
  charges s = charges t → addressToChargeId s = addressToChargeId t →
  charges (foldl import_one s l) = charges (foldl register_loaded t l)
  ∧ addressToChargeId (foldl import_one s l)
    = addressToChargeId (foldl register_loaded t l).
Proof.
  revert s t. induction l as [|c l IH]; intros s t Hc Hix; [done|].
  cbn [foldl]. apply IH; unfold import_one, register_loaded;
    destruct (_ || _); cbn; congruence.
Qed.

Lemma register_loaded_index_iff (l : list Charge) s a :
  is_Some (addressToChargeId (foldl register_loaded s l) !! a)
  ↔ is_Some (addressToChargeId s !! a) ∨ (∃ c, c ∈ l ∧ address c = a).
Proof.
  split; [|apply register_loaded_index].
  revert s. induction l as [|c l IH]; intros s; [by left|].
  cbn [foldl]. intros Hs. destruct (IH _ Hs) as [Hix|(c' & Hc' & Ha)].
  - cbn in Hix. destruct (decide (address c = a)) as [<-|Hne].
    + right. exists c. split; [apply list_elem_of_here | done].
    + left. by rewrite lookup_insert_ne in Hix.
  - right. exists c'. split; [by apply list_elem_of_further | done].
Qed.

Lemma importCharges_monitor (l : list Charge) s a :
  a ∈ monitor (importCharges l s)
  ↔ a ∈ monitor s ∨ (∃ c, c ∈ l ∧ is_active c = true ∧ address c = a).
Proof.
  unfold importCharges. revert s. induction l as [|c l IH]; intros s.
  { cbn. split; [by left|]. intros [?|(c & Hc & _)]; [done|].
    by apply elem_of_nil in Hc. }
  cbn [foldl]. rewrite IH. unfold import_one. fold (is_active c).
  destruct (is_active c) eqn:Hact; cbn [monitor set_monitor register_loaded
    set_index set_charges]; unfold addAccount.
  - rewrite elem_of_union, elem_of_singleton. split.
    + intros [[->|?]|(c' & Hc' & ?)]; [right; exists c | by left |
        right; exists c'; split; [by apply list_elem_of_further | done]].
      split; [apply list_elem_of_here | done].
    + intros [?|(c' & Hc' & Hact' & Ha)]; [by left; right|].
      apply elem_of_cons in Hc' as [->|Hc']; [by left; left|].
      right. by exists c'.
  - split.
    + intros [?|(c' & Hc' & ?)]; [by left|].
      right; exists c'; split; [by apply list_elem_of_further | done].
    + intros [?|(c' & Hc' & Hact' & Ha)]; [by left|].
      apply elem_of_cons in Hc' as [->|Hc']; [congruence|].
      right. by exists c'.
Qed.

Lemma importCharges_frame (l : list Charge) s :
  nextAccountIndex (importCharges l s) = nextAccountIndex s
  ∧ disk (importCharges l s) = disk s
  ∧ saveDebounceTimer (importCharges l s) = saveDebounceTimer s
  ∧ trace (importCharges l s) = trace s.
Proof.
  unfold importCharges. revert s. induction l as [|c l IH]; intros s; [done|].
  cbn [foldl]. destruct (IH (import_one s c)) as (-> & -> & -> & ->).
  unfold import_one. by destruct (_ || _).
Qed.

(** X10. [importCharges] puts the address of every imported charge in the
    address index and subscribes the monitor to the addresses of the
    imported charges that are pending or partial, and to no other new
    address.  It neither moves the next sub-account index nor writes or
    schedules a save, and it emits no event. *)
Theorem importCharges_effect (l : list Charge) (s : Processor) :
  let s' := importCharges l s in
  (∀ a, is_Some (addressToChargeId s' !! a)
        ↔ is_Some (addressToChargeId s !! a) ∨ ∃ c, c ∈ l ∧ address c = a)
  ∧ (∀ a, a ∈ monitor s'
          ↔ a ∈ monitor s ∨ ∃ c, c ∈ l ∧ is_active c = true ∧ address c = a)
  ∧ nextAccountIndex s' = nextAccountIndex s
  ∧ disk s' = disk s
  ∧ saveDebounceTimer s' = saveDebounceTimer s
  ∧ trace s' = trace s.
Proof.
  cbn zeta. split; [|split; [apply importCharges_monitor | apply importCharges_frame]].
  intros a. unfold importCharges.
  destruct (import_like l s s eq_refl eq_refl) as [_ ->].
  apply register_loaded_index_iff.
Qed.

(** X11. The charges exported by one processor and imported into a
    processor constructed without a file give the same charge map, in the
    same order, and the monitor then watches exactly the addresses of the
    active charges; the next sub-account index is the configured starting
    index, not that of the exporting processor. *)
Theorem importCharges_exportCharges (config : ProcessorConfig) (s : Processor) :
  wf_store s →
  let s' := importCharges (exportCharges s) (new_processor config None) in
  charges s' = charges s
  ∧ (∀ a, a ∈ monitor s' ↔ ∃ c, c ∈ listActiveCharges s ∧ address c = a)
  ∧ nextAccountIndex s' = default 1000 (cfg_startingIndex config).
Proof.
  intros [Hnd Hkeyed]. cbn zeta. destruct (keyed_values _ Hkeyed) as [Hvals Hids].
  split_and!.
  - unfold importCharges, exportCharges.
    match goal with |- context [foldl import_one ?s0 ?l] =>
      destruct (import_like l s0 s0 eq_refl eq_refl) as [-> _];
      destruct (register_loaded_all l s0) as [-> _] end.
    + cbn. by rewrite Hids.
    + cbn. by rewrite Hvals.
  - intros a. rewrite importCharges_monitor. cbn [monitor new_processor loadPersistedState].
    unfold listActiveCharges, listCharges, exportCharges. split.
    + intros [Hin|(c & Hc & Hact & Ha)]; [by apply elem_of_empty in Hin|].
      exists c. split; [|done]. by apply list_elem_of_filter.
    + intros (c & Hc & Ha). apply list_elem_of_filter in Hc as [Hact Hc].
      right. by exists c.
  - by destruct (importCharges_frame (exportCharges s) (new_processor config None))
      as (-> & _).
Qed.

Lemma importCharges_exportCharges_witness :
  charges (importCharges (exportCharges demo_partial)
             (new_processor demoConfig None))
  = charges demo_partial
  ∧ nextAccountIndex (importCharges (exportCharges demo_partial)
                        (new_processor demoConfig None)) = 1000
  ∧ nextAccountIndex demo_partial = 1001.
Proof.
  destruct (importCharges_exportCharges demoConfig demo_partial)
    as (Hc & _ & Hn).
  - split; vm_compute; repeat constructor. intros Hin. inversion Hin.
  - split; [exact Hc|]. split; [rewrite Hn|]; vm_compute; reflexivity.
Defined.

(** ** Sweeps that fail, and sweeps that come late *)

(** X12. A sweep of a charge that is not yet swept fails when the pending
    funds cannot be received, when the account turns out not to be opened,
    when the account holds less than the balance to send, or when the send
    block is refused.  The promise is then rejected with the error, one
    "error" event is emitted, and nothing else changes: the charge keeps its
    status and its registration, and nothing is written. *)
Theorem sweepCharge_failure `{Ledger} (env : SweepEnv) (chargeId : string)
    (c : Charge) (s : Processor) :
  getCharge chargeId s = Some c →
  status c ≠ swept →
  (∃ m, sw_receivePending env = Throw m)
  ∨ (sw_receivePending env = Ok () ∧ sw_balance env ≠ 0
     ∧ (sw_info env = None
        ∨ (∃ b, sw_info env = Some b ∧ b < sw_balance env)
        ∨ (∃ m, sw_process env = Throw m))) →
  ∃ m, sweepCharge env chargeId s = (Throw m, emit (error_event m) s)
    ∧ getCharge chargeId (sweepCharge env chargeId s).2 = Some c
    ∧ addressToChargeId (sweepCharge env chargeId s).2 = addressToChargeId s
    ∧ monitor (sweepCharge env chargeId s).2 = monitor s
    ∧ disk (sweepCharge env chargeId s).2 = disk s
    ∧ saveDebounceTimer (sweepCharge env chargeId s).2 = saveDebounceTimer s
    ∧ (sw_receivePending env = Ok () → sw_info env = None →
       m = "Account not opened. Receive some Nano first.").
Proof.
  unfold getCharge, sweepCharge. intros Hget Hst Hfail. rewrite Hget.
  rewrite (not_swept_decide _ Hst).
  destruct Hfail as [[m Hm]|(Hr & Hb & Hsend)].
  - rewrite Hm. exists m. split_and!; done.
  - rewrite Hr, (eqb_0_false _ Hb).
    assert (∃ m, send (sw_info env) (sw_balance env) (sw_process env) = Throw m
                 ∧ (sw_info env = None →
                    m = "Account not opened. Receive some Nano first."))
      as (m & Hm & Hnone).
    { unfold send. destruct Hsend as [Hi|[(b & Hi & Hlt)|[m Hp]]]; rewrite ?Hi.
      - by eexists.
      - rewrite (proj2 (Z.ltb_lt _ _) Hlt). by eexists.
      - destruct (sw_info env) as [b|]; [|by eexists].
        destruct (b <? sw_balance env); [by eexists|]. rewrite Hp. by eexists. }
    rewrite Hm. exists m. split_and!; done.
Qed.

Lemma sweepCharge_failure_witness :
  ∃ m, sweepCharge (H := demoLedger)
         {| sw_receivePending := Ok (); sw_balance := 1000000;
            sw_info := Some 999999; sw_process := Ok "5END";
            sw_now := 3000; sw_fetch := Response 200; sw_later := 3001 |}
         "chg_01" demo_completed
       = (Throw m, emit (error_event m) demo_completed).
Proof.
  destruct (sweepCharge_failure (H := demoLedger)
              {| sw_receivePending := Ok (); sw_balance := 1000000;
                 sw_info := Some 999999; sw_process := Ok "5END";
                 sw_now := 3000; sw_fetch := Response 200; sw_later := 3001 |}
              "chg_01" (demo_charge_in demo_completed) demo_completed)
    as (m & Hm & _).
  - vm_compute. reflexivity.
  - vm_compute. discriminate.
  - right. split; [reflexivity|]. split; [discriminate|].
    right. left. exists 999999. split; [reflexivity | reflexivity].
  - by exists m.
Defined.

Lemma sweepCharge_done_swept `{Ledger} env k s r :
  (sweepCharge env k s).1 = Ok (Some r) →
  ∃ c c', getCharge k s = Some c
    ∧ getCharge k (sweepCharge env k s).2 = Some c'
    ∧ status c' = swept ∧ address c' = address c
    ∧ addressToChargeId (sweepCharge env k s).2 !! address c = None.
Proof.
  unfold getCharge, sweepCharge.
  destruct (jm_get k (charges s)) as [c|] eqn:Hget; [|done].
  destruct (bool_decide _); [done|].
  destruct (sw_receivePending env); [|done].
  destruct (_ =? _); [done|].
  destruct (send _ _ _) as [hash|]; [|done].
  set (c1 := set_swept _ _ _). set (s5 := emit _ (persistStateNow _ _)).
  destruct (_ && _).
  - destruct (callWebhook_frame env k c1 hash (sw_balance env) s5) as [Hix _].
    destruct (callWebhook_charges env k c1 hash (sw_balance env) s5) as [Hc|Hc];
      destruct (callWebhook _ _ _ _ _ _) as [[u|m] s6]; cbn [fst snd] in *;
      try done; intros _; rewrite Hc, Hix; subst s5; cbn;
      rewrite ?jm_get_set_eq; eexists c, _;
      (split_and!; [done | done | done | done | apply lookup_delete_eq]).
  - intros _. exists c, c1. subst s5 c1. cbn. rewrite jm_get_set_eq.
    split_and!; try done. apply lookup_delete_eq.
Qed.

(** X13. Once a sweep of a charge has gone through, the charge is out of
    reach of the operations that move funds or amounts: another sweep of
    it, whatever the wallet answers, returns "nothing to sweep", and a
    payment event for its address is ignored; both leave the processor
    exactly as the sweep left it. *)
Theorem sweepCharge_then_inert `{Ledger} (env env' : SweepEnv) (chargeId : string)
    (s : Processor) (r : string * Z) (now : Z) (payment : PaymentEvent) :
  (sweepCharge env chargeId s).1 = Ok (Some r) →
  let s' := (sweepCharge env chargeId s).2 in
  sweepCharge env' chargeId s' = (Ok None, s')
  ∧ (∀ c, getCharge chargeId s = Some c → pe_to payment = address c →
          handlePayment env' now payment s' = s').
Proof.
  intros Hr. destruct (sweepCharge_done_swept _ _ _ _ Hr)
    as (c & c' & Hget & Hget' & Hst & Ha & Hix).
  cbn zeta. split.
  - unfold getCharge in Hget'. unfold sweepCharge at 1. rewrite Hget'.
    by rewrite bool_decide_eq_true_2.
  - intros c0 Hc0 Hto. assert (c0 = c) as -> by congruence.
    unfold handlePayment, handlePayment_sync, lookupByAddress.
    by rewrite Hto, Hix.
Qed.

Lemma sweepCharge_then_inert_witness :
  sweepCharge (H := demoLedger) (demoSweep 0 (FetchError "down")) "chg_01"
    demo_manual_sweep
  = (Ok None, demo_manual_sweep).
Proof.
  pose proof (sweepCharge_then_inert (H := demoLedger)
                (demoSweep 1000000 (Response 200))
                (demoSweep 0 (FetchError "down")) "chg_01" demo_created
                ("5EEB", 1000000) 0 (demoPayment 1)) as Hi.
  cbn zeta in Hi. apply Hi. vm_compute. reflexivity.
Defined.

(** ** The wallet *)

(** X14. [receivePending] receives the pending blocks in order.  When
    every block is received, the results are one per block, in the same
    order, each with the hash of its receive block and the amount of the
    pending block.  Otherwise the promise is rejected at the first block
    that fails, with the hash of that block and the cause in the message:
    the blocks before it have been received, those after it have not been
    tried, and no result is returned. *)
Theorem receivePending_outcome (pending : list (PendingBlock * rpc string)) :
  match receivePending pending with
  | Ok results =>
      Forall2 (λ o r, o.2 = Ok (rr_hash r) ∧ rr_amount r = pb_amount o.1)
        pending results
      ∧ (receive_loop pending).2 = length pending
  | Throw msg =>
      ∃ before block cause after,
        pending = before ++ (block, Throw cause) :: after
        ∧ Forall (λ o, received o = true) before
        ∧ msg = "Failed to receive " +:+ pb_hash block +:+ ": " +:+ cause
        ∧ (receive_loop pending).2 = length before
  end.
Proof.
  unfold receivePending. induction pending as [|[p o] rest IH]; [by split|].
  cbn [receive_loop]. destruct o as [hash|cause].
  - destruct (receive_loop rest) as [[results|msg] n]; cbn [fst snd] in *.
    + destruct IH as [IH ->]. split; [|done]. by constructor.
    + destruct IH as (before & block & cause & after & -> & Hb & -> & ->).
      exists ((p, Ok hash) :: before), block, cause, after.
      split_and!; try done. by constructor.
  - cbn [fst snd]. exists [], p, cause, rest. by split_and!.
Qed.

Lemma recover_turn_nothing `{Ledger} envs s k :
  rc_pending (envs k) = [] → recover_turn envs s k = s.
Proof.
  intros Hp. unfold recover_turn, recover_charge. rewrite Hp.
  by destruct (jm_get k (charges s)).
Qed.

Lemma recover_turns_nothing `{Ledger} envs s (l : list string) :
  Forall (λ k, rc_pending (envs k) = []) l → foldl (recover_turn envs) s l = s.
Proof.
  induction 1 as [|k l Hk _ IH]; [done|].
  cbn [foldl]. by rewrite recover_turn_nothing.
Qed.

(** X15. When the node does not answer, the wallet reports no pending
    block and a zero balance instead of an error.  The recovery scan then
    leaves the processor exactly as it is, without an "error" event, and
    [sweepCharge] returns "nothing to sweep", again with the processor
    unchanged. *)
Theorem node_down_is_silent `{Ledger} (failure : string)
    (envs : string → RecoveryEnv) (env : SweepEnv)
    (outcomes : list (rpc string)) (chargeId : string) (c : Charge)
    (s : Processor) :
  (∀ k, ri_block <$> rc_pending (envs k) = getPendingBlocks (Throw failure)) →
  sw_receivePending env
  = void (receivePending (pending_receipts (Throw failure) outcomes)) →
  sw_balance env = (getBalance (Throw failure)).1 →
  getCharge chargeId s = Some c →
  checkMissedPayments envs s = s
  ∧ sweepCharge env chargeId s = (Ok None, s).
Proof.
  intros Hpend Hrecv Hbal Hget. split.
  - unfold checkMissedPayments. apply recover_turns_nothing.
    apply Forall_forall. intros k _. specialize (Hpend k). cbn in Hpend.
    by apply fmap_nil_inv in Hpend.
  - unfold getCharge in Hget. unfold sweepCharge. rewrite Hget, Hrecv, Hbal.
    cbn. by destruct (bool_decide _).
Qed.

Lemma node_down_is_silent_witness :
  checkMissedPayments (H := demoLedger)
    (λ _, {| rc_pending := []; rc_now := 4000;
             rc_sweep := demoSweep 0 (Response 200) |}) demo_partial
  = demo_partial
  ∧ sweepCharge (H := demoLedger) (demoSweep 0 (Response 200)) "chg_01"
      demo_partial
    = (Ok None, demo_partial).
Proof.
  apply (node_down_is_silent (H := demoLedger) "fetch failed" _ _ [] "chg_01"
           (demo_charge_in demo_partial)); try reflexivity.
Defined.

(** X16. The cache of derived accounts: a second [deriveAccount] of an
    index returns what the first returned and leaves the cache as the
    first left it, and a derivation touches the entry of no other index. *)
Theorem deriveAccount_cached `{Ledger} (index : Z) (accounts : gmap Z Account) :
  deriveAccount index (deriveAccount index accounts).2
  = deriveAccount index accounts
  ∧ (∀ j, j ≠ index →
          (deriveAccount index accounts).2 !! j = accounts !! j)
  ∧ is_Some ((deriveAccount index accounts).2 !! index).
Proof.
  unfold deriveAccount. destruct (accounts !! index) as [a|] eqn:Ha; cbn [snd fst].
  - rewrite Ha. by split_and!.
  - rewrite lookup_insert_eq. cbn. split_and!.
    + done.
    + intros j Hj. by rewrite lookup_insert_ne.
    + by eexists.
Qed.

(** ** Saving and restarting *)

Lemma register_loaded_next (l : list Charge) s :
  nextAccountIndex (foldl register_loaded s l) = nextAccountIndex s
  ∧ monitor (foldl register_loaded s l) = monitor s
  ∧ saveDebounceTimer (foldl register_loaded s l) = saveDebounceTimer s
  ∧ autoSweep (foldl register_loaded s l) = autoSweep s.
Proof.
  revert s. induction l as [|c l IH]; intros s; [done|].
  cbn [foldl]. by destruct (IH (register_loaded s c)) as (-> & -> & -> & ->).
Qed.

Lemma restart_charges config now s :
  wf_store s →
  charges (new_processor config (disk (persistStateNow now s)))
  = (λ kc, (kc.1, reload kc.2)) <$> charges s.
Proof.
  intros [Hnd Hkeyed].
  set (l := revive_charge <$> (stringify_charge <$> jm_values (charges s))).
  assert (loadPersistedState (disk (persistStateNow now s))
          = Some {| ps_nextAccountIndex := nextAccountIndex s; ps_charges := l;
                    ps_updatedAt := now |}) as Hload by done.
  unfold new_processor. rewrite Hload.
  cbn [ps_charges ps_nextAccountIndex charges emit].
  assert (id <$> l = jm_keys (charges s)) as Hids.
  { subst l. rewrite <- !list_fmap_compose.
    rewrite <- (proj2 (keyed_values _ Hkeyed)). by apply list_fmap_ext. }
  match goal with |- context [foldl register_loaded ?s0 l] =>
    destruct (register_loaded_all l s0) as [-> _] end.
  { cbn. by rewrite Hids. }
  cbn [charges set_next app]. subst l. unfold jm_values.
  rewrite <- !list_fmap_compose. apply Forall_fmap_ext_1.
  clear -Hkeyed. induction Hkeyed as [|[k c] m Hk _ IH]; constructor; [|done].
  cbn in *. by subst k.
Qed.

Lemma jm_get_fmap {V W} (f : V → W) k (m : list (string * V)) :
  jm_get k ((λ kv, (kv.1, f kv.2)) <$> m) = f <$> jm_get k m.
Proof.
  induction m as [|[k0 v0] m IH]; [done|]. rewrite fmap_cons. cbn [jm_get fst snd].
  by case_decide.
Qed.

(** X17. A deadline that is the Invalid Date does not survive a restart.
    While the processor runs, an active charge with such a deadline is left
    alone by every expiry check; the file holds [null] for the deadline,
    the constructor reads it back as the epoch, and the first expiry check
    of the restarted processor expires the charge. *)
Theorem restart_expires_invalid_deadline (config : ProcessorConfig)
    (now now' : Z) (s : Processor) (k : string) (c : Charge) :
  wf_store s →
  getCharge k s = Some c →
  is_active c = true →
  expiresAt c = InvalidDate →
  0 < now' →
  getCharge k (checkExpiredCharges now' s).1 = Some c
  ∧ ∃ c',
      getCharge k
        (checkExpiredCharges now'
           (new_processor config (disk (persistStateNow now s)))).1 = Some c'
      ∧ status c' = expired
      ∧ expiresAt c' = DateMs 0
      ∧ id c' = id c ∧ address c' = address c ∧ receivedRaw c' = receivedRaw c.
Proof.
  intros Hwf Hget Hact Hexp Hnow. unfold getCharge in *.
  rewrite !checkExpiredCharges_charges, restart_charges by done.
  rewrite !jm_get_fmap, Hget. cbn [fmap option_fmap option_map]. split.
  - unfold expire_one, is_due. by rewrite Hexp, andb_false_r.
  - eexists. split; [done|].
    assert (is_due now' (reload c) = true) as Hdue.
    { unfold is_due, reload.
      change (is_active (revive_charge (stringify_charge c))) with (is_active c).
      rewrite Hact. cbn [andb revive_charge stringify_charge expiresAt
        jc_expiresAt]. rewrite Hexp. cbn [Date_toJSON Date_of date_lt].
      by apply Z.ltb_lt. }
    unfold expire_one. rewrite Hdue. cbn. by rewrite Hexp.
Qed.

Lemma restart_expires_invalid_deadline_witness :
  ∃ c',
    getCharge "chg_02"
      (checkExpiredCharges 1
         (new_processor demoConfig (disk (persistStateNow 2000 demo_far)))).1
    = Some c'
    ∧ status c' = expired.
Proof.
  destruct (restart_expires_invalid_deadline demoConfig 2000 1 demo_far "chg_02"
              (default demo_charge (getCharge "chg_02" demo_far)))
    as (_ & c' & Hget & Hst & _).
  - split; vm_compute; repeat constructor. intros Hin. inversion Hin.
  - vm_compute. reflexivity.
  - vm_compute. reflexivity.
  - vm_compute. reflexivity.
  - lia.
  - by exists c'.
Defined.

(** X18. The save is debounced.  However often a save is scheduled, one
    firing of the timer writes once, the state as it is when the timer
    fires; a timer that has fired, and one that [persistStateNow] has
    cancelled, writes nothing more; and what the timer writes is what
    [persistStateNow] would write at that time. *)
Theorem save_is_debounced (t t' : Z) (s : Processor) :
  persistState (persistState s) = persistState s
  ∧ disk (saveTimer_fires t (persistState s))
    = savePersistedState (current_state t s)
  ∧ disk (saveTimer_fires t (persistState s)) = disk (persistStateNow t s)
  ∧ saveTimer_fires t' (saveTimer_fires t s) = saveTimer_fires t s
  ∧ saveTimer_fires t' (persistStateNow t s) = persistStateNow t s.
Proof.
  split_and!; try done.
  unfold saveTimer_fires. destruct (saveDebounceTimer s) eqn:Ht; [done|].
  by rewrite Ht.
Qed.

(** X19. What is only scheduled for saving is lost by a restart that comes
    before the timer fires.  A processor constructed on the file left
    right after [createCharge] is the processor that would have been
    constructed had the charge never been created; when the file was up to
    date before, the next charge created after the restart gets the
    sub-account and the address of the lost charge. *)
Theorem createCharge_unsaved_is_lost `{Ledger} (config : ProcessorConfig)
    (rnd rnd2 : string) (now now' t t' : Z)
    (options options2 : CreateChargeOptions) (s : Processor) :
  let c := (createCharge rnd now now' options s).1 in
  let s1 := (createCharge rnd now now' options s).2 in
  let restarted := new_processor config (disk s1) in
  restarted = new_processor config (disk s)
  ∧ (pj_nextAccountIndex <$> disk s = Some (nextAccountIndex s) →
     accountIndex (createCharge rnd2 t t' options2 restarted).1 = accountIndex c
     ∧ address (createCharge rnd2 t t' options2 restarted).1 = address c).
Proof.
  cbn zeta. split; [done|]. cbn [disk createCharge snd emit persistState set_timer
    set_monitor set_index set_charges set_next].
  destruct (disk s) as [file|]; [|done]. intros [= Hn].
  unfold new_processor. cbn [loadPersistedState ps_charges ps_nextAccountIndex].
  cbn [createCharge fst accountIndex address nextAccountIndex emit].
  match goal with |- context [foldl register_loaded ?s0 ?l] =>
    destruct (register_loaded_next l s0) as (-> & _) end.
  cbn. by rewrite Hn.
Qed.

Lemma createCharge_unsaved_is_lost_witness :
  accountIndex
    (createCharge (H := demoLedger) "03" 7000 7000 demoOptions
       (new_processor demoConfig
          (disk (createCharge (H := demoLedger) "02" 6000 6000 demoOptions
                   demo_swept).2))).1
  = accountIndex
      (createCharge (H := demoLedger) "02" 6000 6000 demoOptions demo_swept).1.
Proof.
  destruct (createCharge_unsaved_is_lost (H := demoLedger) demoConfig "02" "03"
              6000 6000 7000 7000 demoOptions demoOptions demo_swept)
    as [_ Hre].
  apply Hre. vm_compute. reflexivity.
Defined.

(** ** Starting and stopping *)

Lemma resubscribe_fold (l : list Charge) s :
  let s' := foldl (λ s c, set_monitor (addAccount (address c) (monitor s)) s) s l in
  charges s' = charges s
  ∧ addressToChargeId s' = addressToChargeId s
  ∧ disk s' = disk s
  ∧ saveDebounceTimer s' = saveDebounceTimer s
  ∧ trace s' = trace s
  ∧ ∀ a, a ∈ monitor s' ↔ a ∈ monitor s ∨ ∃ c, c ∈ l ∧ address c = a.
Proof.
  revert s. induction l as [|c l IH]; intros s; cbn zeta.
  { split_and!; try done. intros a. split; [by left|].
    intros [?|(c & Hc & _)]; [done | by apply elem_of_nil in Hc]. }
  cbn [foldl].
  destruct (IH (set_monitor (addAccount (address c) (monitor s)) s))
    as (-> & -> & -> & -> & -> & Hmon).
  split_and!; try done. intros a. rewrite Hmon. cbn. unfold addAccount.
  rewrite elem_of_union, elem_of_singleton. split.
  - intros [[->|?]|(c' & Hc' & Ha)]; [right; exists c | by left |
      right; exists c'; split; [by apply list_elem_of_further | done]].
    split; [apply list_elem_of_here | done].
  - intros [?|(c' & Hc' & Ha)]; [by left; right|].
    apply elem_of_cons in Hc' as [->|Hc']; [by left; left|].
    right. by exists c'.
Qed.

(** X20. [start()] on a processor that is not running, when no active
    charge has a pending block and the monitor starts: the monitor then
    watches, besides what it watched, exactly the addresses of the active
    charges; the charges, the address index and the file are as before;
    the expiry timer is set, and "started" is announced once with the
    number of active charges. *)
Theorem start_resubscribes `{Ledger} (envs : string → RecoveryEnv) (sv : Service) :
  isRunning sv = false →
  (∀ k, rc_pending (envs k) = []) →
  let sv' := (start envs (Ok ()) sv).2 in
  (start envs (Ok ()) sv).1 = Ok ()
  ∧ isRunning sv' = true
  ∧ expiryCheckInterval sv' = true
  ∧ monitorStarted sv' = true
  ∧ announced sv'
    = announced sv ++ [started (length (listActiveCharges (processor sv)))]
  ∧ charges (processor sv') = charges (processor sv)
  ∧ addressToChargeId (processor sv') = addressToChargeId (processor sv)
  ∧ disk (processor sv') = disk (processor sv)
  ∧ ∀ a, a ∈ monitor (processor sv')
         ↔ a ∈ monitor (processor sv)
           ∨ ∃ c, c ∈ listActiveCharges (processor sv) ∧ address c = a.
Proof.
  intros Hrun Hpend. unfold start. rewrite Hrun. cbn [fst snd isRunning
    expiryCheckInterval monitorStarted announced processor].
  unfold checkMissedPayments.
  rewrite recover_turns_nothing by (apply Forall_forall; intros k _; apply Hpend).
  destruct (resubscribe_fold (listActiveCharges (processor sv)) (processor sv))
    as (Hc & Hix & Hd & _ & _ & Hmon).
  by split_and!.
Qed.

Lemma start_resubscribes_witness :
  monitor (processor
             (start (H := demoLedger)
                (λ _, {| rc_pending := []; rc_now := 4000;
                         rc_sweep := demoSweep 0 (Response 200) |})
                (Ok ())
                (new_service demoConfig (disk (persistStateNow 2500 demo_partial)))).2)
  = {["nano_1000"]}.
Proof.
  destruct (start_resubscribes (H := demoLedger)
              (λ _, {| rc_pending := []; rc_now := 4000;
                       rc_sweep := demoSweep 0 (Response 200) |})
              (new_service demoConfig (disk (persistStateNow 2500 demo_partial))))
    as (_ & _ & _ & _ & _ & _ & _ & _ & Hmon); [reflexivity | reflexivity |].
  apply set_eq. intros a. rewrite Hmon, elem_of_singleton. split.
  - intros [Hin|(c & Hc & <-)]; [by apply elem_of_empty in Hin|].
    vm_compute in Hc. apply list_elem_of_singleton in Hc. by subst c.
  - intros ->. right. eexists. split; [vm_compute; apply list_elem_of_here | done].
Defined.

(** X21. [start()] sets [isRunning] before anything can fail and nothing
    resets it when the start of the monitor is rejected.  After such a
    failure the expiry timer is not set and "started" is not announced,
    and every further [start()] returns at once without doing anything;
    only after [stop()] does [start()] run again. *)
Theorem start_failure_sticks `{Ledger} (envs envs' : string → RecoveryEnv)
    (failure : string) (retry : rpc unit) (sv : Service) :
  isRunning sv = false →
  let failed := (start envs (Throw failure) sv).2 in
  (start envs (Throw failure) sv).1 = Throw failure
  ∧ isRunning failed = true
  ∧ expiryCheckInterval failed = expiryCheckInterval sv
  ∧ announced failed = announced sv
  ∧ start envs' retry failed = (Ok (), failed)
  ∧ isRunning (stop failed) = false
  ∧ (start envs' (Ok ()) (stop failed)).1 = Ok ()
  ∧ expiryCheckInterval (start envs' (Ok ()) (stop failed)).2 = true.
Proof.
  intros Hrun. unfold start. rewrite Hrun. by cbn.
Qed.

Lemma start_failure_sticks_witness :
  start (H := demoLedger) (λ _, demoRecovery) (Ok ())
    (start (H := demoLedger) (λ _, demoRecovery) (Throw "ECONNREFUSED")
       (new_service demoConfig None)).2
  = (Ok (),
     (start (H := demoLedger) (λ _, demoRecovery) (Throw "ECONNREFUSED")
        (new_service demoConfig None)).2).
Proof.
  destruct (start_failure_sticks (H := demoLedger) (λ _, demoRecovery)
              (λ _, demoRecovery) "ECONNREFUSED" (Ok ())
              (new_service demoConfig None))
    as (_ & _ & _ & _ & Hretry & _); [reflexivity|]. exact Hretry.
Defined.

(** ** The registry while a processor runs *)

Section LiveRegistry.
Context `{Ledger}.
Hypothesis Hinj : ∀ i j, deriveAddress i = deriveAddress j → i = j.

Lemma live_distinct s : live s → subaccounts_distinct s.
Proof.
  intros Hlive. induction Hlive as [config|s s' Hlive IH Htr]; [done|].
  destruct (live_swept_unregistered s Hinj Hlive) as [Hal _].
  pose proof (proj1 (proj1 (reachable_wf s (live_reachable s Hlive)))) as Hnd.
  destruct Htr as [s0 s1 Hstep|rnd now now' options s0|k0 s0|s0|now s0].
  - pose proof (step_origin _ _ Hstep) as Hor. intros k1 k2 c1' c2' H1 H2 Hi.
    destruct (Hor k1 c1' H1) as (c1 & G1 & _ & I1 & _).
    destruct (Hor k2 c2' H2) as (c2 & G2 & _ & I2 & _).
    apply (IH k1 k2 c1 c2 G1 G2). congruence.
  - unfold subaccounts_distinct, getCharge, createCharge in *. cbn.
    intros k1 k2 c1 c2. rewrite !jm_get_set.
    case_decide as Hk1; case_decide as Hk2.
    + congruence.
    + intros [= <-] G2. cbn. intros Hi. destruct (Hal k2 c2 G2) as [_ Hlt]. lia.
    + intros G1 [= <-]. cbn. intros Hi. destruct (Hal k1 c1 G1) as [_ Hlt]. lia.
    + apply IH.
  - unfold subaccounts_distinct, getCharge, deleteCharge in *.
    destruct (jm_get k0 (charges s0)) as [c0|]; [|done].
    destruct (negb _); [done|]. cbn. intros k1 k2 c1 c2.
    destruct (decide (k0 = k1)) as [<-|Hne1]; [by rewrite jm_get_delete_eq|].
    destruct (decide (k0 = k2)) as [<-|Hne2]; [by rewrite jm_get_delete_eq|].
    rewrite !jm_get_delete_ne by done. apply IH.
  - unfold subaccounts_distinct, getCharge, cleanupSweptCharges in *.
    cbn [snd]. destruct (bool_decide _); [|done]. cbn. intros k1 k2 c1 c2 G1 G2.
    apply (IH k1 k2); by eapply jm_get_filter.
  - unfold saveTimer_fires. by destruct (saveDebounceTimer s0).
Qed.

Lemma live_addresses_distinct s k1 k2 c1 c2 :
  live s → getCharge k1 s = Some c1 → getCharge k2 s = Some c2 →
  address c1 = address c2 → k1 = k2.
Proof.
  intros Hlive G1 G2 Ha.
  destruct (live_swept_unregistered s Hinj Hlive) as [Hal _].
  apply (live_distinct s Hlive k1 k2 c1 c2 G1 G2), Hinj.
  by rewrite <- (proj1 (Hal k1 c1 G1)), <- (proj1 (Hal k2 c2 G2)).
Qed.








End LiveRegistry.

(** X22. While one processor runs, and as long as the wallet derives
    distinct addresses for distinct sub-accounts, no two stored charges
    share a sub-account or an address, whatever operations were
    interleaved with the creations; every stored charge sits at the
    address derived for its sub-account, below the next one to
    allocate. *)
Theorem live_subaccounts_distinct `{Ledger} (s : Processor) (k1 k2 : string)
    (c1 c2 : Charge) :
  (∀ i j, deriveAddress i = deriveAddress j → i = j) →
  live s →
  getCharge k1 s = Some c1 →
  getCharge k2 s = Some c2 →
  (accountIndex c1 = accountIndex c2 ∨ address c1 = address c2 → k1 = k2)
  ∧ address c1 = deriveAddress (accountIndex c1)
  ∧ accountIndex c1 < nextAccountIndex s.
Proof.
  intros Hinj Hlive G1 G2.
  destruct (live_swept_unregistered s Hinj Hlive) as [Hal _].
  split; [|by apply (Hal k1)].
  intros [Hi|Ha].
  - by apply (live_distinct Hinj s Hlive k1 k2 c1 c2).
  - by apply (live_addresses_distinct Hinj s k1 k2 c1 c2).
Qed.


Lemma demo_two_live : live (H := demoLedger) demo_two.
Proof.
  eapply live_next; [|apply tr_create].
  eapply live_next; [|apply tr_step, step_payment].
  eapply live_next; [apply (live_fresh demoConfig)|]. apply tr_create.
Qed.

Lemma live_subaccounts_distinct_witness :
  address (demo_charge_in demo_two)
  = deriveAddress (H := demoLedger) (accountIndex (demo_charge_in demo_two))
  ∧ accountIndex (demo_charge_in demo_two) < nextAccountIndex demo_two.
Proof.
  destruct (live_subaccounts_distinct (H := demoLedger) demo_two "chg_01" "chg_02"
              (demo_charge_in demo_two)
              (default demo_charge (getCharge "chg_02" demo_two))
              demo_deriveAddress_inj demo_two_live)
    as (_ & Ha & Hlt); [vm_compute; reflexivity..|].
  by split.
Defined.


(** ** Ids, deadlines, events and the recovery of one charge *)

(** X24. In every reachable state, restarts included, the ids of the
    stored charges are pairwise distinct and every listed charge is found
    under its own id. *)
Theorem reachable_ids_distinct `{Ledger} (s : Processor) :
  reachable s →
  NoDup (id <$> listCharges None s)
  ∧ ∀ c, c ∈ listCharges None s → getCharge (id c) s = Some c.
Proof.
  intros Hs. destruct (reachable_wf s Hs) as [[Hnd Hkeyed] _].
  destruct (keyed_values _ Hkeyed) as [_ Hids]. cbn [listCharges]. split.
  - by rewrite Hids.
  - intros c Hc. unfold jm_values in Hc.
    apply list_elem_of_fmap in Hc as ([k c'] & -> & Hin). cbn.
    pose proof (proj1 (Forall_forall _ _) Hkeyed _ Hin) as Hk. cbn in Hk.
    subst k. by apply jm_elem_get.
Qed.

Lemma reachable_ids_distinct_witness :
  NoDup (id <$> listCharges None demo_swept)
  ∧ getCharge (id (demo_charge_in demo_swept)) demo_swept
    = Some (demo_charge_in demo_swept).
Proof.
  destruct (reachable_ids_distinct (H := demoLedger) demo_swept
              demo_swept_reachable) as [Hnd Hget].
  split; [exact Hnd|]. apply Hget. vm_compute. apply list_elem_of_here.
Defined.

(** X25. A charge just created falls due exactly when its deadline, the
    second reading of the clock plus the time-out (30 minutes by default),
    is a valid date and lies before the time of the check: a time-out
    beyond the range of dates gives a charge that is never due, a negative
    one a charge that may be due at once. *)
Theorem createCharge_deadline `{Ledger} (rnd : string) (now now' t : Z)
    (options : CreateChargeOptions) (s : Processor) :
  let c := (createCharge rnd now now' options s).1 in
  let deadline := now' + default 1800000 (opt_timeoutMs options) in
  is_due t c = true ↔ Z.abs deadline ≤ maxTime ∧ deadline < t.
Proof.
  cbn zeta. unfold is_due, createCharge. cbn [fst is_active status expiresAt].
  change DEFAULT_TIMEOUT_MS with 1800000. unfold newDate.
  match goal with |- is_active ?c && _ = _ ↔ _ =>
    change (is_active c) with true end.
  cbn [andb]. destruct (Z.abs _ <=? maxTime) eqn:Hv; cbn [date_lt].
  - apply Z.leb_le in Hv. rewrite Z.ltb_lt. tauto.
  - apply Z.leb_gt in Hv. split; [done | lia].
Qed.

(** X26. The events of a payment applied to an active charge: first
    "charge:payment", with the charge showing the new received amount and
    still its old status, then "charge:completed" or "charge:partial" with
    the charge as it is stored afterwards; nothing else is emitted by the
    part of [handlePayment] before the sweep. *)
Theorem handlePayment_sync_events `{Ledger} (now : Z) (payment : PaymentEvent)
    (s : Processor) (k : string) (c : Charge) :
  lookupByAddress (pe_to payment) s = Some (k, c) →
  is_active c = true →
  ∃ c1 c2,
    trace (handlePayment_sync now payment s).1
    = trace s ++ [charge_payment c1 (tx_of_event payment);
                  if amountRaw c <=? receivedRaw c + pe_amount payment
                  then charge_completed c2 else charge_partial c2]
    ∧ status c1 = status c
    ∧ receivedRaw c1 = receivedRaw c + pe_amount payment
    ∧ getCharge k (handlePayment_sync now payment s).1 = Some c2.
Proof.
  intros Hl Hact. unfold handlePayment_sync, getCharge. rewrite Hl.
  unfold is_active in Hact.
  destruct (status c) eqn:Hst; try discriminate;
    cbn [push_payment amountRaw]; destruct (_ <=? _); cbn;
    eexists _, _; rewrite jm_get_set_eq, <- app_assoc;
    (split_and!; [reflexivity | done..]).
Qed.

Lemma handlePayment_sync_events_witness :
  ∃ c1 c2,
    trace demo_partial
    = trace demo_created
      ++ [charge_payment c1 (tx_of_event (demoPayment 400000)); charge_partial c2]
    ∧ status c1 = pending.
Proof.
  destruct (handlePayment_sync_events (H := demoLedger) 2000 (demoPayment 400000)
              demo_created "chg_01" (demo_charge_in demo_created))
    as (c1 & c2 & Ht & Hst & _); [vm_compute; reflexivity..|].
  exists c1, c2. split; [exact Ht | exact Hst].
Defined.

(** X27. The recovery of one active charge that has pending blocks: the
    amounts of the blocks that could be received are added to what the
    charge has received, one transaction each.  The charge is then
    completed when the total reaches the required amount, partial when the
    total is positive, and keeps its status otherwise; the sweep is asked
    for exactly when the charge is completed and [autoSweep] is on. *)
Theorem recover_charge_outcome `{Ledger} (env : RecoveryEnv) (k : string)
    (c : Charge) (s : Processor) :
  getCharge k s = Some c →
  rc_pending env ≠ [] →
  let got := received_items (rc_pending env) in
  let total := receivedRaw c + sumZ ((pb_amount ∘ ri_block) <$> got) in
  ∃ c', getCharge k (recover_charge env k c s).1 = Some c'
    ∧ receivedRaw c' = total
    ∧ length (transactions c') = (length (transactions c) + length got)%nat
    ∧ status c'
      = (if amountRaw c <=? total then completed
         else if 0 <? total then partial else status c)
    ∧ (recover_charge env k c s).2
      = (if (amountRaw c <=? total) && autoSweep s then Some (id c) else None).
Proof.
  intros Hget Hne. cbn zeta. unfold recover_charge, getCharge in *.
  destruct (rc_pending env) as [|item rest] eqn:Hp; [done|].
  set (s0 := emit _ s).
  pose proof (recover_pending_charges k c (item :: rest) s0) as Hch.
  destruct (recover_pending_charge k c (item :: rest) s0)
    as (txs & Ht & Hamt & Hr & Hst & Hreq & Hid).
  destruct (recover_pending k c (item :: rest) s0) as [c1 s1]. cbn [fst snd] in *.
  rewrite Hamt in Hr.
  remember (received_items (item :: rest)) as got eqn:Hgot.
  assert (length txs = length got) as Hlen.
  { apply (f_equal length) in Hamt. by rewrite !length_fmap in Hamt. }
  rewrite Hreq, Hr.
  destruct (_ <=? _) eqn:Hfull; [|destruct (0 <? _) eqn:Hpos]; cbn.
  - eexists. rewrite jm_get_set_eq. split; [done|]. cbn.
    rewrite Ht, length_app, Hlen, Hid. split_and!; try done.
  - eexists. rewrite jm_get_set_eq. split; [done|]. cbn.
    rewrite Ht, length_app, Hlen. by split_and!.
  - rewrite Hch. destruct got.
    + exists c. subst s0. cbn [charges emit]. split; [done|].
      cbn. unfold sumZ. cbn. split_and!; try done; lia.
    + exists c1. rewrite jm_get_set_eq. split; [done|].
      rewrite Ht, length_app, Hlen. by split_and!.
Qed.

Lemma recover_charge_outcome_witness :
  ∃ c', getCharge "chg_01"
          (recover_charge (H := demoLedger) demoRecovery "chg_01"
             (demo_charge_in demo_partial) demo_partial).1 = Some c'
    ∧ receivedRaw c' = 400005
    ∧ status c' = partial.
Proof.
  destruct (recover_charge_outcome (H := demoLedger) demoRecovery "chg_01"
              (demo_charge_in demo_partial) demo_partial)
    as (c' & Hget & Hr & _ & Hst & _); [vm_compute; reflexivity | discriminate |].
  exists c'. split; [exact Hget|]. split; [exact Hr | exact Hst].
Defined.
